(** * HackerHouseDBot: the audio core of [discord_audio_bot.py]

    A shallow embedding of the ring buffer ([AudioBuffer]), the mixer
    callback ([audio_callback]), the control commands ([skip], [volume],
    [pause], [resume]) and the two loops that feed the media buffer
    ([play_youtube], [playback_loop]), with the properties the specification
    states about them; and, for the further properties at the end, of the
    conversion of the bytes read into frames, of [speak_text], of the queue
    commands ([play], [queue], [remove]) with the playlist file
    ([load_queue], [save_queue]), and of the audio device
    ([start_audio_system], [stop_audio_system], [devices], [setdevice]).

    Conventions.
    - A Python [int] is a [Z]; positions inside a list are [nat].
    - A NumPy [float32] sample is a [spec_float] read at precision 24 and
      maximal exponent 128 (IEEE binary32); a Python [float] is a
      [spec_float] read at precision 53 and maximal exponent 1024.
    - A decimal literal of the source stands for the float it denotes
      there: [0.001], [0.2] and [0.95] are rounded to [float32] where they
      meet a [float32] array.
    - A byte string is a [list Byte.byte]; a 32-bit word is a [Z].
    - A block of audio is a list of frames; a frame holds [CHANNELS = 2]
      samples.
    - The locks of the source serialise whole method bodies; each method is
      modelled as one atomic state transformer. *)

From Stdlib Require Import String ZArith QArith Qabs List Bool Lia.
From Stdlib Require Import Floats.SpecFloat.
Import ListNotations.
From Stdlib Require Strings.Byte.

Local Open Scope Z_scope.

(** ** Configuration *)

Definition SAMPLE_RATE : Z := 48000.
Definition CHANNELS : Z := 2.
Definition BLOCKSIZE : Z := 4096.

(** ** Samples, frames and blocks *)

Definition float32 : Type := spec_float.
Definition float64 : Type := spec_float.

(** One row of an array of shape [(n, CHANNELS)]. *)
Definition Frame : Type := (float32 * float32)%type.
Definition Chunk : Type := list Frame.

Definition zero32 : float32 := S754_zero false.
Definition silence : Frame := (zero32, zero32).

(** [np.zeros((n, CHANNELS), dtype=np.float32)] *)
Definition zeros (n : nat) : Chunk := repeat silence n.

(** [len(a)] of an array of frames. *)
Definition len (c : Chunk) : Z := Z.of_nat (length c).

(** Total number of frames held in a list of chunks. *)
Definition total (cs : list Chunk) : Z := len (concat cs).

Definition is_empty {A : Type} (l : list A) : bool :=
  match l with [] => true | _ :: _ => false end.

(** ** [class AudioBuffer] *)

Module AudioBuffer.

Record t : Type := mk {
  buffer : list Chunk;
  maxsize : Z;
  current_size : Z
}.

(** [__init__(self, maxsize=SAMPLE_RATE * 10)] *)
Definition init (maxsize : Z) : t :=
  {| buffer := []; maxsize := maxsize; current_size := 0 |}.

Definition default : t := init (SAMPLE_RATE * 10).

(** The loop of [write]:
    [while self.buffer and self.current_size + data_len > self.maxsize:
         oldest = self.buffer.pop(0); self.current_size -= len(oldest)] *)
Fixpoint drop_oldest (buf : list Chunk) (cur data_len maxsz : Z)
  : list Chunk * Z :=
  match buf with
  | [] => ([], cur)
  | oldest :: rest =>
      if cur + data_len >? maxsz
      then drop_oldest rest (cur - len oldest) data_len maxsz
      else (buf, cur)
  end.

(** [write(self, data)].  The warning that is logged on overflow does not
    change the buffer and is left out. *)
Definition write (data : Chunk) (b : t) : t :=
  let data_len := len data in
  if data_len =? 0 then b
  else
    let '(buf, cur) :=
      if current_size b + data_len >? maxsize b
      then drop_oldest (buffer b) (current_size b) data_len (maxsize b)
      else (buffer b, current_size b) in
    {| buffer := buf ++ [data];
       maxsize := maxsize b;
       current_size := cur + data_len |}.

(** [result[off:off + len(src)] = src] *)
Definition set_slice (result : Chunk) (off : nat) (src : Chunk) : Chunk :=
  firstn off result ++ src ++ skipn (off + length src) result.

(** The variables of the loop of [read]. *)
Record read_state : Type := mk_read {
  result : Chunk;
  read_offset : nat;
  rbuffer : list Chunk;
  rsize : Z
}.

(** [read_offset < frames and self.buffer] *)
Definition read_cond (frames : nat) (st : read_state) : bool :=
  (read_offset st <? frames)%nat && negb (is_empty (rbuffer st)).

(** One turn of the loop body of [read]. *)
Definition read_step (frames : nat) (st : read_state) : read_state :=
  match rbuffer st with
  | [] => st
  | chunk :: rest =>
      let chunk_len := length chunk in
      let remaining := (frames - read_offset st)%nat in
      if (chunk_len <=? remaining)%nat then
        {| result := set_slice (result st) (read_offset st) chunk;
           read_offset := (read_offset st + chunk_len)%nat;
           rbuffer := rest;
           rsize := rsize st - Z.of_nat chunk_len |}
      else
        {| result := set_slice (result st) (read_offset st)
                       (firstn remaining chunk);
           read_offset := (read_offset st + remaining)%nat;
           rbuffer := skipn remaining chunk :: rest;
           rsize := rsize st - Z.of_nat remaining |}
  end.

(** The [while] loop of [read], run for at most [fuel] turns. *)
Fixpoint read_loop (fuel : nat) (frames : nat) (st : read_state)
  : read_state :=
  match fuel with
  | O => st
  | S fuel' =>
      if read_cond frames st
      then read_loop fuel' frames (read_step frames st)
      else st
  end.

(** [read(self, frames)].  A negative [frames] makes [np.zeros] raise
    [ValueError] before anything is touched: [None].  Every turn of the loop
    pops a chunk or fills the block, so one turn per stored chunk is enough
    fuel (lemma [read_loop_exits]). *)
Definition read (frames : Z) (b : t) : option (Chunk * t) :=
  if frames <? 0 then None
  else
    let n := Z.to_nat frames in
    if is_empty (buffer b) || (current_size b =? 0) then Some (zeros n, b)
    else
      let st := read_loop (length (buffer b)) n
                  {| result := zeros n; read_offset := 0%nat;
                     rbuffer := buffer b; rsize := current_size b |} in
      Some (result st,
            {| buffer := rbuffer st;
               maxsize := maxsize b;
               current_size := rsize st |}).

(** [clear(self)] *)
Definition clear (b : t) : t :=
  {| buffer := []; maxsize := maxsize b; current_size := 0 |}.

(** [available_frames(self)] *)
Definition available_frames (b : t) : Z := current_size b.

(** The frames stored, oldest first. *)
Definition frames_of (b : t) : Chunk := concat (buffer b).

(** The counter agrees with what is stored. *)
Definition wf (b : t) : Prop := current_size b = total (buffer b).

(** A sequence of writes, first to last. *)
Definition writes (ws : list Chunk) (b : t) : t :=
  fold_left (fun acc d => write d acc) ws b.

(** The states a buffer can be in: created, then written, read and cleared
    any number of times. *)
Inductive reachable : t -> Prop :=
  | reach_init (maxsz : Z) : reachable (init maxsz)
  | reach_write (data : Chunk) (b : t) :
      reachable b -> reachable (write data b)
  | reach_read (frames : Z) (b b' : t) (block : Chunk) :
      reachable b -> read frames b = Some (block, b') -> reachable b'
  | reach_clear (b : t) : reachable b -> reachable (clear b).

End AudioBuffer.

(** ** Floating point *)

(** IEEE binary64, the Python [float]. *)
Module F64.
Definition prec : Z := 53.
Definition emax : Z := 1024.
Definition of_Z (n : Z) : float64 := binary_normalize prec emax n 0 false.
Definition div (x y : float64) : float64 := SFdiv prec emax x y.
Definition opp (x : float64) : float64 := SFopp x.
(** The decimal literal [num / den], [den] a power of ten: the double
    nearest to the quotient. *)
Definition lit (num den : Z) : float64 := div (of_Z num) (of_Z den).
End F64.

(** IEEE binary32, the NumPy [float32]. *)
Module F32.
Definition prec : Z := 24.
Definition emax : Z := 128.
Definition mul (x y : float32) : float32 := SFmul prec emax x y.
Definition add (x y : float32) : float32 := SFadd prec emax x y.
Definition abs (x : float32) : float32 := SFabs x.
Definition ltb (x y : float32) : bool := SFltb x y.
Definition leb (x y : float32) : bool := SFleb x y.
Definition gtb (x y : float32) : bool := SFltb y x.
Definition is_nan (x : float32) : bool :=
  match x with S754_nan => true | _ => false end.
(** Neither NaN nor an infinity. *)
Definition is_finite (x : float32) : bool :=
  match x with S754_zero _ | S754_finite _ _ _ => true | _ => false end.
Definition is_zero (x : float32) : bool :=
  match x with S754_zero _ => true | _ => false end.
(** A Python scalar that meets a [float32] array is first rounded to
    [float32] (to nearest, ties to even). *)
Definition of_float64 (x : float64) : float32 :=
  match x with
  | S754_finite s m e => binary_round prec emax s m e
  | _ => x
  end.
(** [np.clip] on one sample, with bounds that are not NaN: the maximum
    with [lo], then the minimum with [hi]; a NaN sample stays NaN. *)
Definition clip (x lo hi : float32) : float32 :=
  let t := if is_nan x then x else if gtb x lo then x else lo in
  if is_nan t then t else if ltb t hi then t else hi.
End F32.

(** ** The mixer: [audio_callback] *)

(** The literals of [audio_callback], as the [float32] loops see them. *)
Definition DUCK_THRESHOLD : float32 := F32.of_float64 (F64.lit 1 1000).
Definition DUCK_FACTOR : float32 := F32.of_float64 (F64.lit 2 10).
Definition CLIP_HI : float32 := F32.of_float64 (F64.lit 95 100).
Definition CLIP_LO : float32 := F32.of_float64 (F64.opp (F64.lit 95 100)).

Definition map_frame (f : float32 -> float32) (x : Frame) : Frame :=
  (f (fst x), f (snd x)).

Definition map2_frame (f : float32 -> float32 -> float32) (x y : Frame)
  : Frame :=
  (f (fst x) (fst y), f (snd x) (snd y)).

(** [block *= k] *)
Definition scale (k : float32) (block : Chunk) : Chunk :=
  map (map_frame (fun x => F32.mul x k)) block.

(** [np.abs(x) > 0.001] on one sample. *)
Definition loud (x : float32) : bool := F32.gtb (F32.abs x) DUCK_THRESHOLD.

(** [np.any(np.abs(tts) > 0.001)] *)
Definition tts_active (tts : Chunk) : bool :=
  existsb (fun x => loud (fst x) || loud (snd x)) tts.

(** [music + tts], two blocks of the same shape. *)
Definition add_blocks (music tts : Chunk) : Chunk :=
  map (fun p => map2_frame F32.add (fst p) (snd p)) (combine music tts).

(** [np.clip(mixed, -0.95, 0.95)] *)
Definition clip_block (mixed : Chunk) : Chunk :=
  map (map_frame (fun x => F32.clip x CLIP_LO CLIP_HI)) mixed.

(** The media block after the volume and the ducking steps. *)
Definition media_path (vol : float64) (music tts : Chunk) : Chunk :=
  let music := scale (F32.of_float64 vol) music in
  if tts_active tts then scale DUCK_FACTOR music else music.

(** The arithmetic of [audio_callback] on the two blocks read. *)
Definition mix (vol : float64) (music tts : Chunk) : Chunk :=
  clip_block (add_blocks (media_path vol music tts) tts).

(** ** The process-wide [state] *)

Inductive proc : Type := YtDlp | Ffmpeg.

Module State.
(** The keys of [state] that the audio core uses; [playback_task],
    [audio_stream], [buffer_lock] and [audio_device_id] are left out. *)
Record t : Type := mk {
  paused : bool;
  volume : float64;
  skip : bool;
  queue : list string;
  current_track : option string;
  music_task : option proc;
  yt_task : option proc;
  music_buffer : option AudioBuffer.t;
  tts_buffer : option AudioBuffer.t
}.

Definition set_paused (v : bool) (s : t) : t :=
  mk v (volume s) (skip s) (queue s) (current_track s) (music_task s)
     (yt_task s) (music_buffer s) (tts_buffer s).
Definition set_volume (v : float64) (s : t) : t :=
  mk (paused s) v (skip s) (queue s) (current_track s) (music_task s)
     (yt_task s) (music_buffer s) (tts_buffer s).
Definition set_skip (v : bool) (s : t) : t :=
  mk (paused s) (volume s) v (queue s) (current_track s) (music_task s)
     (yt_task s) (music_buffer s) (tts_buffer s).
Definition set_queue (v : list string) (s : t) : t :=
  mk (paused s) (volume s) (skip s) v (current_track s) (music_task s)
     (yt_task s) (music_buffer s) (tts_buffer s).
Definition set_current_track (v : option string) (s : t) : t :=
  mk (paused s) (volume s) (skip s) (queue s) v (music_task s)
     (yt_task s) (music_buffer s) (tts_buffer s).
Definition set_tasks (m y : option proc) (s : t) : t :=
  mk (paused s) (volume s) (skip s) (queue s) (current_track s) m y
     (music_buffer s) (tts_buffer s).
Definition set_music_buffer (v : option AudioBuffer.t) (s : t) : t :=
  mk (paused s) (volume s) (skip s) (queue s) (current_track s)
     (music_task s) (yt_task s) v (tts_buffer s).
Definition set_tts_buffer (v : option AudioBuffer.t) (s : t) : t :=
  mk (paused s) (volume s) (skip s) (queue s) (current_track s)
     (music_task s) (yt_task s) (music_buffer s) v.

(** The dictionary literal at the top of the module. *)
Definition initial : t :=
  mk false (F64.of_Z 1) false [] None None None None None.
End State.

(** [state[key].read(frames) if state[key] else np.zeros(...)] *)
Definition read_or_silence (frames : Z) (ob : option AudioBuffer.t)
  : option (Chunk * option AudioBuffer.t) :=
  match ob with
  | Some b =>
      match AudioBuffer.read frames b with
      | Some (block, b') => Some (block, Some b')
      | None => None
      end
  | None => if frames <? 0 then None else Some (zeros (Z.to_nat frames), None)
  end.

(** [audio_callback(outdata, frames, time_info, status)]: the block written
    to [outdata] and the state left behind; [None] when [frames] is
    negative, which the driver never passes. *)
Definition audio_callback (frames : Z) (s : State.t)
  : option (Chunk * State.t) :=
  match read_or_silence frames (State.music_buffer s) with
  | None => None
  | Some (music, mb) =>
      match read_or_silence frames (State.tts_buffer s) with
      | None => None
      | Some (tts, tb) =>
          Some (mix (State.volume s) music tts,
                State.set_tts_buffer tb (State.set_music_buffer mb s))
      end
  end.

(** ** The control commands

    Each command replies through the chat platform; the reply is returned
    next to the new state.  A command changes [state] before it replies, so
    a reply that fails to be sent changes nothing below. *)

Inductive reply : Type :=
  | Skipping
  | NothingPlaying
  | VolumeOutOfRange
  | VolumeSet (level : Z)
  | Paused
  | Resumed
  | NothingPaused.

Definition is_some {A : Type} (o : option A) : bool :=
  match o with Some _ => true | None => false end.

(** The truth value of a Python value that is [None] or a string: the
    empty string counts as false, like [None]. *)
Definition truthy (o : option string) : bool :=
  match o with
  | Some s => negb (String.eqb s "")
  | None => false
  end.

(** [skip(interaction)]; [if state["current_track"]:] tests the truth
    value. *)
Definition skip (s : State.t) : State.t * reply :=
  if truthy (State.current_track s)
  then (State.set_skip true s, Skipping)
  else (s, NothingPlaying).

(** [level / 100.0] *)
Definition volume_of (level : Z) : float64 :=
  F64.div (F64.of_Z level) (F64.of_Z 100).

(** [volume(interaction, level)] *)
Definition volume (level : Z) (s : State.t) : State.t * reply :=
  if (level <? 0) || (level >? 200) then (s, VolumeOutOfRange)
  else (State.set_volume (volume_of level) s, VolumeSet level).

(** [pause(interaction)]; [if state["current_track"]:] tests the truth
    value. *)
Definition pause (s : State.t) : State.t * reply :=
  if truthy (State.current_track s)
  then (State.set_paused true s, Paused)
  else (s, NothingPlaying).

(** [resume(interaction)] *)
Definition resume (s : State.t) : State.t * reply :=
  if State.paused s
  then (State.set_paused false s, Resumed)
  else (s, NothingPaused).

(** ** The environment of a coroutine

    While a coroutine is suspended in an [await], commands and mixer
    callbacks run.  An [await_in] says what ran during one suspension and
    how the awaited operation ended. *)

Inductive action : Type :=
  | RunSkip
  | RunPause
  | RunResume
  | RunVolume (level : Z)
  | RunCallback (frames : Z).

Definition apply_action (a : action) (s : State.t) : State.t :=
  match a with
  | RunSkip => fst (skip s)
  | RunPause => fst (pause s)
  | RunResume => fst (resume s)
  | RunVolume level => fst (volume level s)
  | RunCallback frames =>
      match audio_callback frames s with
      | Some (_, s') => s'
      | None => s
      end
  end.

Definition apply_actions (l : list action) (s : State.t) : State.t :=
  fold_left (fun acc a => apply_action a acc) l s.

(** What [await ffmpeg_process.stdout.read(...)] followed by the conversion
    to frames yields: a block of frames, the empty byte string, or an
    exception (a failed read, or a byte count that [reshape] refuses). *)
Inductive read_result : Type :=
  | Data (block : Chunk)
  | EndOfStream
  | ReadError.

Record await_in : Type := mk_await {
  during : list action;     (* what ran while suspended *)
  spawn_ok : bool;          (* create_subprocess_exec returned a process *)
  in_time : bool;           (* wait_for returned before its timeout *)
  chunk : read_result       (* the outcome of a read *)
}.

(** ** External processes and the log *)

Inductive proc_status : Type :=
  | NotStarted
  | Running
  | Signalled     (* terminate() was delivered *)
  | Exited
  | Killed.

Definition stopped (p : proc_status) : bool :=
  match p with Exited | Killed => true | _ => false end.

Inductive log_msg : Type :=
  | MusicBufferNotAvailable
  | TrackSkipped
  | PlaybackError
  | NowPlaying (url : string)
  | FailedToPlay (url : string).

Inductive event : Type :=
  | Spawn (p : proc)
  | PipeStart
  | PipeCancel
  | Terminate (p : proc)
  | Kill (p : proc)
  | BufferClear
  | SaveQueue (items : list string)
  | Log (m : log_msg).

(** [state], the two processes of the running track, and what happened. *)
Record world : Type := mk_world {
  st : State.t;
  yt_status : proc_status;
  ffmpeg_status : proc_status;
  trace : list event
}.

Definition with_st (f : State.t -> State.t) (w : world) : world :=
  mk_world (f (st w)) (yt_status w) (ffmpeg_status w) (trace w).

Definition emit (e : event) (w : world) : world :=
  mk_world (st w) (yt_status w) (ffmpeg_status w) (trace w ++ [e]).

Definition status_of (p : proc) (w : world) : proc_status :=
  match p with YtDlp => yt_status w | Ffmpeg => ffmpeg_status w end.

Definition set_status (p : proc) (v : proc_status) (w : world) : world :=
  match p with
  | YtDlp => mk_world (st w) v (ffmpeg_status w) (trace w)
  | Ffmpeg => mk_world (st w) (yt_status w) v (trace w)
  end.

(** [p.terminate()]: raises [ProcessLookupError] ([None]) once the process
    has exited. *)
Definition terminate (p : proc) (w : world) : option world :=
  match status_of p w with
  | Running | Signalled => Some (emit (Terminate p) (set_status p Signalled w))
  | _ => None
  end.

(** [try: await asyncio.wait_for(p.wait(), timeout) except TimeoutError:
    p.kill()] *)
Definition wait_or_kill (p : proc) (returned : bool) (w : world) : world :=
  if stopped (status_of p w) then w
  else if returned then set_status p Exited w
  else emit (Kill p) (set_status p Killed w).

(** ** [play_youtube] as a coroutine

    The coroutine is a machine whose control points are its [await]s.
    [step] runs it from one suspension to the next.  The task that pipes the
    fetch process into the decode process appears through [PipeStart] and
    [PipeCancel] only.  The cancellation of [play_youtube] itself, which
    happens at shutdown, is not modelled. *)

Inductive pc : Type :=
  | AwaitSpawnYt            (* create_subprocess_exec("yt-dlp", ...) *)
  | AwaitSpawnFfmpeg        (* create_subprocess_exec("ffmpeg", ...) *)
  | AwaitPauseSleep         (* sleep(0.1) in the pause loop *)
  | AwaitBackpressureSleep  (* sleep(0.1) in the backpressure loop *)
  | AwaitRead               (* ffmpeg_process.stdout.read(...) *)
  | AwaitPipeAfterCancel    (* wait_for(pipe_task, 0.5) in the skip branch *)
  | AwaitPipe               (* wait_for(pipe_task, 1.0) after the loop *)
  | AwaitFfmpegExit         (* wait_for(ffmpeg_process.wait(), 2.0) *)
  | AwaitYtExit             (* wait_for(yt_process.wait(), 2.0) *)
  | Return (ok : bool).

(** [except Exception as e: logger.error(...); return False] *)
Definition on_exception (w : world) : pc * world :=
  (Return false, emit (Log PlaybackError) w).

(** [while state["music_buffer"] and
          state["music_buffer"].available_frames() > SAMPLE_RATE * 2] *)
Definition backpressure_check (w : world) : pc * world :=
  match State.music_buffer (st w) with
  | Some b =>
      if AudioBuffer.available_frames b >? SAMPLE_RATE * 2
      then (AwaitBackpressureSleep, w)
      else (AwaitRead, w)
  | None => (AwaitRead, w)
  end.

(** [while state["paused"] and not state["skip"]] *)
Definition pause_check (w : world) : pc * world :=
  if State.paused (st w) && negb (State.skip (st w))
  then (AwaitPauseSleep, w)
  else backpressure_check w.

(** The top of [while True]: the skip check comes first. *)
Definition loop_top (w : world) : pc * world :=
  if State.skip (st w)
  then (AwaitPipeAfterCancel,
        emit PipeCancel (with_st (State.set_skip false) w))
  else pause_check w.

(** [try: ffmpeg_process.terminate(); yt_process.terminate()
     except: pass] *)
Definition terminate_both (w : world) : world :=
  match terminate Ffmpeg w with
  | Some w1 =>
      match terminate YtDlp w1 with
      | Some w2 => w2
      | None => w1
      end
  | None => w
  end.

(** [if state["music_buffer"]: state["music_buffer"].clear()] *)
Definition clear_music_buffer (w : world) : world :=
  match State.music_buffer (st w) with
  | Some b =>
      emit BufferClear
        (with_st (State.set_music_buffer (Some (AudioBuffer.clear b))) w)
  | None => w
  end.

(** The rest of the skip branch, once the wait for the cancelled pipe task
    is over (however it ended), up to [break]. *)
Definition skip_teardown (w : world) : pc * world :=
  (AwaitPipe, emit (Log TrackSkipped) (clear_music_buffer (terminate_both w))).

Definition step (p : pc) (i : await_in) (w0 : world) : pc * world :=
  let w := with_st (apply_actions (during i)) w0 in
  match p with
  | AwaitSpawnYt =>
      if spawn_ok i
      then (AwaitSpawnFfmpeg, emit (Spawn YtDlp) (set_status YtDlp Running w))
      else on_exception w
  | AwaitSpawnFfmpeg =>
      if spawn_ok i
      then loop_top
             (emit PipeStart
                (with_st (State.set_tasks (Some Ffmpeg) (Some YtDlp))
                   (emit (Spawn Ffmpeg) (set_status Ffmpeg Running w))))
      else on_exception w
  | AwaitPauseSleep => pause_check w
  | AwaitBackpressureSleep => backpressure_check w
  | AwaitRead =>
      match chunk i with
      | EndOfStream => (AwaitPipe, w)
      | ReadError => on_exception w
      | Data block =>
          match State.music_buffer (st w) with
          | Some b =>
              loop_top
                (with_st
                   (State.set_music_buffer (Some (AudioBuffer.write block b)))
                   w)
          | None => on_exception w
          end
      end
  | AwaitPipeAfterCancel => skip_teardown w
  | AwaitPipe => (AwaitFfmpegExit, w)
  | AwaitFfmpegExit => (AwaitYtExit, wait_or_kill Ffmpeg (in_time i) w)
  | AwaitYtExit =>
      (Return true,
       with_st (State.set_tasks None None)
         (wait_or_kill YtDlp (in_time i) w))
  | Return ok => (Return ok, w0)
  end.

(** Resume the coroutine once per element of the script. *)
Fixpoint run (script : list await_in) (p : pc) (w : world) : pc * world :=
  match p, script with
  | Return _, _ => (p, w)
  | _, [] => (p, w)
  | _, i :: rest => let '(p', w') := step p i w in run rest p' w'
  end.

(** The entry of [play_youtube], up to its first [await]. *)
Definition play_youtube_start (w : world) : pc * world :=
  match State.music_buffer (st w) with
  | None => (Return false, emit (Log MusicBufferNotAvailable) w)
  | Some _ =>
      (AwaitSpawnYt, set_status YtDlp NotStarted (set_status Ffmpeg NotStarted w))
  end.

(** [play_youtube(url)] against a script of suspensions. *)
Definition play_youtube (url : string) (script : list await_in) (w : world)
  : pc * world :=
  let '(p, w') := play_youtube_start w in run script p w'.

(** ** [playback_loop] *)

(** Where the loop is suspended: in [queue.get()] or inside a track. *)
Inductive loop_status : Type :=
  | AtDequeue
  | Playing (p : pc).

(** [save_queue()]: the items still queued go to disk. *)
Definition save_queue (w : world) : world :=
  emit (SaveQueue (State.queue (st w))) w.

(** [url = await state["queue"].get(); state["current_track"] = url;
    logger.info(f"Now playing: {url}")] *)
Definition start_track (url : string) (rest : list string) (w : world)
  : world :=
  emit (Log (NowPlaying url))
    (with_st (fun s =>
       State.set_current_track (Some url) (State.set_queue rest s)) w).

(** [if not success: logger.warning(f"Failed to play: {url}");
    state["current_track"] = None; save_queue()] *)
Definition finish_track (success : bool) (url : string) (w : world) : world :=
  save_queue
    (with_st (State.set_current_track None)
       (if success then w else emit (Log (FailedToPlay url)) w)).

(** [playback_loop()], one script per track attempt.  [play_youtube]
    returns a boolean on every path modelled here, so the handler
    [except Exception] of the loop is never entered. *)
Fixpoint playback_loop (scripts : list (list await_in)) (w : world)
  : loop_status * world :=
  match scripts with
  | [] => (AtDequeue, w)
  | script :: rest =>
      match State.queue (st w) with
      | [] => (AtDequeue, w)
      | url :: q =>
          match play_youtube url script (start_track url q w) with
          | (Return success, w') =>
              playback_loop rest (finish_track success url w')
          | (p, w') => (Playing p, w')
          end
      end
  end.

(** ** Notions used in the statements *)

(** A block that [write] does not ignore. *)
Definition nonempty (c : Chunk) : bool := negb (is_empty c).

(** The [k] frames written last. *)
Definition most_recent (k : Z) (written : Chunk) : Chunk :=
  skipn (length written - Z.to_nat k) written.

(** The samples of a block, row by row. *)
Definition samples (block : Chunk) : list float32 :=
  flat_map (fun fr => [fst fr; snd fr]) block.

(** What [audio_callback] makes of one media sample [m] and one
    announcement sample [t], given the volume factor [k] and the ducking
    decision of the block. *)
Definition mix_sample (k : float32) (duck : bool) (m t : float32) : float32 :=
  let scaled := F32.mul m k in
  let media := if duck then F32.mul scaled DUCK_FACTOR else scaled in
  F32.clip (F32.add media t) CLIP_LO CLIP_HI.

(** [-0.95 <= x <= 0.95], decided as the [float32] comparisons of NumPy
    decide it; false for a NaN. *)
Definition in_range (x : float32) : bool :=
  F32.leb CLIP_LO x && F32.leb x CLIP_HI.

(** The sample [2^-k] and the frame that carries it on both channels; used
    as test signals. *)
Definition pow2 (k : Z) : float32 := S754_finite false 8388608 (-23 - k).
Definition tone (k : Z) : Frame := (pow2 k, pow2 k).

(** The exponent at which a [float32] whose leading bit has weight
    [2^(e-1)] keeps its mantissa: 24 bits, never below the subnormals. *)
Definition fexp32 (e : Z) : Z := Z.max (e - 24) (-149).

(** [x] is a value of the format: NaN, an infinity, a zero, or a mantissa
    at its canonical exponent, within range. *)
Definition valid32 (x : float32) : Prop := valid_binary 24 128 x = true.

(** The rational that a finite float stands for ([0] for the others). *)
Definition to_Q (x : spec_float) : Q :=
  match x with
  | S754_finite s m e =>
      let n := if s then Zneg m else Zpos m in
      if 0 <=? e then inject_Z (n * 2 ^ e) else (n # Z.to_pos (2 ^ (- e)))%Q
  | _ => 0%Q
  end.

(** [x] is a finite float within [tol] of the rational [q]. *)
Definition near (tol : Q) (x : spec_float) (q : Q) : bool :=
  F32.is_finite x && Qle_bool (Qabs (to_Q x - q)) tol.

(** The levels that [volume] accepts. *)
Definition levels : list Z := map Z.of_nat (seq 0 201).

(** The state [demo_state] with an infinite sample at the front of the media
    buffer. *)
Definition inf_frame : Frame := (S754_infinity false, S754_infinity false).

(** Every sample stored in a buffer satisfies [P]; a buffer that was never
    created holds nothing. *)
Definition buffer_samples (P : float32 -> Prop) (ob : option AudioBuffer.t)
  : Prop :=
  match ob with
  | Some b => Forall P (samples (AudioBuffer.frames_of b))
  | None => True
  end.

(** Every stored sample is finite (no NaN, no infinity). *)
Definition finite_buffer : option AudioBuffer.t -> Prop :=
  buffer_samples (fun x => F32.is_finite x = true).

(** Every stored sample is a value of the [float32] format. *)
Definition float32_buffer : option AudioBuffer.t -> Prop :=
  buffer_samples valid32.

(** A state for examples: volume 1.0, three frames of media at 0.5, 0.25
    and 0.125, one frame of announcement at 0.5. *)
Definition demo_state : State.t :=
  State.mk false (F64.of_Z 1) false [] None None None
    (Some (AudioBuffer.write [tone 1; tone 2; tone 3] AudioBuffer.default))
    (Some (AudioBuffer.write [tone 1] AudioBuffer.default)).

(** The same state with a NaN at the front of the media buffer. *)
Definition nan_state : State.t :=
  State.set_music_buffer
    (Some (AudioBuffer.write [(S754_nan, S754_nan)] AudioBuffer.default))
    demo_state.

(** The process can still take a signal. *)
Definition alive (p : proc_status) : bool :=
  match p with Running | Signalled => true | _ => false end.

(** The signals that the skip branch sends to processes in the given
    states: the decode process first, and the fetch process only if that
    first [terminate()] did not raise. *)
Definition signals (yt ffmpeg : proc_status) : list event :=
  if alive ffmpeg
  then Terminate Ffmpeg :: (if alive yt then [Terminate YtDlp] else [])
  else [].

(** A world for examples: a track is playing from [demo_state], both
    processes run, and one more request is queued. *)
Definition demo_world : world :=
  mk_world
    (State.set_queue ["next"%string]
       (State.set_current_track (Some "track"%string) demo_state))
    Running Running [Spawn YtDlp; Spawn Ffmpeg; PipeStart].

(** A world for examples: nothing plays yet and two requests are queued. *)
Definition idle_world : world :=
  mk_world (State.set_queue ["first"%string; "second"%string] demo_state)
    NotStarted NotStarted [].

(** Suspensions during which nothing else runs: the awaited operation
    succeeds in time ([quiet]), times out ([late]), or fails ([broken]). *)
Definition quiet : await_in := mk_await [] true true EndOfStream.
Definition late : await_in := mk_await [] true false EndOfStream.
Definition broken : await_in := mk_await [] false false ReadError.

(** A suspension during which [skip] runs and whose read finds the stream
    at its end. *)
Definition skip_then_eof : await_in :=
  mk_await [RunSkip] true true EndOfStream.

(** ** From bytes to frames

    [np.frombuffer(chunk, dtype=np.float32).reshape(-1, CHANNELS)], the
    conversion that [play_youtube] and [speak_text] apply to what they read
    from the decode process.  The byte order is the one of the [f32le]
    stream and of the machines the bot runs on: least significant byte
    first. *)

(** The 32-bit word held by four consecutive bytes. *)
Definition word_of_bytes (b0 b1 b2 b3 : Byte.byte) : Z :=
  Z.of_N (Byte.to_N b0)
  + Z.shiftl (Z.of_N (Byte.to_N b1)) 8
  + Z.shiftl (Z.of_N (Byte.to_N b2)) 16
  + Z.shiftl (Z.of_N (Byte.to_N b3)) 24.

(** The [float32] that a 32-bit word encodes: bit 31 is the sign, bits 30
    to 23 the biased exponent, bits 22 to 0 the fraction. *)
Definition float32_of_bits (x : Z) : float32 :=
  let s := Z.testbit x 31 in
  let e := Z.land (Z.shiftr x 23) 255 in
  let m := Z.land x 8388607 in
  if e =? 0 then
    match m with
    | Zpos p => S754_finite s p (-149)
    | _ => S754_zero s
    end
  else if e =? 255 then
    if m =? 0 then S754_infinity s else S754_nan
  else
    match m + 8388608 with
    | Zpos p => S754_finite s p (e - 150)
    | _ => S754_nan
    end.

(** [np.frombuffer(chunk, dtype=np.float32)]: [None] is the [ValueError]
    raised when the size of the buffer is not a multiple of the element
    size. *)
Fixpoint frombuffer (chunk : list Byte.byte) : option (list float32) :=
  match chunk with
  | [] => Some []
  | b0 :: b1 :: b2 :: b3 :: rest =>
      match frombuffer rest with
      | Some xs => Some (float32_of_bits (word_of_bytes b0 b1 b2 b3) :: xs)
      | None => None
      end
  | _ => None
  end.

(** [a.reshape(-1, CHANNELS)]: [None] is the [ValueError] raised when the
    samples do not fill whole frames. *)
Fixpoint reshape (a : list float32) : option Chunk :=
  match a with
  | [] => Some []
  | l :: r :: rest =>
      match reshape rest with
      | Some frames => Some ((l, r) :: frames)
      | None => None
      end
  | _ => None
  end.

Definition to_frames (chunk : list Byte.byte) : option Chunk :=
  match frombuffer chunk with
  | Some a => reshape a
  | None => None
  end.

(** What one [await ffmpeg_process.stdout.read(...)] of [play_youtube]
    amounts to, from what the stream delivered: [None] when the read
    raised, the bytes otherwise.  An empty byte string ends the loop before
    any conversion. *)
Definition read_outcome (r : option (list Byte.byte)) : read_result :=
  match r with
  | None => ReadError
  | Some [] => EndOfStream
  | Some chunk =>
      match to_frames chunk with
      | Some block => Data block
      | None => ReadError
      end
  end.

(** The largest number of bytes one read asks for:
    [BLOCKSIZE * CHANNELS * 4]. *)
Definition READ_SIZE : Z := BLOCKSIZE * CHANNELS * 4.

(** ** [speak_text] as a coroutine *)

(** One suspension of [speak_text]: what ran meanwhile, and how the awaited
    call ended, [None] when it raised.  The bytes matter for a read only. *)
Record tts_await : Type := mk_tts_await {
  tts_during : list action;
  outcome : option (list Byte.byte)
}.

Inductive tts_pc : Type :=
  | TtsAwaitRequest                 (* run_in_executor(requests.post ...) *)
  | TtsAwaitSpawn                   (* create_subprocess_exec("ffmpeg", ...) *)
  | TtsAwaitRead (total_bytes : Z)  (* ffmpeg_process.stdout.read(...) *)
  | TtsAwaitExit (total_bytes : Z)  (* ffmpeg_process.wait() *)
  | TtsReturn (ok : bool).

(** The entry of [speak_text], up to its first [await]; [api_key] is
    [ELEVENLABS_API_KEY]. *)
Definition speak_text_start (api_key : option string) (s : State.t)
  : tts_pc * State.t :=
  if negb (truthy api_key) then (TtsReturn false, s)
  else if negb (is_some (State.tts_buffer s)) then (TtsReturn false, s)
  else (TtsAwaitRequest, s).

(** From one suspension to the next.  For the request, an outcome that is
    not [None] stands for a response that [raise_for_status] accepts.  Every
    exception ends in [except Exception: ... return False]. *)
Definition tts_step (p : tts_pc) (i : tts_await) (s0 : State.t)
  : tts_pc * State.t :=
  let s := apply_actions (tts_during i) s0 in
  match p with
  | TtsAwaitRequest =>
      match outcome i with
      | Some _ => (TtsAwaitSpawn, s)
      | None => (TtsReturn false, s)
      end
  | TtsAwaitSpawn =>
      match outcome i with
      | Some _ => (TtsAwaitRead 0, s)
      | None => (TtsReturn false, s)
      end
  | TtsAwaitRead total_bytes =>
      match outcome i with
      | None => (TtsReturn false, s)
      | Some [] => (TtsAwaitExit total_bytes, s)
      | Some chunk =>
          match to_frames chunk with
          | None => (TtsReturn false, s)
          | Some audio_data =>
              match State.tts_buffer s with
              | Some b =>
                  (TtsAwaitRead (total_bytes + Z.of_nat (length chunk)),
                   State.set_tts_buffer
                     (Some (AudioBuffer.write audio_data b)) s)
              | None => (TtsReturn false, s)
              end
          end
      end
  | TtsAwaitExit total_bytes =>
      match outcome i with
      | Some _ => (TtsReturn true, s)
      | None => (TtsReturn false, s)
      end
  | TtsReturn ok => (TtsReturn ok, s0)
  end.

Fixpoint tts_run (script : list tts_await) (p : tts_pc) (s : State.t)
  : tts_pc * State.t :=
  match p, script with
  | TtsReturn _, _ => (p, s)
  | _, [] => (p, s)
  | _, i :: rest => let '(p', s') := tts_step p i s in tts_run rest p' s'
  end.

(** [speak_text(text)] against a script of suspensions. *)
Definition speak_text (api_key : option string) (script : list tts_await)
    (s : State.t) : tts_pc * State.t :=
  let '(p, s') := speak_text_start api_key s in tts_run script p s'.

(** ** The queue commands: [play], [queue], [remove] *)

(** The dictionary that [search_youtube] returns.  [duration] is [None]
    when the value is not an [int] ([None] or a [float]), on which
    [// 60] or the format [:02d] raises. *)
Module VideoInfo.
Record t : Type := mk {
  title : string;
  url : string;
  duration : option Z;
  uploader : string
}.
End VideoInfo.

Inductive queue_reply : Type :=
  | CouldNotFind
  | AddedToQueue (position : Z) (info : VideoInfo.t) (minutes seconds : Z)
  | QueueIsEmpty
  | CurrentQueue (now_playing : option string) (lines : list (Z * string))
  | InvalidIndex (size : Z)
  | Removed (url : string)
  | CommandError.

(** [len(items)] of a list of requests. *)
Definition qsize (items : list string) : Z := Z.of_nat (length items).

(** [play(interaction, query)], from the return of [search_youtube]: the
    request goes to the end of the queue and the queue is saved before the
    duration is formatted. *)
Definition play (video_info : option VideoInfo.t) (w : world)
  : world * queue_reply :=
  match video_info with
  | None => (w, CouldNotFind)
  | Some info =>
      let w1 :=
        save_queue
          (with_st (fun s =>
             State.set_queue (State.queue s ++ [VideoInfo.url info]) s) w) in
      let position := qsize (State.queue (st w1)) in
      match VideoInfo.duration info with
      | Some d => (w1, AddedToQueue position info (d / 60) (d mod 60))
      | None => (w1, CommandError)
      end
  end.

(** [enumerate(items, start)] *)
Fixpoint enumerate {A : Type} (start : Z) (items : list A) : list (Z * A) :=
  match items with
  | [] => []
  | x :: rest => (start, x) :: enumerate (start + 1) rest
  end.

(** [show_queue(interaction)], the command [queue]. *)
Definition show_queue (s : State.t) : queue_reply :=
  let items := State.queue s in
  if is_empty items && negb (truthy (State.current_track s))
  then QueueIsEmpty
  else CurrentQueue
         (if truthy (State.current_track s) then State.current_track s
          else None)
         (enumerate 1 items).

(** [items.pop(k)] for [0 <= k < len(items)]: the element and the rest. *)
Definition pop {A : Type} (k : nat) (items : list A) : option (A * list A) :=
  match nth_error items k with
  | Some x => Some (x, firstn k items ++ skipn (S k) items)
  | None => None
  end.

(** [remove(interaction, index)]: the queue is rebuilt without the entry
    and saved. *)
Definition remove (index : Z) (w : world) : world * queue_reply :=
  let items := State.queue (st w) in
  if (index <? 1) || (index >? qsize items) then (w, InvalidIndex (qsize items))
  else
    match pop (Z.to_nat (index - 1)) items with
    | Some (removed, items') =>
        (save_queue (with_st (State.set_queue items') w), Removed removed)
    | None => (w, CommandError)
    end.

(** ** The playlist file *)

(** A JSON document as [json.load] returns it; the numbers of the documents
    the bot writes are integers. *)
#[warnings="-register-all"]
Inductive json : Type :=
  | JNull
  | JBool (b : bool)
  | JNumber (n : Z)
  | JString (s : string)
  | JArray (items : list json)
  | JObject (members : list (string * json)).

(** A file: absent, present with a document, or present and unreadable
    ([open] or [json.load] raises). *)
Inductive file : Type :=
  | NoFile
  | Unreadable
  | Document (v : json).

(** [d.get(key)] on the members of an object, in the order of the document;
    of two members with one key, [json.load] keeps the later one. *)
Fixpoint get (key : string) (members : list (string * json)) : option json :=
  match members with
  | [] => None
  | (k, v) :: rest =>
      match get key rest with
      | Some v' => Some v'
      | None => if String.eqb k key then Some v else None
      end
  end.

(** [load_queue()]: the value under ["queue"], and the empty list when the
    file is absent, when reading it raises, when the document is not an
    object ([data.get] raises), or when the key is missing. *)
Definition load_queue (playlist : file) : json :=
  match playlist with
  | Document (JObject members) =>
      match get "queue" members with
      | Some v => v
      | None => JArray []
      end
  | _ => JArray []
  end.

(** What [save_queue] dumps: [{"queue": items}]. *)
Definition playlist_document (items : list string) : json :=
  JObject [("queue"%string, JArray (map JString items))].

(** The playlist file after the saves of a trace, starting from [f0]; each
    save is one that succeeds (a save that raises is only logged by
    [save_queue]). *)
Definition playlist_file (f0 : file) (tr : list event) : file :=
  fold_left
    (fun f e =>
       match e with
       | SaveQueue items => Document (playlist_document items)
       | _ => f
       end)
    tr f0.

(** ** Notions used in the further statements *)

(** The most that the media buffer holds while [play_youtube] feeds it: two
    seconds of audio, above which the loop waits, and the block read
    last. *)
Definition FEED_LIMIT : Z := SAMPLE_RATE * 2 + BLOCKSIZE.

(** No block of the script is longer than [n] frames. *)
Definition blocks_within (n : Z) (script : list await_in) : Prop :=
  Forall (fun i => match chunk i with
                   | Data block => len block <= n
                   | _ => True
                   end) script.

(** The media buffer of [w] is there, counts its frames, has the capacity
    that [AudioBuffer()] gives it, and holds at most [limit] frames. *)
Definition media_within (limit : Z) (w : world) : Prop :=
  exists b,
    State.music_buffer (st w) = Some b /\
    AudioBuffer.wf b /\
    AudioBuffer.maxsize b = SAMPLE_RATE * 10 /\
    AudioBuffer.available_frames b <= limit.

(** A suspension during which nothing else runs and whose read returns
    [block]. *)
Definition reads (block : Chunk) : await_in :=
  mk_await [] true true (Data block).

(** A wait during which nothing else runs and that returns in time or
    not. *)
Definition waits (in_time : bool) : await_in :=
  mk_await [] true in_time EndOfStream.


(** An action that leaves the pause loop alone: neither [resume] nor
    [skip]. *)
Definition keeps_pause (a : action) : bool :=
  match a with
  | RunResume | RunSkip => false
  | _ => true
  end.

(** Everything that ran during the suspensions of a script, in order. *)
Definition all_during (script : list await_in) : list action :=
  flat_map during script.

(** A suspension of [speak_text] during which nothing else runs and whose
    call returns [raw] (any bytes for a call that is not a read). *)
Definition returns (raw : list Byte.byte) : tts_await :=
  mk_tts_await [] (Some raw).

(** A byte string that is not empty and converts to [block]. *)
Definition converts (raw : list Byte.byte) (block : Chunk) : Prop :=
  raw <> [] /\ to_frames raw = Some block.

(** The number of bytes of a list of reads. *)
Definition byte_count (raws : list (list Byte.byte)) : Z :=
  Z.of_nat (length (concat raws)).

(** ** The audio device: [start_audio_system], [stop_audio_system] and the
    admin commands

    The keys [audio_stream] and [audio_device_id] of [state], and the file
    [selected_device.json], next to the keys of the audio core. *)

Definition AUTHORIZED_USER : string := "kael558".

(** One entry of [sd.query_devices()], read as the commands read it:
    [device.get('name', 'Unknown')] and
    [device.get('max_output_channels', 0)]. *)
Module Device.
Record t : Type := mk {
  name : option string;
  max_output_channels : option Z
}.
Definition name_of (d : t) : string :=
  match name d with Some n => n | None => "Unknown"%string end.
Definition output_channels (d : t) : Z :=
  match max_output_channels d with Some n => n | None => 0 end.
End Device.

(** An [sd.OutputStream]: the device it was opened on ([None] is the
    default device) and whether it runs. *)
Record stream : Type := mk_stream {
  on_device : option Z;
  running : bool
}.

Module Bot.
Record t : Type := mk {
  state : State.t;
  audio_stream : option stream;
  audio_device_id : option Z;
  selected_device : file
}.
Definition set_state (v : State.t) (b : t) : t :=
  mk v (audio_stream b) (audio_device_id b) (selected_device b).
Definition set_audio_stream (v : option stream) (b : t) : t :=
  mk (state b) v (audio_device_id b) (selected_device b).
Definition set_audio_device_id (v : option Z) (b : t) : t :=
  mk (state b) (audio_stream b) v (selected_device b).
Definition set_selected_device (v : file) (b : t) : t :=
  mk (state b) (audio_stream b) (audio_device_id b) v.
End Bot.

(** How far [start_audio_system] gets before a call of the audio library
    raises. *)
Inductive start_result : Type :=
  | Started            (* no call raised *)
  | FailedBeforeOpen   (* sd.query_devices() or sd.OutputStream(...) *)
  | FailedToStart      (* state["audio_stream"].start() *)
  | FailedAfterStart.  (* the last sd.query_devices(...) *)

(** [start_audio_system()]: both buffers are created anew before anything
    can fail. *)
Definition start_audio_system (r : start_result) (b : Bot.t) : Bot.t * bool :=
  let b1 :=
    Bot.set_state
      (State.set_tts_buffer (Some AudioBuffer.default)
         (State.set_music_buffer (Some AudioBuffer.default) (Bot.state b)))
      b in
  let device_id := Bot.audio_device_id b1 in
  match r with
  | FailedBeforeOpen => (b1, false)
  | FailedToStart =>
      (Bot.set_audio_stream (Some (mk_stream device_id false)) b1, false)
  | FailedAfterStart =>
      (Bot.set_audio_stream (Some (mk_stream device_id true)) b1, false)
  | Started =>
      (Bot.set_audio_stream (Some (mk_stream device_id true)) b1, true)
  end.

(** How [stop_audio_system] ends when there is a stream. *)
Inductive stop_result : Type :=
  | Stopped       (* stop() and close() returned *)
  | StopRaised    (* stop() raised *)
  | CloseRaised.  (* close() raised *)

(** [stop_audio_system()]: the exceptions are logged, and then the stream
    stays in [state]. *)
Definition stop_audio_system (r : stop_result) (b : Bot.t) : Bot.t :=
  match Bot.audio_stream b with
  | None => b
  | Some strm =>
      match r with
      | Stopped => Bot.set_audio_stream None b
      | StopRaised => b
      | CloseRaised =>
          Bot.set_audio_stream (Some (mk_stream (on_device strm) false)) b
      end
  end.

Inductive device_reply : Type :=
  | NotAuthorized
  | NoOutputDevices
  | OutputDevices (lines : list (Z * string * Z * bool * bool))
  | InvalidDeviceId
  | NoOutputChannels (device_id : Z)
  | StartFailed (device_id : Z)
  | DeviceChanged (device_name : string) (device_id : Z)
  | DeviceError.

(** [interaction.user.name != AUTHORIZED_USER] *)
Definition authorized (user : string) : bool := String.eqb user AUTHORIZED_USER.

(** [i == state["audio_device_id"]] *)
Definition is_current (i : Z) (b : Bot.t) : bool :=
  match Bot.audio_device_id b with
  | Some d => i =? d
  | None => false
  end.

(** The lines of [list_devices]: the devices with output channels, each
    with its index, name, channels and the marks for the current and the
    default device. *)
Definition output_lines (devices : list Device.t) (default_output : Z)
    (b : Bot.t) : list (Z * string * Z * bool * bool) :=
  flat_map
    (fun p : Z * Device.t =>
       let '(i, d) := p in
       if Device.output_channels d >? 0
       then [(i, Device.name_of d, Device.output_channels d,
              is_current i b, i =? default_output)]
       else [])
    (enumerate 0 devices).

(** [list_devices(interaction)], the command [devices];
    [default_output] is [sd.default.device[1]]. *)
Definition list_devices (user : string) (devices : list Device.t)
    (default_output : Z) (b : Bot.t) : device_reply :=
  if negb (authorized user) then NotAuthorized
  else
    let lines := output_lines devices default_output b in
    if is_empty lines then NoOutputDevices else OutputDevices lines.

(** What [set_device] dumps to [selected_device.json]. *)
Definition device_document (device_id : Z) (device_name : string) : json :=
  JObject [("device_id"%string, JNumber device_id);
           ("device_name"%string, JString device_name)].

(** [set_device(interaction, device_id)], the command [setdevice].
    [write_ok] says whether [selected_device.json] could be opened for
    writing; when it could not, the exception is answered with an error
    after the stream was stopped and the device set. *)
Definition set_device (user : string) (device_id : Z)
    (devices : list Device.t) (stop : stop_result) (write_ok : bool)
    (start : start_result) (b : Bot.t) : Bot.t * device_reply :=
  if negb (authorized user) then (b, NotAuthorized)
  else if (device_id <? 0) || (device_id >=? Z.of_nat (length devices))
  then (b, InvalidDeviceId)
  else
    match nth_error devices (Z.to_nat device_id) with
    | None => (b, DeviceError)
    | Some device_info =>
        if Device.output_channels device_info <=? 0
        then (b, NoOutputChannels device_id)
        else
          let b1 := stop_audio_system stop b in
          let b2 := Bot.set_audio_device_id (Some device_id) b1 in
          if write_ok then
            let b3 :=
              Bot.set_selected_device
                (Document (device_document device_id
                             (Device.name_of device_info))) b2 in
            match start_audio_system start b3 with
            | (b4, true) =>
                (b4, DeviceChanged (Device.name_of device_info) device_id)
            | (b4, false) => (b4, StartFailed device_id)
            end
          else (b2, DeviceError)
    end.

(** The replies of [set_device] after which the device was changed in
    [state]. *)
Definition device_was_set (r : device_reply) : bool :=
  match r with
  | DeviceChanged _ _ | StartFailed _ => true
  | _ => false
  end.

(** * Properties *)

(** ** Lists of frames *)

Lemma len_nonneg (c : Chunk) : 0 <= len c.
Proof. unfold len. lia. Qed.

Lemma len_app (c d : Chunk) : len (c ++ d) = len c + len d.
Proof. unfold len. rewrite length_app. lia. Qed.

Lemma len_zero_nil (c : Chunk) : len c = 0 -> c = [].
Proof. unfold len. destruct c; simpl; [reflexivity | lia]. Qed.

Lemma total_nil : total [] = 0.
Proof. reflexivity. Qed.

Lemma total_cons (c : Chunk) (cs : list Chunk) :
  total (c :: cs) = len c + total cs.
Proof. unfold total. simpl. apply len_app. Qed.

Lemma total_app (cs ds : list Chunk) : total (cs ++ ds) = total cs + total ds.
Proof. unfold total. rewrite concat_app. apply len_app. Qed.

Lemma total_nonneg (cs : list Chunk) : 0 <= total cs.
Proof. apply len_nonneg. Qed.

Lemma zeros_length (n : nat) : length (zeros n) = n.
Proof. apply repeat_length. Qed.

Lemma skipn_zeros (k n : nat) : skipn k (zeros n) = zeros (n - k).
Proof.
  revert n. induction k as [|k IH]; intros n.
  - now rewrite Nat.sub_0_r.
  - destruct n as [|n]; simpl; [reflexivity | apply IH].
Qed.

Lemma set_slice_fill (pre src : Chunk) (room : nat) :
  (length src <= room)%nat ->
  AudioBuffer.set_slice (pre ++ zeros room) (length pre) src
  = (pre ++ src) ++ zeros (room - length src).
Proof.
  intros Hfit. unfold AudioBuffer.set_slice.
  rewrite firstn_app, Nat.sub_diag, firstn_all. simpl. rewrite app_nil_r.
  rewrite skipn_app, skipn_all2 by lia. simpl.
  replace (length pre + length src - length pre)%nat with (length src) by lia.
  now rewrite skipn_zeros, app_assoc.
Qed.

Create Rewrite HintDb sizes.
#[local] Hint Rewrite total_nil total_cons total_app len_app : sizes.

(** ** The write loop *)

Section DropOldest.

Variables (data_len maxsz : Z).

(** The loop pops a prefix of the chunks, keeps the counter exact, stops
    as soon as the new block fits, and the last chunk popped was
    needed. *)
Lemma drop_oldest_spec (buf : list Chunk) :
  exists old kept,
    buf = old ++ kept /\
    AudioBuffer.drop_oldest buf (total buf) data_len maxsz
      = (kept, total kept) /\
    (kept <> [] -> total kept + data_len <= maxsz) /\
    (forall olds c, old = olds ++ [c] ->
                    len c + total kept + data_len > maxsz).
Proof.
  induction buf as [|c rest IH].
  - exists [], []. repeat split; try reflexivity; try congruence.
    intros olds c E. destruct olds; discriminate.
  - simpl. destruct (total (c :: rest) + data_len >? maxsz) eqn:E.
    + destruct IH as (old & kept & Hsplit & Hrun & Hfit & Hmax).
      exists (c :: old), kept. rewrite total_cons in *.
      replace (len c + total rest - len c) with (total rest) by lia.
      repeat split; auto.
      * simpl. now rewrite Hsplit.
      * intros olds c' Eo. destruct olds as [|o olds]; simpl in Eo.
        -- injection Eo as -> Eold. subst old. simpl in Hsplit. subst rest.
           lia.
        -- injection Eo as _ Eold. now apply (Hmax olds).
    + exists [], (c :: rest). repeat split; auto.
      * intros _. lia.
      * intros olds c' Eo. destruct olds; discriminate.
Qed.

End DropOldest.

(** What one write of a block that is not empty does. *)
Lemma write_spec (data : Chunk) (b : AudioBuffer.t) :
  AudioBuffer.wf b -> data <> [] ->
  exists old kept,
    AudioBuffer.buffer b = old ++ kept /\
    AudioBuffer.write data b
      = AudioBuffer.mk (kept ++ [data]) (AudioBuffer.maxsize b)
          (total kept + len data) /\
    (kept <> [] -> total kept + len data <= AudioBuffer.maxsize b) /\
    (forall olds c, old = olds ++ [c] ->
                    len c + total kept + len data > AudioBuffer.maxsize b).
Proof.
  intros Hwf Hne. unfold AudioBuffer.write.
  destruct (len data =? 0) eqn:E0.
  { apply Z.eqb_eq, len_zero_nil in E0. contradiction. }
  red in Hwf. rewrite Hwf.
  destruct (total (AudioBuffer.buffer b) + len data >? AudioBuffer.maxsize b)
    eqn:E.
  - destruct (drop_oldest_spec (len data) (AudioBuffer.maxsize b)
                (AudioBuffer.buffer b))
      as (old & kept & Hsplit & Hrun & Hfit & Hmax).
    exists old, kept. rewrite Hrun. auto.
  - exists [], (AudioBuffer.buffer b). repeat split; auto.
    + intros _. lia.
    + intros olds c Eo. destruct olds; discriminate.
Qed.

Lemma write_empty (b : AudioBuffer.t) : AudioBuffer.write [] b = b.
Proof. reflexivity. Qed.

Lemma write_wf (data : Chunk) (b : AudioBuffer.t) :
  AudioBuffer.wf b -> AudioBuffer.wf (AudioBuffer.write data b).
Proof.
  intros Hwf. destruct data as [|x data]; [exact Hwf|].
  destruct (write_spec (x :: data) b Hwf) as (old & kept & _ & -> & _);
    [discriminate|].
  red. simpl. autorewrite with sizes. lia.
Qed.

Lemma write_maxsize (data : Chunk) (b : AudioBuffer.t) :
  AudioBuffer.maxsize (AudioBuffer.write data b) = AudioBuffer.maxsize b.
Proof.
  unfold AudioBuffer.write. destruct (len data =? 0); [reflexivity|].
  now destruct (if _ >? _ then _ else _).
Qed.

Lemma init_wf (maxsz : Z) : AudioBuffer.wf (AudioBuffer.init maxsz).
Proof. reflexivity. Qed.

Lemma clear_wf (b : AudioBuffer.t) : AudioBuffer.wf (AudioBuffer.clear b).
Proof. reflexivity. Qed.

(** ** The read loop *)

Lemma read_loop_done (fuel frames : nat) (s : AudioBuffer.read_state) :
  AudioBuffer.read_cond frames s = false ->
  AudioBuffer.read_loop fuel frames s = s.
Proof. intros H. destruct fuel; simpl; [reflexivity | now rewrite H]. Qed.

(** The loop invariant: [result] holds the frames copied so far, followed
    by the zeros it was created with.  With one unit of fuel per stored
    chunk the loop runs to its exit, and then it has moved the first
    [frames - read_offset] stored frames (or all of them) into [result]. *)
Lemma read_loop_spec (frames : nat) :
  forall (fuel : nat) (s : AudioBuffer.read_state) (pre : Chunk),
    let room := (frames - AudioBuffer.read_offset s)%nat in
    let stored := concat (AudioBuffer.rbuffer s) in
    AudioBuffer.result s = pre ++ zeros room ->
    length pre = AudioBuffer.read_offset s ->
    (AudioBuffer.read_offset s <= frames)%nat ->
    (length (AudioBuffer.rbuffer s) <= fuel)%nat ->
    let s' := AudioBuffer.read_loop fuel frames s in
    AudioBuffer.result s'
      = pre ++ firstn room stored ++ zeros (room - length stored) /\
    concat (AudioBuffer.rbuffer s') = skipn room stored /\
    AudioBuffer.rsize s'
      = AudioBuffer.rsize s - Z.of_nat (Nat.min room (length stored)) /\
    AudioBuffer.read_cond frames s' = false.
Proof.
  induction fuel as [|fuel IH]; intros s pre room stored Hres Hpre Hoff Hfuel.
  - destruct s as [res off buf sz]. simpl in *.
    destruct buf; [|simpl in Hfuel; lia].
    subst stored room. simpl. rewrite firstn_nil, skipn_nil, Nat.sub_0_r.
    rewrite Nat.min_0_r. unfold AudioBuffer.read_cond. simpl.
    rewrite andb_false_r. repeat split; auto. lia.
  - simpl. destruct (AudioBuffer.read_cond frames s) eqn:Hc.
    2:{ unfold AudioBuffer.read_cond in Hc.
        apply andb_false_iff in Hc. destruct Hc as [Hc|Hc].
        - apply Nat.ltb_ge in Hc.
          assert (room = 0%nat) as -> by (subst room; lia).
          simpl. rewrite Hres. simpl.
          unfold AudioBuffer.read_cond.
          replace (AudioBuffer.read_offset s <? frames)%nat with false
            by (symmetry; apply Nat.ltb_ge; lia).
          repeat split; auto. lia.
        - subst stored. destruct (AudioBuffer.rbuffer s) eqn:Eb;
            [|discriminate].
          simpl. rewrite firstn_nil, skipn_nil, Nat.sub_0_r, Nat.min_0_r.
          unfold AudioBuffer.read_cond. rewrite Eb. simpl.
          rewrite andb_false_r. repeat split; auto. lia. }
    unfold AudioBuffer.read_cond in Hc. apply andb_true_iff in Hc.
    destruct Hc as [Hlt Hbuf]. apply Nat.ltb_lt in Hlt.
    destruct s as [res off buf sz]. simpl in *.
    destruct buf as [|c rest]; [discriminate|]. clear Hbuf.
    subst stored room res. simpl.
    unfold AudioBuffer.read_step. simpl.
    destruct (length c <=? frames - off)%nat eqn:Hfit.
    + apply Nat.leb_le in Hfit. subst off.
      rewrite set_slice_fill by exact Hfit.
      specialize (IH (AudioBuffer.mk_read
                        ((pre ++ c) ++ zeros (frames - length pre - length c))
                        (length pre + length c) rest
                        (sz - Z.of_nat (length c)))
                     (pre ++ c)).
      simpl in IH.
      replace (frames - (length pre + length c))%nat
        with (frames - length pre - length c)%nat in IH by lia.
      destruct IH as (Hr & Hb & Hs & Hx);
        [reflexivity | now rewrite length_app | lia | simpl in Hfuel; lia |].
      rewrite Hr, Hb, Hs, Hx.
      rewrite firstn_app, skipn_app, length_app.
      rewrite (@firstn_all2 _ (frames - length pre)%nat c) by lia.
      rewrite (@skipn_all2 _ (frames - length pre)%nat c) by lia. simpl.
      repeat split; auto.
      * rewrite <- !app_assoc. do 3 f_equal. f_equal. lia.
      * lia.
    + apply Nat.leb_gt in Hfit. subst off.
      assert (Hlen : length (firstn (frames - length pre) c)
                     = (frames - length pre)%nat)
        by (rewrite length_firstn; lia).
      rewrite read_loop_done.
      2:{ unfold AudioBuffer.read_cond. simpl.
          replace (length pre + (frames - length pre) <? frames)%nat
            with false by (symmetry; apply Nat.ltb_ge; lia).
          reflexivity. }
      simpl. rewrite set_slice_fill by lia. rewrite Hlen, Nat.sub_diag.
      rewrite firstn_app, skipn_app, length_app.
      replace (frames - length pre - length c)%nat with 0%nat by lia.
      replace (frames - length pre - (length c + length (concat rest)))%nat
        with 0%nat by lia.
      simpl. rewrite !app_nil_r.
      unfold AudioBuffer.read_cond. simpl.
      replace (length pre + (frames - length pre) <? frames)%nat
        with false by (symmetry; apply Nat.ltb_ge; lia).
      repeat split; auto. lia.
Qed.

Lemma wf_frames (b : AudioBuffer.t) :
  AudioBuffer.wf b ->
  AudioBuffer.current_size b = len (AudioBuffer.frames_of b).
Proof. intros H. exact H. Qed.

Lemma wf_zero_empty (b : AudioBuffer.t) :
  AudioBuffer.wf b -> AudioBuffer.current_size b = 0 ->
  AudioBuffer.frames_of b = [].
Proof. intros Hwf H0. apply len_zero_nil. now rewrite <- wf_frames. Qed.

Lemma is_empty_concat (l : list Chunk) : is_empty l = true -> concat l = [].
Proof. destruct l; [reflexivity | discriminate]. Qed.

(** [read] returns for every count that is not negative, and the block has
    just that many frames, whatever the buffer holds. *)
Lemma read_total (n : Z) (b : AudioBuffer.t) :
  0 <= n ->
  exists block b',
    AudioBuffer.read n b = Some (block, b') /\
    length block = Z.to_nat n /\
    AudioBuffer.maxsize b' = AudioBuffer.maxsize b.
Proof.
  intros Hn. unfold AudioBuffer.read.
  destruct (n <? 0) eqn:E; [apply Z.ltb_lt in E; lia|].
  destruct (is_empty (AudioBuffer.buffer b)
            || (AudioBuffer.current_size b =? 0)).
  - eexists _, _. repeat split. apply zeros_length.
  - eexists _, _. repeat split.
    destruct (read_loop_spec (Z.to_nat n) (length (AudioBuffer.buffer b))
                (AudioBuffer.mk_read (zeros (Z.to_nat n)) 0
                   (AudioBuffer.buffer b) (AudioBuffer.current_size b)) [])
      as (Hr & _); simpl; auto; try lia.
    { now rewrite Nat.sub_0_r. }
    simpl in Hr. rewrite Hr, Nat.sub_0_r, length_app, length_firstn, zeros_length.
    lia.
Qed.

(** On a buffer whose counter is exact, [read] hands out the oldest
    [frames] stored frames, pads with zeros, and keeps the rest. *)
Lemma read_spec (n : Z) (b : AudioBuffer.t) :
  0 <= n -> AudioBuffer.wf b ->
  let stored := AudioBuffer.frames_of b in
  exists b',
    AudioBuffer.read n b
      = Some (firstn (Z.to_nat n) stored
                ++ zeros (Z.to_nat n - length stored), b') /\
    AudioBuffer.frames_of b' = skipn (Z.to_nat n) stored /\
    AudioBuffer.current_size b'
      = AudioBuffer.current_size b - Z.min n (AudioBuffer.current_size b) /\
    AudioBuffer.maxsize b' = AudioBuffer.maxsize b /\
    AudioBuffer.wf b'.
Proof.
  intros Hn Hwf stored. unfold AudioBuffer.read.
  destruct (n <? 0) eqn:E; [apply Z.ltb_lt in E; lia|].
  destruct (is_empty (AudioBuffer.buffer b)
            || (AudioBuffer.current_size b =? 0)) eqn:Hearly.
  - assert (Hnil : stored = []).
    { apply orb_true_iff in Hearly. destruct Hearly as [He|He].
      - now apply is_empty_concat.
      - apply Z.eqb_eq in He. now apply wf_zero_empty. }
    assert (H0 : AudioBuffer.current_size b = 0).
    { rewrite (wf_frames b Hwf). fold stored. now rewrite Hnil. }
    exists b. rewrite Hnil, firstn_nil, skipn_nil. simpl.
    rewrite Nat.sub_0_r. repeat split; auto. lia.
  - destruct (read_loop_spec (Z.to_nat n) (length (AudioBuffer.buffer b))
                (AudioBuffer.mk_read (zeros (Z.to_nat n)) 0
                   (AudioBuffer.buffer b) (AudioBuffer.current_size b)) [])
      as (Hr & Hb & Hs & _); simpl; auto; try lia.
    { now rewrite Nat.sub_0_r. }
    simpl in Hr, Hb, Hs. rewrite Nat.sub_0_r in Hr, Hb, Hs.
    eexists. rewrite Hr. split; [reflexivity|].
    unfold AudioBuffer.frames_of, AudioBuffer.wf, total. simpl.
    rewrite Hb, Hs. fold (AudioBuffer.frames_of b). fold stored.
    pose proof (wf_frames b Hwf) as Hc. fold stored in Hc. unfold len in *.
    rewrite length_skipn.
    repeat split; auto; lia.
Qed.

Lemma read_wf (n : Z) (b b' : AudioBuffer.t) (block : Chunk) :
  AudioBuffer.wf b -> AudioBuffer.read n b = Some (block, b') ->
  AudioBuffer.wf b'.
Proof.
  intros Hwf Hread.
  destruct (Z.ltb_spec n 0) as [Hneg|Hn].
  - unfold AudioBuffer.read in Hread.
    apply Z.ltb_lt in Hneg. rewrite Hneg in Hread. discriminate.
  - destruct (read_spec n b Hn Hwf) as (b1 & Hr & _ & _ & _ & Hwf1).
    rewrite Hr in Hread. now injection Hread as _ <-.
Qed.

(** The counter is exact in every state a buffer can reach. *)
Lemma reachable_wf (b : AudioBuffer.t) :
  AudioBuffer.reachable b -> AudioBuffer.wf b.
Proof.
  induction 1 as [maxsz|data b _ IH|frames b b' block _ IH Hread|b _ IH].
  - apply init_wf.
  - now apply write_wf.
  - now apply (read_wf frames b b' block).
  - apply clear_wf.
Qed.

(** ** Sequences of writes *)

Lemma concat_nonempty (ws : list Chunk) :
  concat (filter nonempty ws) = concat ws.
Proof.
  induction ws as [|w ws IH]; [reflexivity|].
  destruct w; simpl; [exact IH | now rewrite IH].
Qed.

Lemma most_recent_app (old kept : Chunk) :
  most_recent (len kept) (old ++ kept) = kept.
Proof.
  unfold most_recent, len. rewrite Nat2Z.id, length_app, skipn_app.
  replace (length old + length kept - length kept)%nat with (length old)
    by lia.
  now rewrite skipn_all, Nat.sub_diag.
Qed.

Lemma writes_maxsize (ws : list Chunk) (b : AudioBuffer.t) :
  AudioBuffer.maxsize (AudioBuffer.writes ws b) = AudioBuffer.maxsize b.
Proof.
  revert b. induction ws as [|w ws IH]; intros b; [reflexivity|].
  simpl. fold (AudioBuffer.writes ws (AudioBuffer.write w b)).
  now rewrite IH, write_maxsize.
Qed.

(** The chunks left after a sequence of writes are the newest ones, and the
    newest chunk that was dropped would not fit any more. *)
Lemma writes_spec (ws : list Chunk) :
  forall b0 : AudioBuffer.t,
    AudioBuffer.wf b0 ->
    AudioBuffer.current_size b0 <= AudioBuffer.maxsize b0 ->
    Forall (fun w => len w <= AudioBuffer.maxsize b0) ws ->
    let b := AudioBuffer.writes ws b0 in
    AudioBuffer.wf b /\
    AudioBuffer.current_size b <= AudioBuffer.maxsize b0 /\
    exists old,
      AudioBuffer.buffer b0 ++ filter nonempty ws
        = old ++ AudioBuffer.buffer b /\
      (forall olds c, old = olds ++ [c] ->
         len c + AudioBuffer.current_size b > AudioBuffer.maxsize b0).
Proof.
  induction ws as [|d ws IH]; intros b0 Hwf Hcap Hall; simpl.
  - repeat split; auto. exists []. rewrite app_nil_r. split; [reflexivity|].
    intros olds c E. destruct olds; discriminate.
  - fold (AudioBuffer.writes ws (AudioBuffer.write d b0)).
    inversion Hall as [|d' ws' Hd Hws]; subst.
    destruct d as [|x d].
    { rewrite write_empty. simpl. now apply IH. }
    destruct (write_spec (x :: d) b0 Hwf) as (old1 & kept & Hsplit & Hw & Hfit & Hmax1);
      [discriminate|].
    set (b1 := AudioBuffer.write (x :: d) b0) in *.
    assert (Hwf1 : AudioBuffer.wf b1) by (apply write_wf; exact Hwf).
    assert (Hms1 : AudioBuffer.maxsize b1 = AudioBuffer.maxsize b0)
      by apply write_maxsize.
    assert (Hcs1 : AudioBuffer.current_size b1 = total kept + len (x :: d))
      by (rewrite Hw; reflexivity).
    assert (Hcap1 : AudioBuffer.current_size b1 <= AudioBuffer.maxsize b1).
    { rewrite Hcs1, Hms1. destruct kept as [|k kept].
      - rewrite total_nil. lia.
      - apply Hfit. discriminate. }
    specialize (IH b1 Hwf1 Hcap1).
    rewrite Hms1 in IH. specialize (IH Hws).
    destruct IH as (Hwf' & Hcap' & old2 & Heq & Hmax2).
    repeat split; auto.
    exists (old1 ++ old2). split.
    + change (nonempty (x :: d)) with true. cbv iota.
      rewrite <- app_assoc, <- Heq, Hsplit, Hw. simpl.
      now rewrite <- !app_assoc.
    + intros olds c E.
      destruct old2 as [|o old2].
      * rewrite app_nil_r in E. simpl in Heq.
        pose proof (Hmax1 olds c E) as Hgt.
        red in Hwf'. rewrite Hwf', <- Heq, total_app.
        red in Hwf1. rewrite <- Hwf1, Hcs1.
        pose proof (total_nonneg (filter nonempty ws)). lia.
      * destruct (@exists_last _ (o :: old2)) as (olds2 & c2 & E2);
          [discriminate|].
        rewrite E2, app_assoc in E. apply app_inj_tail in E.
        destruct E as [_ <-]. now apply (Hmax2 olds2).
Qed.

Lemma Forall_prefix {A : Type} (P : A -> Prop) (k : nat) (l : list A) :
  Forall P l -> Forall P (firstn k l).
Proof.
  revert l. induction k as [|k IH]; intros l H; simpl; [constructor|].
  destruct H; constructor; auto.
Qed.

(** ** The ring buffer: the stated properties *)

(** C1, as stated, fails: with capacity 4, two writes of three frames each
    (six frames in total, each write within capacity) leave three frames
    stored, not the four written last: the first block is dropped whole. *)
Lemma write_drops_whole_chunks :
  let w1 := [tone 1; tone 2; tone 3] in
  let w2 := [tone 4; tone 5; tone 6] in
  let b := AudioBuffer.writes [w1; w2] (AudioBuffer.init 4) in
  len w1 <= 4 /\ len w2 <= 4 /\ total [w1; w2] > 4 /\
  AudioBuffer.frames_of b = [tone 4; tone 5; tone 6] /\
  AudioBuffer.current_size b = 3 /\
  most_recent 4 (concat [w1; w2]) = [tone 3; tone 4; tone 5; tone 6] /\
  AudioBuffer.frames_of b <> most_recent 4 (concat [w1; w2]).
Proof.
  repeat split; try reflexivity; try (vm_compute; congruence).
Qed.

(** C1, amended: starting from a buffer within capacity, when every write
    is at most the capacity, then after each write of the sequence the
    occupancy is at most the capacity, the stored chunks are the newest
    blocks written (older ones are dropped whole, oldest first), the newest
    dropped block would no longer fit, and the stored frames are exactly the
    most recent [occupancy] frames. *)
Theorem writes_keep_newest_chunks
    (b0 : AudioBuffer.t) (ws : list Chunk) (k : nat) :
  AudioBuffer.wf b0 ->
  AudioBuffer.current_size b0 <= AudioBuffer.maxsize b0 ->
  Forall (fun w => len w <= AudioBuffer.maxsize b0) ws ->
  let done := firstn k ws in
  let b := AudioBuffer.writes done b0 in
  AudioBuffer.wf b /\
  AudioBuffer.current_size b <= AudioBuffer.maxsize b /\
  (exists old,
      AudioBuffer.buffer b0 ++ filter nonempty done
        = old ++ AudioBuffer.buffer b /\
      (forall olds c, old = olds ++ [c] ->
         len c + AudioBuffer.current_size b > AudioBuffer.maxsize b)) /\
  AudioBuffer.frames_of b
    = most_recent (AudioBuffer.current_size b)
        (AudioBuffer.frames_of b0 ++ concat done).
Proof.
  intros Hwf Hcap Hall done b.
  assert (Hdone : Forall (fun w => len w <= AudioBuffer.maxsize b0) done)
    by (apply Forall_prefix; exact Hall).
  destruct (writes_spec done b0 Hwf Hcap Hdone) as (Hwf' & Hcap' & old & Heq & Hmax).
  fold b in Hwf', Hcap', Heq, Hmax.
  assert (Hms : AudioBuffer.maxsize b = AudioBuffer.maxsize b0)
    by apply writes_maxsize.
  rewrite Hms. repeat split; auto.
  - exists old. split; assumption.
  - unfold AudioBuffer.frames_of at 2.
    rewrite <- (concat_nonempty done), <- concat_app.
    unfold Chunk in *. rewrite Heq, concat_app.
    rewrite (wf_frames b Hwf'). unfold AudioBuffer.frames_of.
    now rewrite most_recent_app.
Qed.

(** C6: a block larger than the capacity empties the buffer and is then
    stored whole; the occupancy is the size of the block, above the
    capacity. *)
Theorem write_oversize_accepted (data : Chunk) (b : AudioBuffer.t) :
  AudioBuffer.wf b ->
  0 <= AudioBuffer.maxsize b ->
  len data > AudioBuffer.maxsize b ->
  AudioBuffer.write data b
    = AudioBuffer.mk [data] (AudioBuffer.maxsize b) (len data) /\
  AudioBuffer.frames_of (AudioBuffer.write data b) = data /\
  AudioBuffer.available_frames (AudioBuffer.write data b) = len data /\
  AudioBuffer.available_frames (AudioBuffer.write data b)
    > AudioBuffer.maxsize b.
Proof.
  intros Hwf Hcap Hbig.
  assert (Hne : data <> []).
  { intros ->. unfold len in Hbig. simpl in Hbig. lia. }
  destruct (write_spec data b Hwf Hne) as (old & kept & _ & Hw & Hfit & _).
  assert (kept = []) as ->.
  { destruct kept as [|c kept]; [reflexivity|].
    pose proof (total_nonneg (c :: kept)).
    assert (c :: kept <> []) as Hk by discriminate.
    specialize (Hfit Hk). lia. }
  rewrite Hw. change (total []) with 0.
  unfold AudioBuffer.frames_of, AudioBuffer.available_frames. simpl.
  rewrite app_nil_r. repeat split; auto.
Qed.

(** A read that ends inside the front chunk. *)
Lemma read_splits_front (n : Z) (c : Chunk) (rest : list Chunk) (ms cs : Z) :
  0 < n < len c -> cs <> 0 ->
  AudioBuffer.read n (AudioBuffer.mk (c :: rest) ms cs)
  = Some (firstn (Z.to_nat n) c,
          AudioBuffer.mk (skipn (Z.to_nat n) c :: rest) ms (cs - n)).
Proof.
  intros [Hpos Hin] Hcs. unfold len in Hin. unfold AudioBuffer.read. simpl.
  destruct (n <? 0) eqn:E; [apply Z.ltb_lt in E; lia|].
  destruct (cs =? 0) eqn:E0; [apply Z.eqb_eq in E0; lia|].
  unfold AudioBuffer.read_cond. simpl.
  replace (0 <? Z.to_nat n)%nat with true
    by (symmetry; apply Nat.ltb_lt; lia).
  simpl. unfold AudioBuffer.read_step. simpl. rewrite Nat.sub_0_r.
  replace (length c <=? Z.to_nat n)%nat with false
    by (symmetry; apply Nat.leb_gt; lia).
  rewrite read_loop_done.
  2:{ unfold AudioBuffer.read_cond. simpl.
      now rewrite Nat.ltb_irrefl. }
  simpl.
  assert (Hlen : length (firstn (Z.to_nat n) c) = Z.to_nat n)
    by (rewrite length_firstn; lia).
  pose proof (set_slice_fill [] (firstn (Z.to_nat n) c) (Z.to_nat n)) as Hs.
  simpl in Hs. rewrite Hs by lia.
  rewrite Hlen, Nat.sub_diag. simpl. rewrite app_nil_r.
  now rewrite Z2Nat.id by lia.
Qed.

(** C2: a read of more frames than are stored returns the stored frames
    followed by silence, [n] frames in all, and leaves the buffer empty;
    [read] never returns fewer frames than asked; and a read that ends
    inside the front chunk takes the first [n] frames of that chunk and
    leaves its remainder at the front. *)
Theorem read_pads_with_silence :
  (forall (n : Z) (b : AudioBuffer.t),
      AudioBuffer.wf b -> AudioBuffer.current_size b < n ->
      exists block b',
        AudioBuffer.read n b = Some (block, b') /\
        block = AudioBuffer.frames_of b
                  ++ zeros (Z.to_nat (n - AudioBuffer.current_size b)) /\
        len block = n /\
        AudioBuffer.frames_of b' = [] /\
        AudioBuffer.available_frames b' = 0) /\
  (forall (n : Z) (b : AudioBuffer.t),
      0 <= n ->
      exists block b',
        AudioBuffer.read n b = Some (block, b') /\ len block = n) /\
  (forall (n : Z) (c : Chunk) (rest : list Chunk) (ms cs : Z),
      0 < n < len c -> cs <> 0 ->
      AudioBuffer.read n (AudioBuffer.mk (c :: rest) ms cs)
      = Some (firstn (Z.to_nat n) c,
              AudioBuffer.mk (skipn (Z.to_nat n) c :: rest) ms (cs - n))).
Proof.
  split; [|split].
  - intros n b Hwf Hlt.
    pose proof (wf_frames b Hwf) as Hc. pose proof (len_nonneg (AudioBuffer.frames_of b)).
    assert (Hn : 0 <= n) by lia.
    destruct (read_spec n b Hn Hwf) as (b' & Hr & Hf & Hs & _ & _).
    unfold len in *.
    rewrite firstn_all2 in Hr by lia. rewrite skipn_all2 in Hf by lia.
    eexists _, b'. split; [exact Hr|].
    unfold AudioBuffer.available_frames.
    repeat split; auto.
    + do 2 f_equal. lia.
    + rewrite length_app, zeros_length. lia.
    + lia.
  - intros n b Hn. destruct (read_total n b Hn) as (block & b' & Hr & Hl & _).
    exists block, b'. split; [exact Hr|]. unfold len. lia.
  - intros. now apply read_splits_front.
Qed.

(** C10: on a buffer whose counter is exact, [read n] takes [min n
    occupancy] frames off the front and keeps the others in order; a read of
    no frames, and a read from an empty buffer, leave the buffer as it
    was. *)
Theorem read_consumes_front (n : Z) (b : AudioBuffer.t) :
  0 <= n -> AudioBuffer.wf b ->
  exists block b',
    AudioBuffer.read n b = Some (block, b') /\
    AudioBuffer.frames_of b
      = firstn (Z.to_nat (Z.min n (AudioBuffer.current_size b))) block
          ++ AudioBuffer.frames_of b' /\
    AudioBuffer.frames_of b'
      = skipn (Z.to_nat (Z.min n (AudioBuffer.current_size b)))
          (AudioBuffer.frames_of b) /\
    AudioBuffer.current_size b'
      = AudioBuffer.current_size b - Z.min n (AudioBuffer.current_size b) /\
    AudioBuffer.maxsize b' = AudioBuffer.maxsize b /\
    AudioBuffer.wf b' /\
    (n = 0 -> block = [] /\ b' = b) /\
    (AudioBuffer.current_size b = 0 -> b' = b).
Proof.
  intros Hn Hwf.
  destruct (read_spec n b Hn Hwf) as (b' & Hr & Hf & Hs & Hm & Hwf').
  pose proof (wf_frames b Hwf) as Hc. unfold len in Hc.
  set (stored := AudioBuffer.frames_of b) in *.
  eexists _, b'. split; [exact Hr|].
  assert (Hskip : skipn (Z.to_nat (Z.min n (AudioBuffer.current_size b))) stored
                  = skipn (Z.to_nat n) stored).
  { destruct (Z.le_ge_cases n (AudioBuffer.current_size b)) as [Hle|Hge].
    - now rewrite Z.min_l by lia.
    - rewrite Z.min_r by lia. rewrite !skipn_all2 by lia. reflexivity. }
  repeat split; auto.
  - rewrite Hf, firstn_app, length_firstn.
    rewrite firstn_firstn.
    replace (Nat.min (Z.to_nat (Z.min n (AudioBuffer.current_size b)))
               (Z.to_nat n))
      with (Z.to_nat (Z.min n (AudioBuffer.current_size b))) by lia.
    replace (Z.to_nat (Z.min n (AudioBuffer.current_size b))
             - Nat.min (Z.to_nat n) (length stored))%nat with 0%nat by lia.
    simpl. rewrite app_nil_r, <- Hskip. symmetry. apply firstn_skipn.
  - now rewrite Hf.
  - subst n. simpl in Hr. unfold AudioBuffer.read in Hr. simpl in Hr.
    destruct (is_empty (AudioBuffer.buffer b)
              || (AudioBuffer.current_size b =? 0)); now inversion Hr.
  - subst n. unfold AudioBuffer.read in Hr. simpl in Hr.
    destruct (is_empty (AudioBuffer.buffer b)
              || (AudioBuffer.current_size b =? 0)).
    + now inversion Hr.
    + destruct (AudioBuffer.buffer b) eqn:Eb; simpl in Hr;
        inversion Hr as [Hb']; clear - Eb; destruct b; simpl in *; now subst.
  - intros H0. unfold AudioBuffer.read in Hr.
    destruct (n <? 0); [discriminate|].
    rewrite H0, Z.eqb_refl, orb_true_r in Hr. now inversion Hr.
Qed.

(** ** Rounding never invents a NaN *)

Section Rounding.

Variables (prec emax : Z).

Lemma shr_1_nonneg (mrs : shr_record) :
  0 <= shr_m mrs -> 0 <= shr_m (shr_1 mrs).
Proof.
  destruct mrs as [m r s]. simpl.
  destruct m as [|p|p]; [| destruct p |]; simpl; lia.
Qed.

Lemma iter_shr_1_nonneg (p : positive) :
  forall mrs, 0 <= shr_m mrs -> 0 <= shr_m (iter_pos shr_1 p mrs).
Proof.
  induction p as [p IH|p IH|]; intros mrs H; simpl.
  - apply IH, IH, shr_1_nonneg, H.
  - apply IH, IH, H.
  - apply shr_1_nonneg, H.
Qed.

Lemma shr_record_of_loc_m (m : Z) (l : location) :
  shr_m (shr_record_of_loc m l) = m.
Proof. destruct l as [|[]]; reflexivity. Qed.

Lemma shr_fexp_nonneg (m e : Z) (l : location) :
  0 <= m -> 0 <= shr_m (fst (shr_fexp prec emax m e l)).
Proof.
  intros H. unfold shr_fexp, shr.
  destruct (fexp prec emax (Zdigits2 m + e) - e) as [|p|p]; simpl;
    try (rewrite shr_record_of_loc_m; exact H).
  apply iter_shr_1_nonneg. now rewrite shr_record_of_loc_m.
Qed.

Lemma round_nearest_even_nonneg (m : Z) (l : location) :
  0 <= m -> 0 <= round_nearest_even m l.
Proof.
  intros H. destruct l as [|[]]; simpl; try lia.
  destruct (Z.even m); lia.
Qed.

Lemma binary_round_aux_not_nan (sx : bool) (mx ex : Z) (lx : location) :
  0 <= mx -> binary_round_aux prec emax sx mx ex lx <> S754_nan.
Proof.
  intros H. unfold binary_round_aux.
  pose proof (shr_fexp_nonneg mx ex lx H) as H1.
  destruct (shr_fexp prec emax mx ex lx) as [mrs' e']. simpl in H1.
  pose proof (shr_fexp_nonneg _ e' loc_Exact
                (round_nearest_even_nonneg _ (loc_of_shr_record mrs') H1))
    as H2.
  destruct (shr_fexp prec emax _ e' loc_Exact) as [mrs'' e'']. simpl in H2.
  destruct (shr_m mrs'') as [|p|p]; try discriminate; [|lia].
  destruct (e'' <=? emax - prec); discriminate.
Qed.

Lemma binary_round_not_nan (sx : bool) (mx : positive) (ex : Z) :
  binary_round prec emax sx mx ex <> S754_nan.
Proof.
  unfold binary_round. destruct (shl_align _ _ _) as [mz ez].
  apply binary_round_aux_not_nan. lia.
Qed.

Lemma binary_normalize_not_nan (m e : Z) (szero : bool) :
  binary_normalize prec emax m e szero <> S754_nan.
Proof.
  destruct m; simpl; try discriminate; apply binary_round_not_nan.
Qed.

End Rounding.

Lemma is_nan_false (x : float32) : x <> S754_nan -> F32.is_nan x = false.
Proof. destruct x; simpl; congruence. Qed.

Lemma finite_not_nan (x : float32) :
  F32.is_finite x = true -> F32.is_nan x = false.
Proof. destruct x; simpl; congruence. Qed.

(** The product of two finite samples is a number. *)
Lemma mul_finite_not_nan (x y : float32) :
  F32.is_finite x = true -> F32.is_finite y = true ->
  F32.is_nan (F32.mul x y) = false.
Proof.
  intros Hx Hy. destruct x, y; try discriminate; try reflexivity.
  apply is_nan_false. apply binary_round_aux_not_nan. lia.
Qed.

(** A number times a finite factor that is not zero is a number. *)
Lemma mul_factor_not_nan (x : float32) (s : bool) (m : positive) (e : Z) :
  F32.is_nan x = false ->
  F32.is_nan (F32.mul x (S754_finite s m e)) = false.
Proof.
  intros Hx. destruct x; try discriminate; try reflexivity.
  apply is_nan_false. apply binary_round_aux_not_nan. lia.
Qed.

(** A number plus a finite sample is a number. *)
Lemma add_finite_not_nan (x y : float32) :
  F32.is_nan x = false -> F32.is_finite y = true ->
  F32.is_nan (F32.add x y) = false.
Proof.
  intros Hx Hy. destruct x as [sx|sx| |sx mx ex], y as [sy|sy| |sy my ey];
    try discriminate; try reflexivity.
  - destruct sx, sy; reflexivity.
  - apply is_nan_false. apply binary_normalize_not_nan.
Qed.

(** A finite sample times zero is a zero. *)
Lemma mul_zero_r (x : float32) (s : bool) :
  F32.is_finite x = true -> F32.is_zero (F32.mul x (S754_zero s)) = true.
Proof. intros Hx. destruct x; try discriminate; reflexivity. Qed.

Lemma mul_zero_l (s : bool) (k : float32) :
  F32.is_finite k = true -> F32.is_zero (F32.mul (S754_zero s) k) = true.
Proof. intros Hk. destruct k; try discriminate; reflexivity. Qed.

(** ** Clipping *)

Lemma ltb_leb (x y : float32) : F32.ltb x y = true -> F32.leb x y = true.
Proof.
  unfold F32.ltb, F32.leb, SFltb, SFleb.
  destruct (SFcompare x y) as [[]|]; congruence.
Qed.

Lemma clip_lo_in_range : in_range CLIP_LO = true.
Proof. vm_compute. reflexivity. Qed.

Lemma clip_hi_in_range : in_range CLIP_HI = true.
Proof. vm_compute. reflexivity. Qed.

Lemma nan_not_in_range : in_range S754_nan = false.
Proof. reflexivity. Qed.

(** [np.clip] leaves a NaN as it is. *)
Lemma clip_nan (x : float32) :
  F32.is_nan x = true -> F32.clip x CLIP_LO CLIP_HI = x.
Proof. intros H. unfold F32.clip. now rewrite H, H. Qed.

(** [np.clip] brings every number into the range. *)
Lemma clip_in_range (x : float32) :
  F32.is_nan x = false -> in_range (F32.clip x CLIP_LO CLIP_HI) = true.
Proof.
  intros H. unfold F32.clip. rewrite H.
  destruct (F32.gtb x CLIP_LO) eqn:G.
  - rewrite H. destruct (F32.ltb x CLIP_HI) eqn:L.
    + unfold in_range. apply andb_true_iff. split; now apply ltb_leb.
    + apply clip_hi_in_range.
  - replace (F32.is_nan CLIP_LO) with false by reflexivity.
    replace (F32.ltb CLIP_LO CLIP_HI) with true by (vm_compute; reflexivity).
    apply clip_lo_in_range.
Qed.

Lemma clip_not_nan (x : float32) :
  F32.is_nan x = false -> F32.is_nan (F32.clip x CLIP_LO CLIP_HI) = false.
Proof.
  intros H. apply clip_in_range in H.
  destruct (F32.clip x CLIP_LO CLIP_HI); try reflexivity.
  discriminate.
Qed.

(** ** Binary32 values *)

Lemma fexp32_eq (e : Z) : fexp 24 128 e = fexp32 e.
Proof. reflexivity. Qed.

Lemma digits2_pos_size (p : positive) : digits2_pos p = Pos.size p.
Proof. induction p; simpl; congruence. Qed.

Lemma Zdigits2_log2 (m : Z) : 0 < m -> Zdigits2 m = Z.log2 m + 1.
Proof.
  destruct m as [|p|p]; try lia. intros _. simpl.
  rewrite digits2_pos_size. destruct p; simpl; lia.
Qed.

Lemma Zdigits2_bounds (m : Z) :
  0 < m -> 2 ^ (Zdigits2 m - 1) <= m < 2 ^ Zdigits2 m.
Proof.
  intros H. rewrite Zdigits2_log2 by exact H.
  replace (Z.log2 m + 1 - 1) with (Z.log2 m) by lia.
  apply Z.log2_spec, H.
Qed.

Lemma Zdigits2_pos (m : Z) : 0 < m -> 0 < Zdigits2 m.
Proof.
  intros H. rewrite Zdigits2_log2 by exact H.
  pose proof (Z.log2_nonneg m). lia.
Qed.

Lemma shr_1_div2 (mrs : shr_record) :
  0 <= shr_m mrs -> shr_m (shr_1 mrs) = shr_m mrs / 2.
Proof.
  destruct mrs as [m r s]. simpl. intros H.
  destruct m as [|p|p]; [reflexivity| |lia].
  destruct p; simpl.
  - rewrite Pos2Z.inj_xI. apply Z.div_unique with 1; lia.
  - rewrite Pos2Z.inj_xO. apply Z.div_unique with 0; lia.
  - reflexivity.
Qed.

Lemma iter_shr_1_div (p : positive) :
  forall mrs, 0 <= shr_m mrs ->
              shr_m (iter_pos shr_1 p mrs) = shr_m mrs / 2 ^ Zpos p.
Proof.
  induction p as [p IH|p IH|]; intros mrs H; simpl iter_pos.
  - rewrite IH, IH, shr_1_div2; auto using shr_1_nonneg, iter_shr_1_nonneg.
    rewrite !Z.div_div by lia. f_equal.
    replace (Z.pos p~1) with (1 + Z.pos p + Z.pos p) by lia.
    rewrite !Z.pow_add_r by lia. change (2 ^ 1) with 2. lia.
  - rewrite IH, IH; auto using iter_shr_1_nonneg.
    rewrite !Z.div_div by lia. f_equal.
    replace (Z.pos p~0) with (Z.pos p + Z.pos p) by lia.
    rewrite !Z.pow_add_r by lia. lia.
  - rewrite shr_1_div2 by exact H. reflexivity.
Qed.

(** What [shr_fexp] does to a positive mantissa: a right shift by the
    number of bits that do not fit, if there are any. *)
Lemma shr_fexp_spec (m e : Z) (l : location) :
  0 < m ->
  let n := fexp32 (Zdigits2 m + e) - e in
  shr_m (fst (shr_fexp 24 128 m e l)) = (if 0 <? n then m / 2 ^ n else m) /\
  snd (shr_fexp 24 128 m e l) = (if 0 <? n then e + n else e).
Proof.
  intros Hm n. unfold shr_fexp, shr. rewrite fexp32_eq. fold n.
  destruct n as [|p|p]; simpl; rewrite ?shr_record_of_loc_m; auto.
  split; [|reflexivity].
  rewrite iter_shr_1_div; rewrite shr_record_of_loc_m; [reflexivity | lia].
Qed.

Lemma Zdigits2_shift (m n : Z) :
  0 < m -> 0 <= n -> 0 < m / 2 ^ n ->
  Zdigits2 (m / 2 ^ n) = Zdigits2 m - n.
Proof.
  intros Hm Hn Hq. rewrite !Zdigits2_log2 by assumption.
  rewrite <- Z.shiftr_div_pow2 in * by exact Hn.
  rewrite Z.log2_shiftr by exact Hm.
  destruct (Z.le_gt_cases n (Z.log2 m)) as [Hle|Hgt]; [lia|].
  rewrite Z.shiftr_eq_0 in Hq by lia. lia.
Qed.

Lemma shift_zero (m n : Z) :
  0 < m -> 0 <= n -> m / 2 ^ n = 0 -> Zdigits2 m <= n.
Proof.
  intros Hm Hn Hq. rewrite Zdigits2_log2 by exact Hm.
  rewrite <- Z.shiftr_div_pow2 in Hq by exact Hn.
  apply Z.shiftr_eq_0_iff in Hq. lia.
Qed.

Lemma Zdigits2_succ (m m1 : Z) :
  0 < m -> m1 = m \/ m1 = m + 1 ->
  Zdigits2 m <= Zdigits2 m1 <= Zdigits2 m + 1.
Proof.
  intros Hm [->| ->]; [lia|].
  rewrite !Zdigits2_log2 by lia.
  pose proof (Z.log2_le_mono m (m + 1)).
  pose proof (Z.log2_succ_le m). unfold Z.succ in *. lia.
Qed.

(** The first shift of [binary_round_aux] leaves a mantissa that is zero or
    sits at its canonical exponent. *)
Lemma first_shift (m e : Z) (l : location) :
  0 < m -> e <= fexp32 (Zdigits2 m + e) ->
  let m' := shr_m (fst (shr_fexp 24 128 m e l)) in
  let e' := snd (shr_fexp 24 128 m e l) in
  0 <= m' /\
  (0 < m' -> fexp32 (Zdigits2 m' + e') = e') /\
  (m' = 0 -> fexp32 (1 + e') = e').
Proof.
  intros Hm He m' e'.
  destruct (shr_fexp_spec m e l Hm) as [Hm' He'].
  fold m' in Hm'. fold e' in He'.
  set (n := fexp32 (Zdigits2 m + e) - e) in *.
  destruct (0 <? n) eqn:E.
  - apply Z.ltb_lt in E.
    assert (Hq : 0 <= m / 2 ^ n) by (apply Z.div_pos; lia).
    split; [lia|]. split.
    + intros Hpos. rewrite Hm', He'.
      rewrite Zdigits2_shift by lia.
      replace (Zdigits2 m - n + (e + n)) with (Zdigits2 m + e) by lia.
      subst n. lia.
    + intros H0. rewrite Hm' in H0.
      pose proof (shift_zero m n Hm ltac:(lia) H0) as Hd.
      subst n. unfold fexp32 in *. lia.
  - apply Z.ltb_ge in E. split; [lia|]. split; [|lia].
    intros _. rewrite Hm', He'. subst n. lia.
Qed.

(** After rounding, the second shift leaves a canonical mantissa. *)
Lemma second_shift (m' e' m1 : Z) :
  0 <= m' ->
  (0 < m' -> fexp32 (Zdigits2 m' + e') = e') ->
  (m' = 0 -> fexp32 (1 + e') = e') ->
  m1 = m' \/ m1 = m' + 1 -> 0 < m1 ->
  let m'' := shr_m (fst (shr_fexp 24 128 m1 e' loc_Exact)) in
  let e'' := snd (shr_fexp 24 128 m1 e' loc_Exact) in
  0 < m'' /\ fexp32 (Zdigits2 m'' + e'') = e''.
Proof.
  intros H0 Hcan Hzero Hm1 Hpos m'' e''.
  destruct (shr_fexp_spec m1 e' loc_Exact Hpos) as [Hm'' He''].
  fold m'' in Hm''. fold e'' in He''.
  set (n := fexp32 (Zdigits2 m1 + e') - e') in *.
  assert (Hn : n = 0 \/ (n = 1 /\ 2 <= Zdigits2 m1)).
  { destruct (Z.eq_dec m' 0) as [->|Hne].
    - assert (m1 = 1) as -> by lia. subst n. simpl Zdigits2.
      rewrite (Hzero eq_refl). lia.
    - assert (Hm' : 0 < m') by lia.
      pose proof (Zdigits2_succ m' m1 Hm' Hm1).
      pose proof (Zdigits2_pos m' Hm').
      specialize (Hcan Hm'). subst n. unfold fexp32 in *. lia. }
  destruct Hn as [Hn|[Hn Hd]].
  - assert (Hm2 : m'' = m1) by (rewrite Hm'', Hn; reflexivity).
    assert (He2 : e'' = e') by (rewrite He'', Hn; reflexivity).
    rewrite Hm2, He2. split; [exact Hpos|]. subst n. lia.
  - assert (Hm2 : m'' = m1 / 2 ^ 1) by (rewrite Hm'', Hn; reflexivity).
    assert (He2 : e'' = e' + 1) by (rewrite He'', Hn; reflexivity).
    pose proof (Zdigits2_bounds m1 Hpos) as [Hlo _].
    assert (H2 : 2 <= m1).
    { eapply Z.le_trans; [|exact Hlo].
      change 2 with (2 ^ 1) at 1. apply Z.pow_le_mono_r; lia. }
    assert (Hq : 0 < m1 / 2 ^ 1).
    { change (2 ^ 1) with 2. apply Z.div_str_pos. lia. }
    rewrite Hm2, He2. split; [exact Hq|].
    rewrite Zdigits2_shift by lia.
    replace (Zdigits2 m1 - 1 + (e' + 1)) with (Zdigits2 m1 + e') by lia.
    subst n. lia.
Qed.

Lemma round_nearest_even_cases (m : Z) (l : location) :
  round_nearest_even m l = m \/ round_nearest_even m l = m + 1.
Proof. destruct l as [|[]]; simpl; auto. destruct (Z.even m); auto. Qed.

(** Rounding yields a [float32] value: canonical and within range. *)
Lemma binary_round_aux_valid (sx : bool) (mx ex : Z) (lx : location) :
  0 < mx -> ex <= fexp32 (Zdigits2 mx + ex) ->
  valid32 (binary_round_aux 24 128 sx mx ex lx).
Proof.
  intros Hm He. unfold binary_round_aux, valid32.
  destruct (first_shift mx ex lx Hm He) as (H0 & Hcan & Hzero).
  destruct (shr_fexp 24 128 mx ex lx) as [mrs' e']. simpl in H0, Hcan, Hzero.
  set (m1 := round_nearest_even (shr_m mrs') (loc_of_shr_record mrs')).
  pose proof (round_nearest_even_cases (shr_m mrs') (loc_of_shr_record mrs'))
    as Hm1. fold m1 in Hm1.
  destruct (Z.eq_dec m1 0) as [Hz|Hnz].
  - rewrite Hz. unfold shr_fexp, shr. simpl Zdigits2.
    destruct (fexp 24 128 (0 + e') - e') as [|p|p]; simpl; try reflexivity.
    rewrite iter_shr_1_div by (simpl; lia). simpl. reflexivity.
  - assert (Hpos : 0 < m1) by lia.
    destruct (second_shift (shr_m mrs') e' m1 H0 Hcan Hzero Hm1 Hpos)
      as [Hpos2 Hcan2].
    destruct (shr_fexp 24 128 m1 e' loc_Exact) as [mrs'' e''].
    simpl in Hpos2, Hcan2.
    destruct (shr_m mrs'') as [|m|m]; try lia.
    destruct (e'' <=? 128 - 24) eqn:Eb; [|reflexivity].
    simpl. unfold bounded, canonical_mantissa. rewrite Eb.
    rewrite fexp32_eq. simpl Zdigits2 in Hcan2. rewrite Hcan2.
    now rewrite Z.eqb_refl.
Qed.

Lemma valid32_finite (s : bool) (m : positive) (e : Z) :
  valid32 (S754_finite s m e) <->
  fexp32 (Zdigits2 (Zpos m) + e) = e /\ e <= 104.
Proof.
  unfold valid32, valid_binary, bounded, canonical_mantissa.
  rewrite andb_true_iff, Z.eqb_eq, Z.leb_le, fexp32_eq. reflexivity.
Qed.

Lemma Zdigits2_mul (a b : Z) :
  0 < a -> 0 < b -> Zdigits2 a + Zdigits2 b - 1 <= Zdigits2 (a * b).
Proof.
  intros Ha Hb.
  pose proof (Zdigits2_bounds a Ha) as [Hla _].
  pose proof (Zdigits2_bounds b Hb) as [Hlb _].
  pose proof (Zdigits2_pos a Ha). pose proof (Zdigits2_pos b Hb).
  assert (Hab : 0 < a * b) by lia.
  rewrite (Zdigits2_log2 (a * b)) by exact Hab.
  assert (2 ^ (Zdigits2 a + Zdigits2 b - 2) <= a * b).
  { replace (Zdigits2 a + Zdigits2 b - 2)
      with ((Zdigits2 a - 1) + (Zdigits2 b - 1)) by lia.
    rewrite Z.pow_add_r by lia. apply Z.mul_le_mono_nonneg; lia. }
  apply Z.log2_le_pow2 in H1; lia.
Qed.

(** The product of two [float32] values is a [float32] value. *)
Lemma mul_valid (x y : float32) :
  valid32 x -> valid32 y -> valid32 (F32.mul x y).
Proof.
  intros Hx Hy.
  destruct x as [sx|sx| |sx mx ex], y as [sy|sy| |sy my ey];
    try reflexivity.
  apply valid32_finite in Hx, Hy. destruct Hx as [Hx _], Hy as [Hy _].
  unfold F32.mul, SFmul. apply binary_round_aux_valid; [lia|].
  rewrite Pos2Z.inj_mul.
  pose proof (Zdigits2_mul (Zpos mx) (Zpos my) ltac:(lia) ltac:(lia)).
  pose proof (Zdigits2_pos (Zpos mx) ltac:(lia)).
  pose proof (Zdigits2_pos (Zpos my) ltac:(lia)).
  unfold fexp32 in *. lia.
Qed.

Lemma iter_xO (d m : positive) :
  Zpos (Pos.iter xO m d) = Zpos m * 2 ^ Zpos d.
Proof.
  induction d as [|d IH] using Pos.peano_ind.
  - simpl. lia.
  - rewrite Pos.iter_succ, Pos2Z.inj_xO, IH, Pos2Z.inj_succ, Z.pow_succ_r
      by lia.
    lia.
Qed.

(** Rounding any number yields a [float32] value. *)
Lemma binary_round_valid (sx : bool) (mx : positive) (ex : Z) :
  valid32 (binary_round 24 128 sx mx ex).
Proof.
  unfold binary_round, shl_align. rewrite fexp32_eq.
  change (Zpos (digits2_pos mx)) with (Zdigits2 (Zpos mx)).
  set (ex' := fexp32 (Zdigits2 (Zpos mx) + ex)).
  destruct (ex' - ex) as [|d|d] eqn:E;
    apply binary_round_aux_valid; try lia.
  rewrite iter_xO.
  rewrite (Zdigits2_log2 (Zpos mx * 2 ^ Zpos d)) by lia.
  rewrite Z.log2_mul_pow2 by lia.
  pose proof (Zdigits2_log2 (Zpos mx) ltac:(lia)).
  replace (Zpos d + Z.log2 (Zpos mx) + 1 + ex') with (Zdigits2 (Zpos mx) + ex)
    by lia.
  subst ex'. lia.
Qed.

Lemma add_valid (x y : float32) :
  valid32 x -> valid32 y -> valid32 (F32.add x y).
Proof.
  intros Hx Hy.
  destruct x as [sx|sx| |sx mx ex], y as [sy|sy| |sy my ey];
    try reflexivity; try assumption.
  - destruct sx, sy; reflexivity.
  - destruct sx, sy; reflexivity.
  - unfold F32.add, SFadd, binary_normalize.
    destruct (_ + _)%Z; try reflexivity; apply binary_round_valid.
Qed.

Lemma of_float64_valid (x : float64) : valid32 (F32.of_float64 x).
Proof. destruct x; try reflexivity. apply binary_round_valid. Qed.

Lemma clip_valid (x : float32) :
  valid32 x -> valid32 (F32.clip x CLIP_LO CLIP_HI).
Proof.
  intros H. unfold F32.clip.
  destruct (F32.is_nan x) eqn:En; [now rewrite En|].
  destruct (F32.gtb x CLIP_LO).
  - rewrite En.
    destruct (F32.ltb x CLIP_HI); [exact H | reflexivity].
  - replace (F32.is_nan CLIP_LO) with false by reflexivity.
    destruct (F32.ltb CLIP_LO CLIP_HI); reflexivity.
Qed.

Lemma mix_sample_valid (k : float32) (duck : bool) (m t : float32) :
  valid32 k -> valid32 m -> valid32 t -> valid32 (mix_sample k duck m t).
Proof.
  intros Hk Hm Ht. unfold mix_sample. apply clip_valid, add_valid; [|exact Ht].
  destruct duck.
  - apply mul_valid; [now apply mul_valid | apply of_float64_valid].
  - now apply mul_valid.
Qed.

Lemma valid32_mantissa (s : bool) (m : positive) (e : Z) :
  valid32 (S754_finite s m e) -> Zpos m < 2 ^ 24.
Proof.
  intros H. apply valid32_finite in H. destruct H as [H _].
  pose proof (Zdigits2_bounds (Zpos m) ltac:(lia)) as [_ Hhi].
  pose proof (Zdigits2_pos (Zpos m) ltac:(lia)).
  eapply Z.lt_le_trans; [exact Hhi|].
  apply Z.pow_le_mono_r; unfold fexp32 in *; lia.
Qed.

Lemma clip_bounds :
  CLIP_LO = S754_finite true 15938355 (-24) /\
  CLIP_HI = S754_finite false 15938355 (-24).
Proof. split; vm_compute; reflexivity. Qed.

(** A finite float of exponent at most [-24] with a mantissa of at most 24
    bits, as a rational. *)
Lemma to_Q_small (s : bool) (m : positive) (e : Z) :
  e <= -24 ->
  to_Q (S754_finite s m e)
  = ((if s then Zneg m else Zpos m) # Z.to_pos (2 ^ (- e)))%Q.
Proof.
  intros He. unfold to_Q.
  destruct (0 <=? e) eqn:E; [apply Z.leb_le in E; lia | reflexivity].
Qed.

(** For [float32] values the comparisons of the limiter mean what they say:
    a value in range is a rational between [-0.95] and [0.95]. *)
Lemma in_range_Q (x : float32) :
  valid32 x -> in_range x = true ->
  (- (95 # 100) <= to_Q x)%Q /\ (to_Q x <= 95 # 100)%Q.
Proof.
  intros Hv Hr. unfold in_range in Hr.
  destruct clip_bounds as [Elo Ehi]. rewrite Elo, Ehi in Hr. clear Elo Ehi.
  destruct x as [s|s| |s m e];
    [ | destruct s; discriminate | discriminate | ].
  - split; unfold Qle; simpl; lia.
  - pose proof (valid32_mantissa s m e Hv) as Hm.
    change (2 ^ 24) with 16777216 in Hm.
    apply andb_true_iff in Hr. destruct Hr as [Hlo Hhi].
    unfold F32.leb, SFleb, SFcompare in Hlo, Hhi.
    assert (He : e <= -24).
    { destruct s.
      - destruct (-24 ?= e) eqn:Ec; try discriminate.
        + apply Z.compare_eq in Ec. lia.
        + assert (-24 > e) by exact Ec. lia.
      - destruct (e ?= -24) eqn:Ec; try discriminate.
        + apply Z.compare_eq in Ec. lia.
        + assert (e < -24) by exact Ec. lia. }
    assert (Hpow : 0 < 2 ^ (- e)) by (apply Z.pow_pos_nonneg; lia).
    rewrite to_Q_small by exact He.
    unfold Qle, Qopp. cbn [Qnum Qden]. rewrite Z2Pos.id by exact Hpow.
    destruct (Z.eq_dec e (-24)) as [->|Hne].
    + change (2 ^ (- -24)) with 16777216.
      cbn [Z.compare Z.opp Pos.compare] in Hlo, Hhi.
      change (Pos.compare_cont Eq) with Pos.compare in Hlo, Hhi.
      destruct s.
      * destruct (Pos.compare_spec 15938355 m) as [E|E|E];
          try discriminate; lia.
      * destruct (Pos.compare_spec m 15938355) as [E|E|E];
          try discriminate; lia.
    + assert (H25 : 2 ^ 25 <= 2 ^ (- e)) by (apply Z.pow_le_mono_r; lia).
      change (2 ^ 25) with 33554432 in H25.
      destruct s; lia.
Qed.

Lemma duck_threshold_value :
  DUCK_THRESHOLD = S754_finite false 8589935 (-33).
Proof. vm_compute. reflexivity. Qed.

(** A [float32] of exponent above [-149] is normal: its mantissa has 24
    bits. *)
Lemma valid32_normal (s : bool) (m : positive) (e : Z) :
  valid32 (S754_finite s m e) -> -149 < e -> 2 ^ 23 <= Zpos m.
Proof.
  intros H He. apply valid32_finite in H. destruct H as [H _].
  pose proof (Zdigits2_bounds (Zpos m) ltac:(lia)) as [Hlo _].
  assert (Hd : Zdigits2 (Zpos m) = 24) by (unfold fexp32 in H; lia).
  now rewrite Hd in Hlo.
Qed.

(** For a finite [float32] value the test of the ducking step means what it
    says: the sample is loud exactly when its absolute value, a rational,
    exceeds the threshold. *)
Lemma loud_Q (t : float32) :
  valid32 t -> F32.is_finite t = true ->
  (loud t = true <-> (to_Q DUCK_THRESHOLD < Qabs (to_Q t))%Q).
Proof.
  intros Hv Hf. unfold loud. rewrite duck_threshold_value.
  destruct t as [s|s| |s m e]; try discriminate.
  - simpl. unfold Qlt. simpl. split; [discriminate | lia].
  - pose proof (valid32_mantissa s m e Hv) as Hm.
    change (2 ^ 24) with 16777216 in Hm.
    unfold F32.gtb, F32.abs, SFabs, SFltb, SFcompare.
    assert (Habs : Qabs (to_Q (S754_finite s m e))
                   = to_Q (S754_finite false m e)).
    { unfold to_Q. destruct (0 <=? e) eqn:E.
      - apply Z.leb_le in E.
        assert (0 < 2 ^ e) by (apply Z.pow_pos_nonneg; lia).
        unfold inject_Z, Qabs. f_equal. destruct s; nia.
      - destruct s; reflexivity. }
    rewrite Habs. clear Habs.
    change (to_Q (S754_finite false 8589935 (-33)))
      with (8589935 # 8589934592)%Q.
    destruct (Z.compare_spec (-33) e) as [He|He|He].
    + subst e. change (Pos.compare_cont Eq) with Pos.compare.
      change (to_Q (S754_finite false m (-33))) with (Zpos m # 8589934592)%Q.
      unfold Qlt. cbn [Qnum Qden].
      destruct (Pos.compare_spec 8589935 m) as [E|E|E]; split;
        try discriminate; try reflexivity; lia.
    + split; [intros _|reflexivity].
      pose proof (valid32_normal s m e Hv ltac:(lia)) as Hn.
      change (2 ^ 23) with 8388608 in Hn.
      unfold to_Q. destruct (0 <=? e) eqn:E.
      * apply Z.leb_le in E.
        assert (0 < 2 ^ e) by (apply Z.pow_pos_nonneg; lia).
        unfold Qlt, inject_Z. cbn [Qnum Qden]. nia.
      * apply Z.leb_gt in E.
        assert (Hp : 0 < 2 ^ (- e)) by (apply Z.pow_pos_nonneg; lia).
        assert (Hle : 2 ^ (- e) <= 2 ^ 32) by (apply Z.pow_le_mono_r; lia).
        change (2 ^ 32) with 4294967296 in Hle.
        unfold Qlt. cbn [Qnum Qden]. rewrite Z2Pos.id by exact Hp. lia.
    + split; [discriminate|]. intros Hlt. exfalso.
      rewrite to_Q_small in Hlt by lia.
      assert (Hp : 0 < 2 ^ (- e)) by (apply Z.pow_pos_nonneg; lia).
      assert (Hge : 2 ^ 34 <= 2 ^ (- e)) by (apply Z.pow_le_mono_r; lia).
      change (2 ^ 34) with 17179869184 in Hge.
      unfold Qlt in Hlt. cbn [Qnum Qden] in Hlt.
      rewrite Z2Pos.id in Hlt by exact Hp. lia.
Qed.

(** The same for every [float32] value: a sample is loud when it is an
    infinity, or a number whose absolute value exceeds the threshold; a NaN
    is never loud. *)
Lemma loud_spec (t : float32) :
  valid32 t ->
  (loud t = true <->
   (exists s, t = S754_infinity s) \/
   (F32.is_finite t = true /\ (to_Q DUCK_THRESHOLD < Qabs (to_Q t))%Q)).
Proof.
  intros Hv. destruct (F32.is_finite t) eqn:Hf.
  - rewrite (loud_Q t Hv Hf). split; [auto|].
    intros [[s ->]|[_ H]]; [discriminate | exact H].
  - destruct t as [s|s| |s m e]; try discriminate.
    + split; [eauto|]. intros _.
      unfold loud. rewrite duck_threshold_value. reflexivity.
    + split; [discriminate|]. intros [[s H]|[H _]]; discriminate.
Qed.

(** ** The mixer, frame by frame *)

Lemma combine_map_l {A B C : Type} (f : A -> C) (l : list A) (l' : list B) :
  combine (map f l) l' = map (fun p => (f (fst p), snd p)) (combine l l').
Proof.
  revert l'. induction l as [|a l IH]; intros [|b l']; simpl; auto.
  now rewrite IH.
Qed.

(** The array expressions of [audio_callback] compute [mix_sample] at every
    position, with one ducking decision for the whole block. *)
Lemma mix_frames (vol : float64) (music tts : Chunk) :
  mix vol music tts
  = map (fun p => map2_frame
                    (mix_sample (F32.of_float64 vol) (tts_active tts))
                    (fst p) (snd p))
        (combine music tts).
Proof.
  unfold mix, media_path, clip_block, add_blocks, scale.
  destruct (tts_active tts); rewrite ?map_map, !combine_map_l, !map_map;
    apply map_ext; intros [[m1 m2] [t1 t2]]; reflexivity.
Qed.

Lemma mix_length (vol : float64) (music tts : Chunk) :
  length music = length tts -> length (mix vol music tts) = length music.
Proof.
  intros H. rewrite mix_frames, length_map, length_combine. lia.
Qed.

(** Every sample that comes out was made by [mix_sample] from a media
    sample and an announcement sample. *)
Lemma mix_samples (vol : float64) (music tts : Chunk) (x : float32) :
  In x (samples (mix vol music tts)) ->
  exists m t,
    In m (samples music) /\ In t (samples tts) /\
    x = mix_sample (F32.of_float64 vol) (tts_active tts) m t.
Proof.
  rewrite mix_frames. generalize (tts_active tts) as duck. intros duck.
  revert tts. induction music as [|[m1 m2] music IH]; intros [|[t1 t2] tts];
    simpl; try contradiction.
  intros [<-|[<-|H]].
  - exists m1, t1. auto.
  - exists m2, t2. auto.
  - destruct (IH tts H) as (m & t & Hm & Ht & E). exists m, t. auto.
Qed.

Lemma tts_active_spec (tts : Chunk) :
  tts_active tts = true <-> exists t, In t (samples tts) /\ loud t = true.
Proof.
  unfold tts_active. rewrite existsb_exists. split.
  - intros ([t1 t2] & Hin & H). apply orb_true_iff in H. simpl in H.
    destruct H as [H|H]; [exists t1 | exists t2]; split; auto;
      unfold samples; apply in_flat_map; exists (t1, t2); simpl; auto.
  - intros (t & Hin & H). unfold samples in Hin. apply in_flat_map in Hin.
    destruct Hin as (fr & Hfr & [<-|[<-|[]]]); exists fr; split; auto;
      rewrite H; auto using orb_true_r.
Qed.

(** ** The callback *)

Lemma read_or_silence_total (frames : Z) (ob : option AudioBuffer.t) :
  0 <= frames ->
  exists block ob',
    read_or_silence frames ob = Some (block, ob') /\
    length block = Z.to_nat frames.
Proof.
  intros H. destruct ob as [b|]; simpl.
  - destruct (read_total frames b H) as (block & b' & -> & Hl & _).
    eauto.
  - destruct (frames <? 0) eqn:E; [apply Z.ltb_lt in E; lia|].
    eexists _, _. split; [reflexivity | apply zeros_length].
Qed.

(** The callback returns for every frame count that is not negative: it
    reads a block of that many frames from each buffer and emits their
    mix. *)
Lemma audio_callback_total (frames : Z) (s : State.t) :
  0 <= frames ->
  exists music tts mb tb,
    read_or_silence frames (State.music_buffer s) = Some (music, mb) /\
    read_or_silence frames (State.tts_buffer s) = Some (tts, tb) /\
    length music = Z.to_nat frames /\
    length tts = Z.to_nat frames /\
    audio_callback frames s
      = Some (mix (State.volume s) music tts,
              State.set_tts_buffer tb (State.set_music_buffer mb s)).
Proof.
  intros H. unfold audio_callback.
  destruct (read_or_silence_total frames (State.music_buffer s) H)
    as (music & mb & Hm & Hlm).
  destruct (read_or_silence_total frames (State.tts_buffer s) H)
    as (tts & tb & Ht & Hlt).
  exists music, tts, mb, tb. rewrite Hm, Ht. auto.
Qed.

Lemma audio_callback_inv (frames : Z) (s s' : State.t) (out : Chunk) :
  audio_callback frames s = Some (out, s') ->
  exists music tts mb tb,
    read_or_silence frames (State.music_buffer s) = Some (music, mb) /\
    read_or_silence frames (State.tts_buffer s) = Some (tts, tb) /\
    out = mix (State.volume s) music tts /\
    s' = State.set_tts_buffer tb (State.set_music_buffer mb s).
Proof.
  unfold audio_callback. intros H.
  destruct (read_or_silence frames (State.music_buffer s)) as [[music mb]|];
    [|discriminate].
  destruct (read_or_silence frames (State.tts_buffer s)) as [[tts tb]|];
    [|discriminate].
  injection H as <- <-. exists music, tts, mb, tb. auto.
Qed.

(** A block that [read] returns holds stored frames and silence only. *)
Lemma read_block_frames (n : Z) (b b' : AudioBuffer.t) (block : Chunk) :
  AudioBuffer.read n b = Some (block, b') ->
  forall fr, In fr block -> In fr (AudioBuffer.frames_of b) \/ fr = silence.
Proof.
  unfold AudioBuffer.read. destruct (n <? 0); [discriminate|].
  destruct (is_empty (AudioBuffer.buffer b)
            || (AudioBuffer.current_size b =? 0)).
  - intros H fr Hin. injection H as <- _. right.
    now apply repeat_spec in Hin.
  - intros H fr Hin. injection H as <- _.
    destruct (read_loop_spec (Z.to_nat n) (length (AudioBuffer.buffer b))
                (AudioBuffer.mk_read (zeros (Z.to_nat n)) 0
                   (AudioBuffer.buffer b) (AudioBuffer.current_size b)) [])
      as (Hr & _); simpl; auto; try lia.
    { now rewrite Nat.sub_0_r. }
    simpl in Hr. rewrite Hr in Hin.
    apply in_app_or in Hin. destruct Hin as [Hin|Hin].
    + left. unfold AudioBuffer.frames_of.
      rewrite <- (firstn_skipn (Z.to_nat n - 0) (concat (AudioBuffer.buffer b))).
      apply in_or_app. now left.
    + right. now apply repeat_spec in Hin.
Qed.

Lemma read_or_silence_samples
    (P : float32 -> Prop) (frames : Z) (ob ob' : option AudioBuffer.t)
    (block : Chunk) :
  P zero32 ->
  buffer_samples P ob ->
  read_or_silence frames ob = Some (block, ob') ->
  forall x, In x (samples block) -> P x.
Proof.
  intros Hzero Hall Hread x Hx. unfold samples in Hx. apply in_flat_map in Hx.
  destruct Hx as (fr & Hfr & Hx).
  assert (Hsrc : (exists b, ob = Some b /\ In fr (AudioBuffer.frames_of b))
                 \/ fr = silence).
  { destruct ob as [b|]; simpl in Hread.
    - destruct (AudioBuffer.read frames b) as [[blk b1]|] eqn:E;
        [|discriminate].
      injection Hread as <- _.
      destruct (read_block_frames _ _ _ _ E fr Hfr); eauto.
    - destruct (frames <? 0); [discriminate|]. injection Hread as <- _.
      right. now apply repeat_spec in Hfr. }
  destruct Hsrc as [(b & -> & Hin) | ->].
  - simpl in Hall. rewrite Forall_forall in Hall. apply Hall.
    unfold samples. apply in_flat_map. eauto.
  - destruct Hx as [<-|[<-|[]]]; exact Hzero.
Qed.

Lemma read_or_silence_finite
    (frames : Z) (ob ob' : option AudioBuffer.t) (block : Chunk) :
  finite_buffer ob ->
  read_or_silence frames ob = Some (block, ob') ->
  forall x, In x (samples block) -> F32.is_finite x = true.
Proof. apply read_or_silence_samples. reflexivity. Qed.

Lemma read_or_silence_valid
    (frames : Z) (ob ob' : option AudioBuffer.t) (block : Chunk) :
  float32_buffer ob ->
  read_or_silence frames ob = Some (block, ob') ->
  forall x, In x (samples block) -> valid32 x.
Proof. apply read_or_silence_samples. reflexivity. Qed.

(** ** The mixer: the stated properties *)

(** C3: in every invocation the callback takes one ducking decision for the
    whole block.  If some sample of the announcement block read has an
    absolute value above the threshold, every media sample is multiplied by
    the volume and then by the ducking factor before it is added to the
    announcement sample and clipped; if there is no such sample, every media
    sample is multiplied by the volume only.  Threshold and factor are the
    literals [0.001] and [0.2] as [float32]; on [float32] values the test
    against the threshold is the comparison of the rationals. *)
Theorem ducking_is_per_block (frames : Z) (s : State.t) :
  0 <= frames ->
  exists music tts mb tb,
    read_or_silence frames (State.music_buffer s) = Some (music, mb) /\
    read_or_silence frames (State.tts_buffer s) = Some (tts, tb) /\
    audio_callback frames s
      = Some (mix (State.volume s) music tts,
              State.set_tts_buffer tb (State.set_music_buffer mb s)) /\
    let k := F32.of_float64 (State.volume s) in
    let some_loud :=
      exists t, In t (samples tts) /\
                F32.gtb (F32.abs t) DUCK_THRESHOLD = true in
    (some_loud ->
     mix (State.volume s) music tts
     = map (fun p =>
              map2_frame
                (fun m t =>
                   F32.clip (F32.add (F32.mul (F32.mul m k) DUCK_FACTOR) t)
                            CLIP_LO CLIP_HI)
                (fst p) (snd p))
           (combine music tts)) /\
    (~ some_loud ->
     mix (State.volume s) music tts
     = map (fun p =>
              map2_frame
                (fun m t => F32.clip (F32.add (F32.mul m k) t) CLIP_LO CLIP_HI)
                (fst p) (snd p))
           (combine music tts)) /\
    DUCK_THRESHOLD = S754_finite false 8589935 (-33) /\
    DUCK_FACTOR = S754_finite false 13421773 (-26) /\
    near (1 # 10000000000) DUCK_THRESHOLD (1 # 1000) = true /\
    near (1 # 100000000) DUCK_FACTOR (2 # 10) = true /\
    (float32_buffer (State.tts_buffer s) ->
     forall t, In t (samples tts) ->
       (F32.gtb (F32.abs t) DUCK_THRESHOLD = true <->
        (exists sg, t = S754_infinity sg) \/
        (F32.is_finite t = true /\
         (to_Q DUCK_THRESHOLD < Qabs (to_Q t))%Q))).
Proof.
  intros H.
  destruct (audio_callback_total frames s H)
    as (music & tts & mb & tb & Hm & Ht & _ & _ & Hcb).
  exists music, tts, mb, tb.
  split; [exact Hm|]. split; [exact Ht|]. split; [exact Hcb|].
  split; [|split; [|split; [|split; [|split; [|split]]]]].
  - intros Hloud. apply tts_active_spec in Hloud.
    rewrite mix_frames, Hloud. reflexivity.
  - intros Hquiet. rewrite mix_frames.
    destruct (tts_active tts) eqn:E; [|reflexivity].
    apply tts_active_spec in E. contradiction.
  - apply duck_threshold_value.
  - vm_compute. reflexivity.
  - vm_compute. reflexivity.
  - vm_compute. reflexivity.
  - intros Hv t Hin. apply (loud_spec t).
    exact (read_or_silence_valid frames _ _ tts Hv Ht t Hin).
Qed.

(** C4, as stated, fails: a NaN stored in the media buffer comes out of the
    callback as a NaN, which is not inside the range. *)
Lemma callback_emits_nan :
  exists s',
    audio_callback 1 nan_state = Some ([(S754_nan, S754_nan)], s') /\
    In S754_nan (samples [(S754_nan, S754_nan)]) /\
    in_range S754_nan = false.
Proof.
  eexists. split; [vm_compute; reflexivity|]. split; [now left | reflexivity].
Qed.

(** A sample of the mix is a NaN only if the sum it was clipped from is. *)
Lemma mix_sample_in_range (k : float32) (duck : bool) (m t : float32) :
  F32.is_nan (mix_sample k duck m t) = false ->
  in_range (mix_sample k duck m t) = true.
Proof.
  unfold mix_sample. intros H.
  set (sum := F32.add _ t) in *.
  destruct (F32.is_nan sum) eqn:E.
  - rewrite (clip_nan sum E) in H. congruence.
  - now apply clip_in_range.
Qed.

Lemma mix_sample_finite (k : float32) (duck : bool) (m t : float32) :
  F32.is_finite k = true -> F32.is_finite m = true ->
  F32.is_finite t = true ->
  in_range (mix_sample k duck m t) = true.
Proof.
  intros Hk Hm Ht. unfold mix_sample. apply clip_in_range.
  apply add_finite_not_nan; [|exact Ht].
  destruct duck.
  - apply mul_factor_not_nan. now apply mul_finite_not_nan.
  - now apply mul_finite_not_nan.
Qed.

(** C4, amended: every sample the callback emits that is not a NaN lies in
    the range [[-0.95, 0.95]], the clamp being the last step after volume,
    ducking and sum; when both buffers hold finite samples only and the
    volume factor is finite, every sample emitted lies in that range; and
    when the buffers hold [float32] values, so does the output, and each
    emitted number is a rational between [-0.95] and [0.95]. *)
Theorem callback_output_in_range
    (frames : Z) (s s' : State.t) (out : Chunk) :
  audio_callback frames s = Some (out, s') ->
  (forall x, In x (samples out) ->
             F32.is_nan x = false -> in_range x = true) /\
  (finite_buffer (State.music_buffer s) ->
   finite_buffer (State.tts_buffer s) ->
   F32.is_finite (F32.of_float64 (State.volume s)) = true ->
   forall x, In x (samples out) -> in_range x = true) /\
  (float32_buffer (State.music_buffer s) ->
   float32_buffer (State.tts_buffer s) ->
   forall x, In x (samples out) ->
             valid32 x /\
             (F32.is_nan x = false ->
              (- (95 # 100) <= to_Q x)%Q /\ (to_Q x <= 95 # 100)%Q)).
Proof.
  intros Hcb.
  destruct (audio_callback_inv frames s s' out Hcb)
    as (music & tts & mb & tb & Hm & Ht & -> & _).
  split; [|split].
  - intros x Hx Hnan.
    destruct (mix_samples _ _ _ _ Hx) as (m & t & _ & _ & ->).
    now apply mix_sample_in_range.
  - intros Hfm Hft Hk x Hx.
    destruct (mix_samples _ _ _ _ Hx) as (m & t & Him & Hit & ->).
    apply mix_sample_finite; auto.
    + exact (read_or_silence_finite frames _ _ music Hfm Hm m Him).
    + exact (read_or_silence_finite frames _ _ tts Hft Ht t Hit).
  - intros Hvm Hvt x Hx.
    destruct (mix_samples _ _ _ _ Hx) as (m & t & Him & Hit & ->).
    assert (Hv : valid32 (mix_sample (F32.of_float64 (State.volume s))
                            (tts_active tts) m t)).
    { apply mix_sample_valid.
      - apply of_float64_valid.
      - exact (read_or_silence_valid frames _ _ music Hvm Hm m Him).
      - exact (read_or_silence_valid frames _ _ tts Hvt Ht t Hit). }
    split; [exact Hv|]. intros Hnan.
    apply in_range_Q; [exact Hv|]. now apply mix_sample_in_range.
Qed.

Lemma demo_state_finite :
  finite_buffer (State.music_buffer demo_state) /\
  finite_buffer (State.tts_buffer demo_state) /\
  F32.is_finite (F32.of_float64 (State.volume demo_state)) = true /\
  float32_buffer (State.music_buffer demo_state) /\
  float32_buffer (State.tts_buffer demo_state).
Proof. repeat split; repeat constructor. Qed.

Lemma callback_output_in_range_witness :
  exists out s',
    audio_callback 2 demo_state = Some (out, s') /\
    (forall x, In x (samples out) ->
               F32.is_nan x = false -> in_range x = true) /\
    (forall x, In x (samples out) -> in_range x = true) /\
    (forall x, In x (samples out) ->
               valid32 x /\
               (F32.is_nan x = false ->
                (- (95 # 100) <= to_Q x)%Q /\ (to_Q x <= 95 # 100)%Q)).
Proof.
  eexists _, _.
  assert (H : audio_callback 2 demo_state = Some (_, _))
    by (vm_compute; reflexivity).
  split; [exact H|].
  destruct (callback_output_in_range 2 demo_state _ _ H) as (Hnum & Hfin & Hq).
  split; [exact Hnum|]. split.
  - apply Hfin; repeat constructor.
  - apply Hq; repeat constructor.
Defined.

Lemma ducking_is_per_block_witness :
  exists music tts mb tb,
    audio_callback 2 demo_state
      = Some (mix (State.volume demo_state) music tts,
              State.set_tts_buffer tb (State.set_music_buffer mb demo_state)) /\
    tts_active tts = true.
Proof.
  destruct (ducking_is_per_block 2 demo_state)
    as (music & tts & mb & tb & Hm & Ht & Hcb & _); [lia|].
  exists music, tts, mb, tb. split; [exact Hcb|].
  vm_compute in Ht. injection Ht as <- _. reflexivity.
Defined.

(** ** The ring buffer at concrete inputs *)

Lemma writes_keep_newest_chunks_witness :
  let b0 := AudioBuffer.init 4 in
  let ws := [[tone 1; tone 2; tone 3]; [tone 4; tone 5; tone 6]] in
  let b := AudioBuffer.writes (firstn 2 ws) b0 in
  AudioBuffer.wf b /\
  AudioBuffer.current_size b <= AudioBuffer.maxsize b /\
  (exists old,
      AudioBuffer.buffer b0 ++ filter nonempty (firstn 2 ws)
        = old ++ AudioBuffer.buffer b /\
      (forall olds c, old = olds ++ [c] ->
         len c + AudioBuffer.current_size b > AudioBuffer.maxsize b)) /\
  AudioBuffer.frames_of b
    = most_recent (AudioBuffer.current_size b)
        (AudioBuffer.frames_of b0 ++ concat (firstn 2 ws)).
Proof.
  apply (writes_keep_newest_chunks (AudioBuffer.init 4)
           [[tone 1; tone 2; tone 3]; [tone 4; tone 5; tone 6]] 2).
  - reflexivity.
  - simpl. lia.
  - repeat constructor; unfold len; simpl; lia.
Defined.

Lemma write_oversize_accepted_witness :
  let data := [tone 1; tone 2; tone 3] in
  let b := AudioBuffer.write [tone 4; tone 5] (AudioBuffer.init 2) in
  AudioBuffer.write data b = AudioBuffer.mk [data] 2 3 /\
  AudioBuffer.frames_of (AudioBuffer.write data b) = data /\
  AudioBuffer.available_frames (AudioBuffer.write data b) = 3 /\
  AudioBuffer.available_frames (AudioBuffer.write data b) > 2.
Proof.
  apply (write_oversize_accepted [tone 1; tone 2; tone 3]
           (AudioBuffer.write [tone 4; tone 5] (AudioBuffer.init 2))).
  - reflexivity.
  - simpl. lia.
  - unfold len. simpl. lia.
Defined.

Lemma read_pads_with_silence_witness :
  let b := AudioBuffer.write [tone 1; tone 2; tone 3] (AudioBuffer.init 8) in
  (exists b',
      AudioBuffer.read 5 b
        = Some ([tone 1; tone 2; tone 3; silence; silence], b') /\
      AudioBuffer.available_frames b' = 0) /\
  AudioBuffer.read 2 b
    = Some ([tone 1; tone 2], AudioBuffer.mk [[tone 3]] 8 1).
Proof.
  intros b. destruct read_pads_with_silence as (Hpad & _ & Hsplit). split.
  - destruct (Hpad 5 b ltac:(reflexivity) ltac:(vm_compute; reflexivity))
      as (block & b' & Hr & -> & _ & _ & H0).
    exists b'. split; [exact Hr | exact H0].
  - apply (Hsplit 2 [tone 1; tone 2; tone 3] [] 8 3).
    + unfold len. simpl. lia.
    + lia.
Defined.

Lemma read_consumes_front_witness :
  let b := AudioBuffer.write [tone 1; tone 2; tone 3] (AudioBuffer.init 8) in
  exists block b',
    AudioBuffer.read 2 b = Some (block, b') /\
    AudioBuffer.frames_of b' = [tone 3] /\
    AudioBuffer.current_size b' = 1.
Proof.
  intros b.
  destruct (read_consumes_front 2 b ltac:(lia) ltac:(reflexivity))
    as (block & b' & Hr & _ & Hf & Hs & _).
  exists block, b'. split; [exact Hr|]. split; [exact Hf | exact Hs].
Defined.

(** ** The volume *)

Lemma levels_spec (level : Z) : 0 <= level <= 200 -> In level levels.
Proof.
  intros H. unfold levels. apply in_map_iff. exists (Z.to_nat level).
  split; [lia|]. apply in_seq. lia.
Qed.

(** For each accepted level the stored volume and the factor the mixer
    multiplies with are finite and within [2^-53] and [2^-24] of
    [level / 100]. *)
Lemma volume_of_accurate :
  forallb (fun level =>
             near (1 # 9007199254740992) (volume_of level) (level # 100)
             && near (1 # 16777216) (F32.of_float64 (volume_of level))
                  (level # 100))
          levels = true.
Proof. vm_compute. reflexivity. Qed.

Lemma samples_scale (k : float32) (block : Chunk) :
  samples (scale k block) = map (fun x => F32.mul x k) (samples block).
Proof.
  induction block as [|[l r] block IH]; simpl; [reflexivity|].
  now rewrite <- IH.
Qed.

(** At volume zero every finite media sample becomes a zero, ducked or
    not. *)
Lemma media_path_mute (music tts : Chunk) :
  Forall (fun x => F32.is_finite x = true) (samples music) ->
  Forall (fun x => F32.is_zero x = true)
         (samples (media_path (volume_of 0) music tts)).
Proof.
  intros Hfin. unfold media_path.
  change (F32.of_float64 (volume_of 0)) with (S754_zero false).
  assert (Hz : Forall (fun x => F32.is_zero x = true)
                      (samples (scale (S754_zero false) music))).
  { rewrite samples_scale. apply Forall_map.
    eapply Forall_impl; [|exact Hfin]. intros x Hx. now apply mul_zero_r. }
  destruct (tts_active tts); [|exact Hz].
  rewrite samples_scale. apply Forall_map.
  eapply Forall_impl; [|exact Hz]. intros x Hx.
  destruct x; try discriminate. reflexivity.
Qed.

(** C7, as stated, fails in its part on silence: at volume zero an infinite
    media sample does not become silence, it becomes a NaN ([inf * 0]), in
    the media path and in what the callback emits. *)
Lemma zero_volume_keeps_non_finite :
  let s0 := State.set_music_buffer
              (Some (AudioBuffer.write [inf_frame] AudioBuffer.default))
              demo_state in
  let s := fst (volume 0 s0) in
  State.volume s = S754_zero false /\
  media_path (State.volume s) [inf_frame] [silence] = [(S754_nan, S754_nan)] /\
  exists s', audio_callback 1 s = Some ([(S754_nan, S754_nan)], s').
Proof.
  repeat split; try (vm_compute; reflexivity).
  eexists. vm_compute. reflexivity.
Qed.

(** C7, amended: for a level from 0 to 200, [volume] stores the double
    [level / 100.0], within [2^-53] of [level / 100], and the mixer
    multiplies every media sample by that volume rounded to [float32],
    within [2^-24] of [level / 100]; at 150 that factor is exactly 1.5; at 0 it
    is zero, which turns every finite media sample into a zero; for any
    other level the command is refused and the state is unchanged. *)
Theorem volume_sets_scale_factor (level : Z) (s : State.t) :
  (0 <= level <= 200 ->
   volume level s = (State.set_volume (volume_of level) s, VolumeSet level) /\
   near (1 # 9007199254740992) (volume_of level) (level # 100) = true /\
   near (1 # 16777216) (F32.of_float64 (volume_of level)) (level # 100)
     = true /\
   forall music tts,
     media_path (State.volume (fst (volume level s))) music tts
     = let scaled := scale (F32.of_float64 (volume_of level)) music in
       if tts_active tts then scale DUCK_FACTOR scaled else scaled) /\
  (level < 0 \/ 200 < level ->
   volume level s = (s, VolumeOutOfRange) /\
   State.volume (fst (volume level s)) = State.volume s) /\
  F32.of_float64 (volume_of 150) = S754_finite false 12582912 (-23) /\
  (to_Q (F32.of_float64 (volume_of 150)) == 3 # 2)%Q /\
  volume_of 0 = S754_zero false /\
  (forall music tts,
     Forall (fun x => F32.is_finite x = true) (samples music) ->
     Forall (fun x => F32.is_zero x = true)
            (samples (media_path (volume_of 0) music tts))).
Proof.
  split; [|split; [|split; [|split; [|split]]]].
  - intros Hin.
    assert (Hv : volume level s
                 = (State.set_volume (volume_of level) s, VolumeSet level)).
    { unfold volume.
      destruct (level <? 0) eqn:E1; [apply Z.ltb_lt in E1; lia|].
      destruct (level >? 200) eqn:E2; [apply Z.gtb_lt in E2; lia|].
      reflexivity. }
    pose proof volume_of_accurate as Hacc.
    rewrite forallb_forall in Hacc.
    specialize (Hacc level (levels_spec level Hin)).
    apply andb_true_iff in Hacc. destruct Hacc as [H64 H32].
    rewrite Hv. repeat split; auto.
  - intros Hout. unfold volume.
    destruct Hout as [Hlo|Hhi].
    + apply Z.ltb_lt in Hlo. rewrite Hlo. simpl. auto.
    + apply Z.gtb_lt in Hhi. rewrite Hhi, orb_true_r. simpl. auto.
  - vm_compute. reflexivity.
  - vm_compute. reflexivity.
  - vm_compute. reflexivity.
  - intros music tts. apply media_path_mute.
Qed.

Lemma volume_sets_scale_factor_witness :
  volume 150 demo_state
    = (State.set_volume (volume_of 150) demo_state, VolumeSet 150) /\
  volume 201 demo_state = (demo_state, VolumeOutOfRange).
Proof.
  destruct (volume_sets_scale_factor 150 demo_state) as (Hin & _).
  destruct (volume_sets_scale_factor 201 demo_state) as (_ & Hout & _).
  split.
  - apply Hin. lia.
  - apply Hout. lia.
Defined.

(** ** Commands and callbacks that run during a suspension *)

Lemma read_empty_unchanged (frames : Z) (b : AudioBuffer.t) :
  AudioBuffer.current_size b = 0 -> 0 <= frames ->
  AudioBuffer.read frames b = Some (zeros (Z.to_nat frames), b).
Proof.
  intros H0 Hf. unfold AudioBuffer.read.
  destruct (frames <? 0) eqn:E; [apply Z.ltb_lt in E; lia|].
  now rewrite H0, Z.eqb_refl, orb_true_r.
Qed.

(** No command and no callback fills the media buffer: once it is empty it
    stays as it is while [play_youtube] is suspended. *)
Lemma apply_action_keeps_empty (a : action) (s : State.t) (b : AudioBuffer.t) :
  State.music_buffer s = Some b -> AudioBuffer.current_size b = 0 ->
  State.music_buffer (apply_action a s) = Some b.
Proof.
  intros Hb H0. destruct a; simpl.
  - unfold skip. now destruct (truthy _).
  - unfold pause. now destruct (truthy _).
  - unfold resume. now destruct (State.paused s).
  - unfold volume. now destruct (_ || _).
  - destruct (audio_callback frames s) as [[out s']|] eqn:E; [|exact Hb].
    destruct (audio_callback_inv _ _ _ _ E)
      as (music & tts & mb & tb & Hm & _ & _ & ->).
    simpl. rewrite Hb in Hm. simpl in Hm.
    destruct (Z.ltb_spec frames 0) as [Hneg|Hpos].
    + unfold AudioBuffer.read in Hm. apply Z.ltb_lt in Hneg.
      rewrite Hneg in Hm. discriminate.
    + rewrite (read_empty_unchanged frames b H0 Hpos) in Hm.
      now injection Hm as _ <-.
Qed.

Lemma apply_actions_keep_empty
    (l : list action) (s : State.t) (b : AudioBuffer.t) :
  State.music_buffer s = Some b -> AudioBuffer.current_size b = 0 ->
  State.music_buffer (apply_actions l s) = Some b.
Proof.
  revert s. induction l as [|a l IH]; intros s Hb H0; [exact Hb|].
  simpl. apply IH; [|exact H0]. now apply apply_action_keeps_empty.
Qed.

(** The media buffer, once created, is never removed. *)
Lemma apply_action_keeps_buffer (a : action) (s : State.t) :
  is_some (State.music_buffer s) = true ->
  is_some (State.music_buffer (apply_action a s)) = true.
Proof.
  intros Hb. destruct a; simpl.
  - unfold skip. now destruct (truthy (State.current_track s)).
  - unfold pause. now destruct (truthy (State.current_track s)).
  - unfold resume. now destruct (State.paused s).
  - unfold volume. now destruct (_ || _).
  - destruct (audio_callback frames s) as [[out s']|] eqn:E; [|exact Hb].
    destruct (audio_callback_inv _ _ _ _ E)
      as (music & tts & mb & tb & Hm & _ & _ & ->).
    simpl. destruct (State.music_buffer s) as [b|]; [|discriminate].
    simpl in Hm. destruct (AudioBuffer.read frames b) as [[blk b']|];
      [|discriminate].
    now injection Hm as _ <-.
Qed.

Lemma apply_actions_keep_buffer (l : list action) (s : State.t) :
  is_some (State.music_buffer s) = true ->
  is_some (State.music_buffer (apply_actions l s)) = true.
Proof.
  revert s. induction l as [|a l IH]; intros s Hb; [exact Hb|].
  simpl. apply IH. now apply apply_action_keeps_buffer.
Qed.

(** ** Pause and resume *)

(** C9: a second [pause] right after a first one changes nothing, in the
    state or in the reply, and while a track plays, which the command reads
    off the truth value of [current_track], the state after either is the
    paused one; [resume] on a state that is not paused leaves the state as
    it is.  When [current_track] is [None] or the empty string, [pause]
    answers that nothing is playing and leaves the state as it is. *)
Theorem pause_idempotent_resume_noop (s : State.t) :
  pause (fst (pause s)) = pause s /\
  (truthy (State.current_track s) = true ->
   State.paused (fst (pause s)) = true /\
   State.paused (fst (pause (fst (pause s)))) = true /\
   snd (pause (fst (pause s))) = Paused) /\
  (State.paused s = false ->
   resume s = (s, NothingPaused) /\ fst (resume s) = s) /\
  (truthy (State.current_track s) = false ->
   pause s = (s, NothingPlaying)).
Proof.
  unfold pause, resume. repeat split.
  - destruct (truthy (State.current_track s)) eqn:E; simpl; rewrite E;
      reflexivity.
  - now rewrite H.
  - rewrite H. simpl. now rewrite H.
  - rewrite H. simpl. now rewrite H.
  - now rewrite H.
  - now rewrite H.
  - intros Hnone. now rewrite Hnone.
Qed.

Lemma pause_idempotent_resume_noop_witness :
  let s := State.set_current_track (Some "track"%string) demo_state in
  State.paused (fst (pause (fst (pause s)))) = true /\
  resume s = (s, NothingPaused).
Proof.
  intros s.
  destruct (pause_idempotent_resume_noop s) as (_ & Hp & Hr & _). split.
  - apply Hp. reflexivity.
  - apply Hr. reflexivity.
Defined.

(** ** Skip *)

Lemma with_st_trace (f : State.t -> State.t) (w : world) :
  trace (with_st f w) = trace w /\
  yt_status (with_st f w) = yt_status w /\
  ffmpeg_status (with_st f w) = ffmpeg_status w /\
  st (with_st f w) = f (st w).
Proof. destruct w. repeat split. Qed.

(** A wait with its timeout leaves a signalled process exited or killed,
    and emits nothing but a kill. *)
Lemma wait_or_kill_stops (p : proc) (returned : bool) (w : world) :
  status_of p w <> NotStarted ->
  let w' := wait_or_kill p returned w in
  stopped (status_of p w') = true /\
  st w' = st w /\
  (trace w' = trace w \/ trace w' = trace w ++ [Kill p]) /\
  (forall q, q <> p -> status_of q w' = status_of q w).
Proof.
  intros Hs. unfold wait_or_kill.
  destruct (stopped (status_of p w)) eqn:E.
  - repeat split; auto.
  - destruct returned, p, w as [s y f t]; simpl in *;
      (split; [reflexivity|]); (split; [reflexivity|]); (split; [auto|]);
      intros [] Hq; try congruence; reflexivity.
Qed.

Lemma terminate_both_spec (w : world) :
  st (terminate_both w) = st w /\
  trace (terminate_both w)
    = trace w ++ signals (yt_status w) (ffmpeg_status w) /\
  (yt_status w <> NotStarted -> yt_status (terminate_both w) <> NotStarted) /\
  (ffmpeg_status w <> NotStarted ->
   ffmpeg_status (terminate_both w) <> NotStarted).
Proof.
  destruct w as [s y f t].
  unfold terminate_both, terminate, signals, emit, set_status, status_of.
  simpl.
  destruct f, y; simpl; rewrite <- ?app_assoc, ?app_nil_r; simpl;
    repeat split; congruence.
Qed.

(** The skip branch, from the poll of the flag to the [break]. *)
Lemma skip_branch (w : world) (b : AudioBuffer.t) (i : await_in) :
  State.skip (st w) = true ->
  State.music_buffer (st w) = Some b ->
  yt_status w <> NotStarted -> ffmpeg_status w <> NotStarted ->
  exists w1 w2 b',
    loop_top w = (AwaitPipeAfterCancel, w1) /\
    State.skip (st w1) = false /\
    step AwaitPipeAfterCancel i w1 = (AwaitPipe, w2) /\
    trace w2 = trace w ++ [PipeCancel]
                 ++ signals (yt_status w) (ffmpeg_status w)
                 ++ [BufferClear; Log TrackSkipped] /\
    State.music_buffer (st w2) = Some (AudioBuffer.clear b') /\
    yt_status w2 <> NotStarted /\ ffmpeg_status w2 <> NotStarted.
Proof.
  intros Hskip Hbuf Hyt Hff.
  set (w1 := emit PipeCancel (with_st (State.set_skip false) w)).
  set (wa := with_st (apply_actions (during i)) w1).
  assert (Hkeep : is_some (State.music_buffer (st wa)) = true).
  { subst wa w1. destruct w as [s y f t]. simpl in *.
    apply apply_actions_keep_buffer. simpl. now rewrite Hbuf. }
  destruct (terminate_both_spec wa) as (Hst & Htr & Hy & Hf).
  destruct (State.music_buffer (st wa)) as [b'|] eqn:Eb; [|discriminate].
  exists w1, (emit (Log TrackSkipped) (clear_music_buffer (terminate_both wa))),
         b'.
  split; [unfold loop_top; now rewrite Hskip|].
  split; [subst w1; now destruct w|].
  split; [reflexivity|].
  unfold clear_music_buffer. rewrite Hst, Eb.
  assert (Hwa : trace wa = trace w ++ [PipeCancel]
                /\ yt_status wa = yt_status w
                /\ ffmpeg_status wa = ffmpeg_status w)
    by (subst wa w1; destruct w; repeat split).
  destruct Hwa as (Hta & Hya & Hfa). rewrite Hya, Hfa, Hta in *.
  destruct (terminate_both wa) as [s2 y2 f2 t2]. simpl in *. subst t2.
  repeat rewrite <- app_assoc. simpl. repeat split; auto.
Qed.

(** After the [break]: the waits for the pipe task and for the two
    processes.  Whatever runs meanwhile, the coroutine returns [True], both
    processes have exited or were killed, an empty media buffer is still
    empty, and nothing but kills was added to the trace. *)
Lemma teardown_after_break
    (w : world) (b : AudioBuffer.t) (i2 i3 i4 : await_in) :
  State.music_buffer (st w) = Some b ->
  AudioBuffer.current_size b = 0 ->
  yt_status w <> NotStarted -> ffmpeg_status w <> NotStarted ->
  exists w' kills,
    run [i2; i3; i4] AwaitPipe w = (Return true, w') /\
    stopped (yt_status w') = true /\
    stopped (ffmpeg_status w') = true /\
    State.music_buffer (st w') = Some b /\
    State.music_task (st w') = None /\
    State.yt_task (st w') = None /\
    trace w' = trace w ++ kills /\
    Forall (fun e => exists p, e = Kill p) kills.
Proof.
  intros Hb H0 Hy Hf. destruct w as [s y f t]. simpl in *.
  pose proof (apply_actions_keep_empty (during i2) s b Hb H0) as H2.
  pose proof (apply_actions_keep_empty (during i3) _ b H2 H0) as H3.
  pose proof (apply_actions_keep_empty (during i4) _ b H3 H0) as H4.
  unfold step, with_st, wait_or_kill, emit, set_status, status_of; simpl.
  destruct y, f; try congruence; simpl;
    destruct (in_time i3), (in_time i4); simpl;
    eexists _, _;
    (split; [reflexivity|]); simpl;
    (split; [reflexivity|]); (split; [reflexivity|]);
    (split; [exact H4|]); (split; [reflexivity|]); (split; [reflexivity|]);
    (split;
     [ first [ symmetry; apply app_nil_r
             | repeat rewrite <- app_assoc; reflexivity ]
     | repeat constructor; eauto ]).
Qed.

(** What the skip branch does.  While a track, one with a URL that is not
    empty, plays into a media buffer
    that holds frames and both processes have been spawned, [skip] sets the
    flag; at its next poll the
    loop resets the flag and cancels the pipe task first, then signals the
    decode and the fetch process (both, when both still run), then clears
    the media buffer, logs the skip and leaves the loop; [play_youtube]
    then returns with both processes exited or killed and the media buffer
    still empty, whatever commands and callbacks run in between.  The poll
    follows at once when the read in which the loop is suspended returns a
    block. *)
Lemma skip_branch_stops_and_clears
    (w0 : world) (url : string) (b : AudioBuffer.t)
    (i1 i2 i3 i4 : await_in) :
  State.current_track (st w0) = Some url -> url <> ""%string ->
  State.music_buffer (st w0) = Some b ->
  0 < AudioBuffer.available_frames b ->
  yt_status w0 <> NotStarted -> ffmpeg_status w0 <> NotStarted ->
  let w := with_st (fun s => fst (skip s)) w0 in
  snd (skip (st w0)) = Skipping /\
  State.skip (st w) = true /\
  (exists w1 w2 w3 b' kills,
      loop_top w = (AwaitPipeAfterCancel, w1) /\
      State.skip (st w1) = false /\
      step AwaitPipeAfterCancel i1 w1 = (AwaitPipe, w2) /\
      trace w2 = trace w0 ++ [PipeCancel]
                   ++ signals (yt_status w0) (ffmpeg_status w0)
                   ++ [BufferClear; Log TrackSkipped] /\
      State.music_buffer (st w2) = Some (AudioBuffer.clear b') /\
      AudioBuffer.available_frames (AudioBuffer.clear b') = 0 /\
      AudioBuffer.frames_of (AudioBuffer.clear b') = [] /\
      run [i1; i2; i3; i4] AwaitPipeAfterCancel w1 = (Return true, w3) /\
      stopped (yt_status w3) = true /\
      stopped (ffmpeg_status w3) = true /\
      State.music_buffer (st w3) = Some (AudioBuffer.clear b') /\
      trace w3 = trace w2 ++ kills /\
      Forall (fun e => exists p, e = Kill p) kills) /\
  (yt_status w0 = Running -> ffmpeg_status w0 = Running ->
   signals (yt_status w0) (ffmpeg_status w0)
   = [Terminate Ffmpeg; Terminate YtDlp]) /\
  (forall (i0 : await_in) (block : Chunk),
      chunk i0 = Data block ->
      State.skip (apply_actions (during i0) (st w0)) = true ->
      exists w1, step AwaitRead i0 w0 = (AwaitPipeAfterCancel, w1)).
Proof.
  intros Htrack Hurl Hbuf Hocc Hyt Hff w.
  assert (Hskip : skip (st w0) = (State.set_skip true (st w0), Skipping)).
  { unfold skip. rewrite Htrack. cbn [truthy].
    now destruct (String.eqb_spec url ""). }
  assert (Hw : st w = State.set_skip true (st w0)
               /\ trace w = trace w0
               /\ yt_status w = yt_status w0
               /\ ffmpeg_status w = ffmpeg_status w0).
  { subst w. destruct w0. simpl in *. now rewrite Hskip. }
  destruct Hw as (Hw & Htr & Hyw & Hfw).
  split; [now rewrite Hskip|]. split; [now rewrite Hw|].
  split; [|split].
  - destruct (skip_branch w b i1) as
        (w1 & w2 & b' & Htop & Hflag & Hstep & Ht2 & Hb2 & Hy2 & Hf2);
      [now rewrite Hw | now rewrite Hw | congruence | congruence |].
    destruct (teardown_after_break w2 (AudioBuffer.clear b') i2 i3 i4)
      as (w3 & kills & Hrun & Hy3 & Hf3 & Hb3 & _ & _ & Ht3 & Hk);
      [exact Hb2 | reflexivity | exact Hy2 | exact Hf2 |].
    exists w1, w2, w3, b', kills.
    rewrite Htr, Hyw, Hfw in Ht2.
    repeat split; auto.
    change (run [i1; i2; i3; i4] AwaitPipeAfterCancel w1)
      with (let '(p', w') := step AwaitPipeAfterCancel i1 w1 in
            run [i2; i3; i4] p' w').
    rewrite Hstep. exact Hrun.
  - intros -> ->. reflexivity.
  - intros i0 block Hchunk Hflag. unfold step. rewrite Hchunk.
    pose proof (apply_actions_keep_buffer (during i0) (st w0)) as Hkeep.
    rewrite Hbuf in Hkeep. specialize (Hkeep eq_refl).
    destruct w0 as [s y f t]. simpl in *.
    destruct (State.music_buffer (apply_actions (during i0) s)) as [b0|];
      [|discriminate].
    unfold loop_top. simpl. rewrite Hflag. eauto.
Qed.

Lemma skip_branch_example :
  exists w3,
    run [quiet; quiet; late; quiet] AwaitPipeAfterCancel
        (snd (loop_top (with_st (fun s => fst (skip s)) demo_world)))
      = (Return true, w3) /\
    trace w3 = trace demo_world
                 ++ [PipeCancel; Terminate Ffmpeg; Terminate YtDlp;
                     BufferClear; Log TrackSkipped; Kill Ffmpeg] /\
    option_map AudioBuffer.available_frames (State.music_buffer (st w3))
      = Some 0.
Proof.
  destruct (skip_branch_stops_and_clears demo_world "track"%string
              (AudioBuffer.write [tone 1; tone 2; tone 3] AudioBuffer.default)
              quiet quiet late quiet)
    as (_ & _ & (w1 & w2 & w3 & b' & kills & Htop & _ & _ & _ & _ & _ & _
                 & Hrun & _ & _ & Hbuf & _) & _);
    try reflexivity; try discriminate.
  rewrite Htop. simpl snd. exists w3. split; [exact Hrun|].
  vm_compute in Htop. injection Htop as <-.
  vm_compute in Hrun. injection Hrun as <-. split; reflexivity.
Qed.

(** C5 fails at the end of a stream.  A track plays into a media buffer
    that holds three frames, both processes run, and [skip] arrives while
    the loop waits for the read that finds the stream at its end.  The
    command answers that it skips, but the loop leaves through the
    end-of-stream [break]: the pipe task is not cancelled, no process is
    signalled, the media buffer keeps its three frames, nothing is logged as
    skipped, and the flag stays set.  The flag is then served by the next
    track, which is skipped at its first poll. *)
Theorem skip_at_end_of_stream :
  let w0 := start_track "first" ["second"%string] idle_world in
  let script := [quiet; quiet; skip_then_eof; quiet; quiet; quiet] in
  State.current_track (st w0) = Some "first"%string /\
  option_map AudioBuffer.available_frames (State.music_buffer (st w0))
    = Some 3 /\
  (exists w1,
      run [quiet; quiet] AwaitSpawnYt w0 = (AwaitRead, w1) /\
      yt_status w1 = Running /\ ffmpeg_status w1 = Running /\
      snd (skip (st w1)) = Skipping) /\
  (exists w,
      play_youtube "first" script w0 = (Return true, w) /\
      trace w = trace w0 ++ [Spawn YtDlp; Spawn Ffmpeg; PipeStart] /\
      State.skip (st w) = true /\
      option_map AudioBuffer.available_frames (State.music_buffer (st w))
        = Some 3) /\
  (exists w,
      playback_loop [script; [quiet; quiet; quiet; quiet; quiet; quiet]]
        idle_world = (AtDequeue, w) /\
      trace w = [Log (NowPlaying "first"); Spawn YtDlp; Spawn Ffmpeg;
                 PipeStart; SaveQueue ["second"%string];
                 Log (NowPlaying "second"); Spawn YtDlp; Spawn Ffmpeg;
                 PipeStart; PipeCancel; Terminate Ffmpeg; Terminate YtDlp;
                 BufferClear; Log TrackSkipped; SaveQueue []]).
Proof.
  intros w0 script. split; [reflexivity|]. split; [reflexivity|].
  split; [|split].
  - eexists. split; [vm_compute; reflexivity|]. repeat split.
  - eexists. split; [vm_compute; reflexivity|]. repeat split.
  - eexists. split; [vm_compute; reflexivity|]. reflexivity.
Qed.

(** ** The queue controller *)

Lemma apply_action_queue (a : action) (s : State.t) :
  State.queue (apply_action a s) = State.queue s.
Proof.
  destruct a; simpl.
  - unfold skip. now destruct (truthy _).
  - unfold pause. now destruct (truthy _).
  - unfold resume. now destruct (State.paused s).
  - unfold volume. now destruct (_ || _).
  - destruct (audio_callback frames s) as [[out s']|] eqn:E; [|reflexivity].
    destruct (audio_callback_inv _ _ _ _ E) as (? & ? & ? & ? & _ & _ & _ & ->).
    reflexivity.
Qed.

Lemma apply_actions_queue (l : list action) (s : State.t) :
  State.queue (apply_actions l s) = State.queue s.
Proof.
  revert s. induction l as [|a l IH]; intros s; [reflexivity|].
  simpl. now rewrite IH, apply_action_queue.
Qed.

Lemma queue_emit (e : event) (w : world) :
  State.queue (st (emit e w)) = State.queue (st w).
Proof. reflexivity. Qed.

Lemma queue_set_status (p : proc) (v : proc_status) (w : world) :
  State.queue (st (set_status p v w)) = State.queue (st w).
Proof. now destruct p. Qed.

Lemma queue_terminate_both (w : world) :
  State.queue (st (terminate_both w)) = State.queue (st w).
Proof.
  unfold terminate_both, terminate.
  destruct (status_of Ffmpeg w); try reflexivity;
    destruct (status_of YtDlp _); reflexivity.
Qed.

Lemma queue_clear_music_buffer (w : world) :
  State.queue (st (clear_music_buffer w)) = State.queue (st w).
Proof. unfold clear_music_buffer. now destruct (State.music_buffer (st w)). Qed.

Lemma queue_wait_or_kill (p : proc) (r : bool) (w : world) :
  State.queue (st (wait_or_kill p r w)) = State.queue (st w).
Proof.
  unfold wait_or_kill. destruct (stopped _); [reflexivity|].
  destruct r; simpl; now rewrite ?queue_set_status.
Qed.

Lemma queue_backpressure_check (w : world) :
  State.queue (st (snd (backpressure_check w))) = State.queue (st w).
Proof.
  unfold backpressure_check. destruct (State.music_buffer (st w));
    [destruct (_ >? _)|]; reflexivity.
Qed.

Lemma queue_pause_check (w : world) :
  State.queue (st (snd (pause_check w))) = State.queue (st w).
Proof.
  unfold pause_check. destruct (_ && _); [reflexivity|].
  apply queue_backpressure_check.
Qed.

Lemma queue_loop_top (w : world) :
  State.queue (st (snd (loop_top w))) = State.queue (st w).
Proof.
  unfold loop_top. destruct (State.skip (st w)); [reflexivity|].
  apply queue_pause_check.
Qed.

(** Only the dequeue changes the queue: [play_youtube] leaves it alone. *)
Lemma step_queue (p : pc) (i : await_in) (w : world) :
  State.queue (st (snd (step p i w))) = State.queue (st w).
Proof.
  pose proof (apply_actions_queue (during i) (st w)) as Hq.
  assert (Hw : State.queue (st (with_st (apply_actions (during i)) w))
               = State.queue (st w)) by exact Hq.
  unfold step. set (w1 := with_st (apply_actions (during i)) w) in *.
  destruct p; cbv beta iota; try exact Hw.
  - destruct (spawn_ok i); [|exact Hw].
    cbn [snd]. rewrite queue_emit, queue_set_status. exact Hw.
  - destruct (spawn_ok i); [|exact Hw].
    rewrite queue_loop_top, queue_emit.
    change (State.queue (st (emit (Spawn Ffmpeg) (set_status Ffmpeg Running w1)))
            = State.queue (st w)).
    rewrite queue_emit, queue_set_status. exact Hw.
  - now rewrite queue_pause_check.
  - now rewrite queue_backpressure_check.
  - destruct (chunk i) as [block| |]; try exact Hw.
    destruct (State.music_buffer (st w1)) as [b|]; [|exact Hw].
    rewrite queue_loop_top. exact Hw.
  - unfold skip_teardown. cbn [snd].
    rewrite queue_emit, queue_clear_music_buffer, queue_terminate_both.
    exact Hw.
  - cbn [snd]. rewrite queue_wait_or_kill. exact Hw.
  - cbn [snd].
    change (State.queue (st (wait_or_kill YtDlp (in_time i) w1))
            = State.queue (st w)).
    rewrite queue_wait_or_kill. exact Hw.
  - reflexivity.
Qed.

Lemma run_cons (i : await_in) (script : list await_in) (p : pc) (w : world) :
  (forall ok, p <> Return ok) ->
  run (i :: script) p w = run script (fst (step p i w)) (snd (step p i w)).
Proof.
  intros H.
  destruct p; try (exfalso; eapply H; reflexivity);
    lazymatch goal with
    | |- run _ ?P _ = _ =>
        change (run (i :: script) P w)
          with (let '(p', w') := step P i w in run script p' w')
    end;
    destruct (step _ i w); reflexivity.
Qed.

Lemma run_return (script : list await_in) (ok : bool) (w : world) :
  run script (Return ok) w = (Return ok, w).
Proof. destruct script; reflexivity. Qed.

Lemma run_queue (script : list await_in) :
  forall (p : pc) (w : world),
    State.queue (st (snd (run script p w))) = State.queue (st w).
Proof.
  induction script as [|i script IH]; intros p w.
  - destruct p; reflexivity.
  - destruct p; try (rewrite run_return; reflexivity);
      (rewrite run_cons by discriminate; rewrite IH; apply step_queue).
Qed.

Lemma play_youtube_queue (url : string) (script : list await_in) (w : world) :
  State.queue (st (snd (play_youtube url script w))) = State.queue (st w).
Proof.
  unfold play_youtube, play_youtube_start.
  destruct (State.music_buffer (st w)).
  - rewrite run_queue. now rewrite !queue_set_status.
  - now rewrite run_return.
Qed.

(** A process that cannot be spawned ends the attempt with [False]. *)
Lemma spawn_failure_returns_false
    (url : string) (w : world) (b : AudioBuffer.t)
    (i1 i2 : await_in) (rest : list await_in) :
  State.music_buffer (st w) = Some b ->
  (spawn_ok i1 = false ->
   exists w',
     play_youtube url (i1 :: rest) w = (Return false, w') /\
     trace w' = trace w ++ [Log PlaybackError]) /\
  (spawn_ok i1 = true -> spawn_ok i2 = false ->
   exists w',
     play_youtube url (i1 :: i2 :: rest) w = (Return false, w') /\
     trace w' = trace w ++ [Spawn YtDlp; Log PlaybackError]).
Proof.
  intros Hb. unfold play_youtube, play_youtube_start. rewrite Hb. split.
  - intros H1. rewrite run_cons by discriminate.
    unfold step. rewrite H1. unfold on_exception. cbn [fst snd].
    rewrite run_return. eexists. split; [reflexivity|].
    destruct w. reflexivity.
  - intros H1 H2. rewrite run_cons by discriminate.
    unfold step at 1 2. rewrite H1. cbn [fst snd].
    rewrite run_cons by discriminate.
    unfold step. rewrite H2. unfold on_exception. cbn [fst snd].
    rewrite run_return. eexists. split; [reflexivity|].
    destruct w. simpl. now rewrite <- app_assoc.
Qed.

(** A read that raises ends the attempt with [False]. *)
Lemma read_error_returns_false
    (w : world) (i : await_in) (rest : list await_in) :
  chunk i = ReadError ->
  exists w',
    run (i :: rest) AwaitRead w = (Return false, w') /\
    trace w' = trace w ++ [Log PlaybackError].
Proof.
  intros H. rewrite run_cons by discriminate.
  unfold step. rewrite H. unfold on_exception. cbn [fst snd].
  rewrite run_return. eexists. split; [reflexivity|].
  destruct w. reflexivity.
Qed.

(** After an attempt that returned [False] the loop logs the failure,
    clears the current track, saves the queue and goes on. *)
Lemma loop_continues_after_failure
    (url : string) (q : list string) (script : list await_in)
    (scripts : list (list await_in)) (w w2 : world) :
  State.queue (st w) = url :: q ->
  play_youtube url script (start_track url q w) = (Return false, w2) ->
  let w3 := finish_track false url w2 in
  playback_loop (script :: scripts) w = playback_loop scripts w3 /\
  trace w3 = trace w2 ++ [Log (FailedToPlay url); SaveQueue q] /\
  State.current_track (st w3) = None /\
  State.queue (st w3) = q.
Proof.
  intros Hq Hplay w3.
  assert (Hq2 : State.queue (st w2) = q).
  { pose proof (play_youtube_queue url script (start_track url q w)) as H.
    rewrite Hplay in H. simpl in H. destruct w. exact H. }
  split; [|split; [|split]].
  - simpl. rewrite Hq, Hplay. reflexivity.
  - subst w3. unfold finish_track, save_queue. destruct w2 as [s y f t].
    simpl in *. rewrite Hq2. now rewrite <- app_assoc.
  - subst w3. now destruct w2.
  - subst w3. destruct w2. exact Hq2.
Qed.

(** C8: a fetch or decode process that cannot be spawned, or a read that
    raises, makes [play_youtube] return [False] after logging the error,
    without raising; and after an attempt that returned [False] the loop
    logs the failure, clears the current track, saves the queue, dequeues
    the next request and starts to play it. *)
Theorem failed_track_does_not_stop_loop :
  (forall (url : string) (w : world) (b : AudioBuffer.t)
          (i1 i2 : await_in) (rest : list await_in),
      State.music_buffer (st w) = Some b ->
      (spawn_ok i1 = false ->
       exists w',
         play_youtube url (i1 :: rest) w = (Return false, w') /\
         trace w' = trace w ++ [Log PlaybackError]) /\
      (spawn_ok i1 = true -> spawn_ok i2 = false ->
       exists w',
         play_youtube url (i1 :: i2 :: rest) w = (Return false, w') /\
         trace w' = trace w ++ [Spawn YtDlp; Log PlaybackError])) /\
  (forall (w : world) (i : await_in) (rest : list await_in),
      chunk i = ReadError ->
      exists w',
        run (i :: rest) AwaitRead w = (Return false, w') /\
        trace w' = trace w ++ [Log PlaybackError]) /\
  (forall (url next : string) (q : list string)
          (script script' : list await_in)
          (scripts : list (list await_in)) (w w2 : world),
      State.queue (st w) = url :: next :: q ->
      play_youtube url script (start_track url (next :: q) w)
        = (Return false, w2) ->
      let w3 := finish_track false url w2 in
      let w4 := start_track next q w3 in
      State.current_track (st w3) = None /\
      State.current_track (st w4) = Some next /\
      trace w4 = trace w2 ++ [Log (FailedToPlay url); SaveQueue (next :: q);
                              Log (NowPlaying next)] /\
      playback_loop (script :: script' :: scripts) w
        = match play_youtube next script' w4 with
          | (Return ok, w') => playback_loop scripts (finish_track ok next w')
          | (p, w') => (Playing p, w')
          end).
Proof.
  split; [|split].
  - intros. now apply spawn_failure_returns_false with (b := b).
  - intros. now apply read_error_returns_false.
  - intros url next q script script' scripts w w2 Hq Hplay w3 w4.
    destruct (loop_continues_after_failure url (next :: q) script
                (script' :: scripts) w w2 Hq Hplay)
      as (Hloop & Htr & Hcur & Hq3).
    fold w3 in Hloop, Htr, Hcur, Hq3.
    split; [exact Hcur|]. split; [subst w4; now destruct w3|]. split.
    + subst w4. unfold start_track.
      destruct w3 as [s y f t]. simpl in *. rewrite Htr.
      now rewrite <- app_assoc.
    + rewrite Hloop. cbn [playback_loop]. rewrite Hq3. reflexivity.
Qed.

Lemma failed_track_does_not_stop_loop_witness :
  exists w,
    playback_loop [[broken]; [quiet]] idle_world = (Playing AwaitSpawnFfmpeg, w) /\
    trace w = [Log (NowPlaying "first"); Log PlaybackError;
               Log (FailedToPlay "first"); SaveQueue ["second"%string];
               Log (NowPlaying "second"); Spawn YtDlp] /\
    State.current_track (st w) = Some "second"%string.
Proof.
  destruct failed_track_does_not_stop_loop as (Hspawn & _ & Hloop).
  destruct (Hspawn "first"%string
              (start_track "first" ["second"%string] idle_world)
              (AudioBuffer.write [tone 1; tone 2; tone 3] AudioBuffer.default)
              broken quiet [] eq_refl) as (Hfail & _).
  destruct (Hfail eq_refl) as (w2 & Hplay & Htr).
  destruct (Hloop "first"%string "second"%string [] [broken] [quiet] []
              idle_world w2 eq_refl Hplay) as (_ & _ & _ & Hgo).
  rewrite Hgo. vm_compute in Hplay. injection Hplay as <-.
  eexists. split; [vm_compute; reflexivity|]. split; reflexivity.
Defined.
(** * Further properties *)

(** ** The ring buffer as a queue of frames *)

Lemma write_fits (data : Chunk) (b : AudioBuffer.t) :
  AudioBuffer.current_size b + len data <= AudioBuffer.maxsize b ->
  data <> [] ->
  AudioBuffer.write data b
  = AudioBuffer.mk (AudioBuffer.buffer b ++ [data]) (AudioBuffer.maxsize b)
      (AudioBuffer.current_size b + len data).
Proof.
  intros Hfit Hne. unfold AudioBuffer.write.
  destruct (len data =? 0) eqn:E0.
  { apply Z.eqb_eq, len_zero_nil in E0. contradiction. }
  destruct (_ >? _) eqn:E; [apply Z.gtb_lt in E; lia|]. reflexivity.
Qed.

Lemma write_fits_frames (data : Chunk) (b : AudioBuffer.t) :
  AudioBuffer.current_size b + len data <= AudioBuffer.maxsize b ->
  AudioBuffer.frames_of (AudioBuffer.write data b)
    = AudioBuffer.frames_of b ++ data /\
  AudioBuffer.current_size (AudioBuffer.write data b)
    = AudioBuffer.current_size b + len data.
Proof.
  intros Hfit. destruct data as [|x data].
  - rewrite write_empty, app_nil_r. unfold len. simpl. split; [reflexivity|lia].
  - rewrite write_fits by (auto; discriminate).
    unfold AudioBuffer.frames_of. simpl.
    rewrite concat_app. simpl. now rewrite app_nil_r.
Qed.

(** A block written while there is room for it is stored behind what the
    buffer holds, nothing is dropped, and reading everything back returns
    the older frames first, then the block, frame for frame, and leaves the
    buffer empty. *)
Theorem write_then_read_is_fifo (data : Chunk) (b : AudioBuffer.t) :
  AudioBuffer.wf b ->
  AudioBuffer.current_size b + len data <= AudioBuffer.maxsize b ->
  let b1 := AudioBuffer.write data b in
  AudioBuffer.frames_of b1 = AudioBuffer.frames_of b ++ data /\
  AudioBuffer.available_frames b1 = AudioBuffer.available_frames b + len data /\
  exists b2,
    AudioBuffer.read (AudioBuffer.available_frames b1) b1
      = Some (AudioBuffer.frames_of b ++ data, b2) /\
    AudioBuffer.frames_of b2 = [] /\
    AudioBuffer.available_frames b2 = 0.
Proof.
  intros Hwf Hfit b1.
  destruct (write_fits_frames data b Hfit) as [Hf Hc]. fold b1 in Hf, Hc.
  assert (Hwf1 : AudioBuffer.wf b1) by (apply write_wf; exact Hwf).
  unfold AudioBuffer.available_frames.
  split; [exact Hf|]. split; [exact Hc|].
  pose proof (wf_frames b1 Hwf1) as Hn.
  pose proof (len_nonneg (AudioBuffer.frames_of b1)) as H0.
  destruct (read_spec (AudioBuffer.current_size b1) b1 ltac:(lia) Hwf1)
    as (b2 & Hr & Hf2 & Hs2 & _ & _).
  exists b2. unfold len in Hn.
  rewrite firstn_all2 in Hr by lia. rewrite skipn_all2 in Hf2 by lia.
  replace (Z.to_nat (AudioBuffer.current_size b1)
           - length (AudioBuffer.frames_of b1))%nat with 0%nat in Hr by lia.
  simpl in Hr. rewrite app_nil_r, Hf in Hr.
  split; [exact Hr|]. split; [exact Hf2|]. lia.
Qed.

Lemma write_then_read_is_fifo_witness :
  exists b2,
    AudioBuffer.read 3 (AudioBuffer.write [tone 2; tone 3]
                          (AudioBuffer.write [tone 1] (AudioBuffer.init 4)))
      = Some ([tone 1; tone 2; tone 3], b2) /\
    AudioBuffer.available_frames b2 = 0.
Proof.
  destruct (write_then_read_is_fifo [tone 2; tone 3]
              (AudioBuffer.write [tone 1] (AudioBuffer.init 4))
              ltac:(reflexivity) ltac:(vm_compute; congruence))
    as (_ & _ & b2 & Hr & _ & H0).
  exists b2. split; [exact Hr | exact H0].
Defined.

(** Reading [n] frames and then [m] frames returns, put end to end, the
    block that one read of [n + m] frames returns, silence included, and
    leaves the same frames stored: what the output device hears does not
    depend on how the driver cuts its requests. *)
Theorem read_in_two_pieces (n m : Z) (b : AudioBuffer.t) :
  0 <= n -> 0 <= m -> AudioBuffer.wf b ->
  exists c1 b1 c2 b2 c b',
    AudioBuffer.read n b = Some (c1, b1) /\
    AudioBuffer.read m b1 = Some (c2, b2) /\
    AudioBuffer.read (n + m) b = Some (c, b') /\
    c = c1 ++ c2 /\
    AudioBuffer.frames_of b' = AudioBuffer.frames_of b2 /\
    AudioBuffer.available_frames b' = AudioBuffer.available_frames b2.
Proof.
  intros Hn Hm Hwf.
  destruct (read_spec n b Hn Hwf) as (b1 & Hr1 & Hf1 & Hs1 & _ & Hwf1).
  destruct (read_spec m b1 Hm Hwf1) as (b2 & Hr2 & Hf2 & Hs2 & _ & _).
  destruct (read_spec (n + m) b ltac:(lia) Hwf) as (b' & Hr & Hf & Hs & _ & _).
  eexists _, b1, _, b2, _, b'.
  split; [exact Hr1|]. split; [exact Hr2|]. split; [exact Hr|].
  pose proof (wf_frames b Hwf) as Hc. unfold len in Hc.
  set (stored := AudioBuffer.frames_of b) in *.
  unfold AudioBuffer.available_frames.
  rewrite Hf1 in *. rewrite Hf, Hf2, Hs, Hs2, Hs1.
  rewrite skipn_skipn, length_skipn.
  replace (Z.to_nat (n + m)) with (Z.to_nat n + Z.to_nat m)%nat by lia.
  split; [|split; [f_equal; lia | lia]].
  destruct (Nat.le_gt_cases (Z.to_nat n) (length stored)) as [Hle|Hgt].
  - replace (Z.to_nat n - length stored)%nat with 0%nat by lia.
    simpl. rewrite app_nil_r.
    rewrite <- (firstn_skipn (Z.to_nat n) stored) at 1.
    rewrite firstn_app, length_firstn.
    replace (Nat.min (Z.to_nat n) (length stored)) with (Z.to_nat n) by lia.
    rewrite firstn_all2 by (rewrite length_firstn; lia).
    replace (Z.to_nat n + Z.to_nat m - Z.to_nat n)%nat with (Z.to_nat m)
      by lia.
    rewrite <- app_assoc. do 3 f_equal. lia.
  - rewrite (@firstn_all2 _ (Z.to_nat n + Z.to_nat m)%nat stored) by lia.
    rewrite (@firstn_all2 _ (Z.to_nat n) stored) by lia.
    rewrite (@skipn_all2 _ (Z.to_nat n) stored) by lia.
    rewrite firstn_nil. simpl.
    rewrite <- app_assoc. f_equal. unfold zeros. rewrite <- repeat_app.
    f_equal. lia.
Qed.

Lemma read_in_two_pieces_witness :
  exists c1 b1 c2 b2 c b',
    let b := AudioBuffer.write [tone 1; tone 2; tone 3] (AudioBuffer.init 4) in
    AudioBuffer.read 2 b = Some (c1, b1) /\
    AudioBuffer.read 2 b1 = Some (c2, b2) /\
    AudioBuffer.read 4 b = Some (c, b') /\
    c = c1 ++ c2.
Proof.
  destruct (read_in_two_pieces 2 2
              (AudioBuffer.write [tone 1; tone 2; tone 3] (AudioBuffer.init 4))
              ltac:(lia) ltac:(lia) ltac:(reflexivity))
    as (c1 & b1 & c2 & b2 & c & b' & H1 & H2 & H & Hc & _).
  exists c1, b1, c2, b2, c, b'. auto.
Defined.

(** ** What every reachable buffer satisfies *)

Lemma read_step_chunks (frames : nat) (s : AudioBuffer.read_state) :
  Forall (fun c : Chunk => c <> []) (AudioBuffer.rbuffer s) ->
  Forall (fun c : Chunk => c <> [])
         (AudioBuffer.rbuffer (AudioBuffer.read_step frames s)).
Proof.
  intros H. unfold AudioBuffer.read_step.
  destruct (AudioBuffer.rbuffer s) as [|c rest] eqn:E; [now rewrite E|].
  inversion H as [|c' rest' Hc Hrest]; subst.
  destruct (length c <=? frames - AudioBuffer.read_offset s)%nat eqn:Hfit;
    simpl; [exact Hrest|].
  apply Nat.leb_gt in Hfit. constructor; [|exact Hrest].
  intros Hnil. apply (f_equal (@length Frame)) in Hnil.
  rewrite length_skipn in Hnil. simpl in Hnil. lia.
Qed.

Lemma read_loop_chunks (frames fuel : nat) :
  forall s : AudioBuffer.read_state,
    Forall (fun c : Chunk => c <> []) (AudioBuffer.rbuffer s) ->
    Forall (fun c : Chunk => c <> [])
           (AudioBuffer.rbuffer (AudioBuffer.read_loop fuel frames s)).
Proof.
  induction fuel as [|fuel IH]; intros s H; simpl; [exact H|].
  destruct (AudioBuffer.read_cond frames s); [|exact H].
  apply IH, read_step_chunks, H.
Qed.

Lemma reachable_chunks (b : AudioBuffer.t) :
  AudioBuffer.reachable b ->
  Forall (fun c : Chunk => c <> []) (AudioBuffer.buffer b).
Proof.
  induction 1 as [maxsz|data b Hb IH|frames b b' block Hb IH Hread|b _ IH].
  - constructor.
  - destruct data as [|x data]; [exact IH|].
    destruct (write_spec (x :: data) b (reachable_wf b Hb))
      as (old & kept & Hsplit & -> & _); [discriminate|].
    simpl. rewrite Hsplit in IH. apply Forall_app in IH.
    apply Forall_app. split; [apply IH|]. constructor; [discriminate|constructor].
  - unfold AudioBuffer.read in Hread.
    destruct (frames <? 0); [discriminate|].
    destruct (is_empty (AudioBuffer.buffer b)
              || (AudioBuffer.current_size b =? 0)).
    + now injection Hread as _ <-.
    + injection Hread as _ <-. simpl. now apply read_loop_chunks.
  - constructor.
Qed.

(** In every state that a buffer reaches through [__init__], [write], [read]
    and [clear], no stored chunk is empty and [available_frames] is the
    number of frames stored; so the buffer holds no chunk exactly when the
    counter is zero, and the two tests at the top of [read] agree. *)
Theorem reachable_counter_is_exact (b : AudioBuffer.t) :
  AudioBuffer.reachable b ->
  Forall (fun c : Chunk => c <> []) (AudioBuffer.buffer b) /\
  AudioBuffer.available_frames b = len (AudioBuffer.frames_of b) /\
  0 <= AudioBuffer.available_frames b /\
  (AudioBuffer.buffer b = [] <-> AudioBuffer.available_frames b = 0) /\
  is_empty (AudioBuffer.buffer b) = (AudioBuffer.current_size b =? 0).
Proof.
  intros Hr. pose proof (reachable_chunks b Hr) as Hne.
  pose proof (reachable_wf b Hr) as Hwf.
  pose proof (wf_frames b Hwf) as Hc.
  pose proof (len_nonneg (AudioBuffer.frames_of b)) as H0.
  unfold AudioBuffer.available_frames.
  assert (Hiff : AudioBuffer.buffer b = [] <-> AudioBuffer.current_size b = 0).
  { split.
    - intros E. rewrite Hc. unfold AudioBuffer.frames_of. now rewrite E.
    - intros E. destruct (AudioBuffer.buffer b) as [|c rest] eqn:Eb;
        [reflexivity|].
      inversion Hne as [|c' rest' Hcne _]; subst.
      unfold AudioBuffer.frames_of in Hc. rewrite Eb in Hc. simpl in Hc.
      rewrite len_app in Hc. pose proof (len_nonneg (concat rest)).
      destruct c as [|x c]; [congruence|]. exfalso.
      unfold len in Hc at 1. cbn [length] in Hc. lia. }
  split; [exact Hne|]. split; [exact Hc|]. split; [lia|].
  split; [exact Hiff|].
  destruct (AudioBuffer.current_size b =? 0) eqn:E.
  - apply Z.eqb_eq, Hiff in E. now rewrite E.
  - destruct (AudioBuffer.buffer b) as [|c rest] eqn:Eb; [|reflexivity].
    apply Z.eqb_neq in E. exfalso. apply E, Hiff. reflexivity.
Qed.

Lemma reachable_counter_is_exact_witness :
  let b := AudioBuffer.write [tone 1; tone 2] (AudioBuffer.init 4) in
  AudioBuffer.available_frames b = len (AudioBuffer.frames_of b) /\
  (AudioBuffer.buffer b = [] <-> AudioBuffer.available_frames b = 0).
Proof.
  intros b.
  destruct (reachable_counter_is_exact b
              (AudioBuffer.reach_write _ _ (AudioBuffer.reach_init 4)))
    as (_ & Hc & _ & Hiff & _).
  split; [exact Hc | exact Hiff].
Defined.

(** ** The callback and the rest of the state *)

(** One callback takes its frames off the front of the media buffer and
    touches nothing but the two buffers. *)
Lemma callback_takes_frames (frames : Z) (s : State.t) (b : AudioBuffer.t) :
  0 <= frames -> State.music_buffer s = Some b -> AudioBuffer.wf b ->
  let s' := apply_action (RunCallback frames) s in
  exists b',
    State.music_buffer s' = Some b' /\ AudioBuffer.wf b' /\
    AudioBuffer.frames_of b'
      = skipn (Z.to_nat frames) (AudioBuffer.frames_of b) /\
    AudioBuffer.maxsize b' = AudioBuffer.maxsize b /\
    State.paused s' = State.paused s /\
    State.volume s' = State.volume s /\
    State.skip s' = State.skip s /\
    State.queue s' = State.queue s /\
    State.current_track s' = State.current_track s.
Proof.
  intros Hf Hb Hwf s'. subst s'. simpl.
  destruct (audio_callback_total frames s Hf)
    as (music & tts & mb & tb & Hm & _ & _ & _ & ->).
  rewrite Hb in Hm. simpl in Hm.
  destruct (read_spec frames b Hf Hwf) as (b' & Hr & Hfr & _ & Hms & Hwf').
  rewrite Hr in Hm. injection Hm as _ <-.
  exists b'. simpl. repeat split; auto.
Qed.

(** Pausing stops the feed, not the output: whatever the pause flag says,
    each callback takes its frames from the media buffer, so [n] callbacks
    of [frames] frames leave the frames stored beyond the first
    [n * frames], and none once that many were taken; and callbacks change
    neither the pause flag nor the volume, the skip flag, the queue or the
    current track. *)
Theorem mixer_plays_on_while_paused
    (frames : Z) (n : nat) (s : State.t) (b : AudioBuffer.t) :
  0 <= frames -> State.music_buffer s = Some b -> AudioBuffer.wf b ->
  let s' := apply_actions (repeat (RunCallback frames) n) s in
  exists b',
    State.music_buffer s' = Some b' /\
    AudioBuffer.frames_of b'
      = skipn (n * Z.to_nat frames) (AudioBuffer.frames_of b) /\
    AudioBuffer.available_frames b'
      = Z.max 0 (AudioBuffer.available_frames b - Z.of_nat n * frames) /\
    State.paused s' = State.paused s /\
    State.volume s' = State.volume s /\
    State.skip s' = State.skip s /\
    State.queue s' = State.queue s /\
    State.current_track s' = State.current_track s.
Proof.
  intros Hf. revert s b.
  induction n as [|n IH]; intros s b Hb Hwf s'; subst s'.
  - exists b. simpl. unfold AudioBuffer.available_frames.
    pose proof (wf_frames b Hwf). pose proof (len_nonneg (AudioBuffer.frames_of b)).
    repeat split; auto. lia.
  - simpl repeat. simpl apply_actions.
    fold (apply_actions (repeat (RunCallback frames) n)
            (apply_action (RunCallback frames) s)).
    destruct (callback_takes_frames frames s b Hf Hb Hwf)
      as (b1 & Hb1 & Hwf1 & Hfr1 & _ & Hp & Hv & Hk & Hq & Hc).
    destruct (IH _ b1 Hb1 Hwf1) as (b' & Hb' & Hfr & Hav & Hp' & Hv' & Hk' & Hq' & Hc').
    exists b'. split; [exact Hb'|].
    rewrite Hfr1, skipn_skipn in Hfr.
    unfold AudioBuffer.available_frames in *.
    rewrite (wf_frames b1 Hwf1), Hfr1 in Hav.
    pose proof (wf_frames b Hwf) as Hcs. unfold len in *.
    rewrite length_skipn in Hav.
    split; [rewrite Hfr; f_equal; lia|].
    split; [lia|].
    cbv zeta in *.
    repeat split; etransitivity; eassumption.
Qed.

Lemma mixer_plays_on_while_paused_witness :
  let s := State.set_paused true demo_state in
  exists b',
    State.music_buffer (apply_actions [RunCallback 2; RunCallback 2] s)
      = Some b' /\
    AudioBuffer.available_frames b' = 0 /\
    State.paused (apply_actions [RunCallback 2; RunCallback 2] s) = true.
Proof.
  intros s.
  destruct (mixer_plays_on_while_paused 2 2 s
              (AudioBuffer.write [tone 1; tone 2; tone 3] AudioBuffer.default)
              ltac:(lia) ltac:(reflexivity) ltac:(reflexivity))
    as (b' & Hb & _ & Hav & Hp & _).
  exists b'. split; [exact Hb|]. split; [exact Hav | exact Hp].
Defined.

(** ** The announcement path *)

(** Against a silent media sample and a finite volume factor, the mixer
    emits the clipped announcement sample; when that sample is a zero it
    emits a zero. *)
Lemma mix_sample_silent_media (k : float32) (duck : bool) (t : float32) :
  F32.is_finite k = true ->
  mix_sample k duck zero32 t = F32.clip t CLIP_LO CLIP_HI \/
  (F32.is_zero t = true /\ F32.is_zero (mix_sample k duck zero32 t) = true).
Proof.
  intros Hk. unfold mix_sample.
  assert (Hd : DUCK_FACTOR = S754_finite false 13421773 (-26))
    by (vm_compute; reflexivity).
  assert (Hz : exists sg,
             (if duck then F32.mul (F32.mul zero32 k) DUCK_FACTOR
              else F32.mul zero32 k) = S754_zero sg).
  { rewrite Hd. destruct k as [sk| | |sk mk ek]; try discriminate;
      destruct duck; simpl; eauto. }
  destruct Hz as (sg & ->).
  destruct t as [st|st| |st mt et].
  - right. split; [reflexivity|]. destruct sg, st; vm_compute; reflexivity.
  - left. reflexivity.
  - left. reflexivity.
  - left. reflexivity.
Qed.

Lemma clip_zero (t : float32) :
  F32.is_zero t = true -> F32.is_zero (F32.clip t CLIP_LO CLIP_HI) = true.
Proof.
  destruct t as [[]| | |]; try discriminate; intros _; vm_compute; reflexivity.
Qed.

Lemma mix_silent_media (k : float32) (duck : bool) (tts : Chunk) :
  F32.is_finite k = true ->
  Forall2 (fun o t => o = F32.clip t CLIP_LO CLIP_HI \/
                      (F32.is_zero t = true /\ F32.is_zero o = true))
    (samples (map (fun p => map2_frame (mix_sample k duck) (fst p) (snd p))
                  (combine (zeros (length tts)) tts)))
    (samples tts).
Proof.
  intros Hk. induction tts as [|[t1 t2] tts IH]; simpl; [constructor|].
  constructor; [apply mix_sample_silent_media, Hk|].
  constructor; [apply mix_sample_silent_media, Hk|]. exact IH.
Qed.

(** Volume and ducking act on the media path only.  When the media buffer
    is absent or empty and the volume factor is finite, as it is for the
    initial volume and for every level that [volume] accepts, each sample
    that the callback emits is the clipped announcement sample (a zero for
    a zero); and when the announcement block is silent too, the callback
    emits silence. *)
Theorem announcement_bypasses_volume (frames : Z) (s : State.t) :
  (0 <= frames ->
   F32.is_finite (F32.of_float64 (State.volume s)) = true ->
   (State.music_buffer s = None \/
    exists b, State.music_buffer s = Some b /\
              AudioBuffer.available_frames b = 0) ->
   exists tts tb out s',
     read_or_silence frames (State.tts_buffer s) = Some (tts, tb) /\
     audio_callback frames s = Some (out, s') /\
     Forall2 (fun o t => o = F32.clip t CLIP_LO CLIP_HI \/
                         (F32.is_zero t = true /\ F32.is_zero o = true))
       (samples out) (samples tts) /\
     (Forall (fun t => F32.is_zero t = true) (samples tts) ->
      Forall (fun o => F32.is_zero o = true) (samples out))) /\
  F32.is_finite (F32.of_float64 (State.volume State.initial)) = true /\
  (forall level, 0 <= level <= 200 ->
     F32.is_finite (F32.of_float64 (volume_of level)) = true).
Proof.
  split; [|split].
  - intros Hf Hk Hmedia.
    destruct (audio_callback_total frames s Hf)
      as (music & tts & mb & tb & Hm & Ht & Hlm & Hlt & Hcb).
    assert (Hz : music = zeros (length tts)).
    { rewrite Hlt. destruct Hmedia as [Hn|(b & Hb & H0)].
      - rewrite Hn in Hm. simpl in Hm.
        destruct (frames <? 0); [discriminate|]. now injection Hm as <- _.
      - rewrite Hb in Hm. simpl in Hm.
        rewrite (read_empty_unchanged frames b H0 Hf) in Hm.
        now injection Hm as <- _. }
    exists tts, tb, (mix (State.volume s) music tts).
    eexists. split; [exact Ht|]. split; [exact Hcb|].
    rewrite mix_frames, Hz.
    pose proof (mix_silent_media (F32.of_float64 (State.volume s))
                  (tts_active tts) tts Hk) as H2.
    split; [exact H2|].
    intros Hall. revert H2 Hall.
    generalize (samples tts) as ts.
    generalize (samples
      (map (fun p => map2_frame
                       (mix_sample (F32.of_float64 (State.volume s))
                          (tts_active tts)) (fst p) (snd p))
           (combine (zeros (length tts)) tts))) as os.
    induction 1 as [|o t os ts Hot _ IH]; intros Hall; constructor.
    + inversion Hall as [|? ? Hzt _]; subst.
      destruct Hot as [->|[_ Ho]]; [now apply clip_zero | exact Ho].
    + apply IH. now inversion Hall.
  - vm_compute. reflexivity.
  - intros level Hin. pose proof volume_of_accurate as Hacc.
    rewrite forallb_forall in Hacc.
    specialize (Hacc level (levels_spec level Hin)).
    apply andb_true_iff in Hacc. destruct Hacc as [_ H32].
    unfold near in H32. apply andb_true_iff in H32. apply H32.
Qed.

Lemma announcement_bypasses_volume_witness :
  let s := State.set_music_buffer (Some AudioBuffer.default)
             (fst (volume 200 demo_state)) in
  exists tts tb out s',
    read_or_silence 1 (State.tts_buffer s) = Some (tts, tb) /\
    audio_callback 1 s = Some (out, s') /\
    Forall2 (fun o t => o = F32.clip t CLIP_LO CLIP_HI \/
                        (F32.is_zero t = true /\ F32.is_zero o = true))
      (samples out) (samples tts).
Proof.
  intros s.
  destruct (announcement_bypasses_volume 1 s) as (H & _).
  destruct (H ltac:(lia) ltac:(vm_compute; reflexivity)
              ltac:(right; exists AudioBuffer.default; split; reflexivity))
    as (tts & tb & out & s' & Ht & Hcb & Hall & _).
  exists tts, tb, out, s'. auto.
Defined.

(** ** The feed loop of [play_youtube] *)

(** No command and no callback adds frames to the media buffer. *)
Lemma apply_action_media (a : action) (s : State.t) (b : AudioBuffer.t) :
  State.music_buffer s = Some b -> AudioBuffer.wf b ->
  exists b',
    State.music_buffer (apply_action a s) = Some b' /\
    AudioBuffer.wf b' /\
    AudioBuffer.maxsize b' = AudioBuffer.maxsize b /\
    AudioBuffer.current_size b' <= AudioBuffer.current_size b.
Proof.
  intros Hb Hwf.
  assert (Hsame : exists b',
             Some b = Some b' /\ AudioBuffer.wf b' /\
             AudioBuffer.maxsize b' = AudioBuffer.maxsize b /\
             AudioBuffer.current_size b' <= AudioBuffer.current_size b)
    by (exists b; repeat split; auto; lia).
  destruct a; simpl.
  - unfold skip. destruct (truthy _); simpl; now rewrite Hb.
  - unfold pause. destruct (truthy _); simpl; now rewrite Hb.
  - unfold resume. destruct (State.paused s); simpl; now rewrite Hb.
  - unfold volume. destruct (_ || _); simpl; now rewrite Hb.
  - destruct (Z.ltb_spec frames 0) as [Hneg|Hpos].
    + unfold audio_callback, read_or_silence. rewrite Hb.
      unfold AudioBuffer.read. apply Z.ltb_lt in Hneg. rewrite Hneg.
      now rewrite Hb.
    + destruct (audio_callback_total frames s Hpos)
        as (music & tts & mb & tb & Hm & _ & _ & _ & ->).
      rewrite Hb in Hm. simpl in Hm.
      destruct (read_spec frames b Hpos Hwf) as (b' & Hr & _ & Hs & Hms & Hwf').
      rewrite Hr in Hm. injection Hm as _ <-.
      exists b'. simpl. repeat split; auto.
      pose proof (wf_frames b Hwf). pose proof (len_nonneg (AudioBuffer.frames_of b)).
      lia.
Qed.

Lemma apply_actions_media (l : list action) :
  forall (s : State.t) (b : AudioBuffer.t),
    State.music_buffer s = Some b -> AudioBuffer.wf b ->
    exists b',
      State.music_buffer (apply_actions l s) = Some b' /\
      AudioBuffer.wf b' /\
      AudioBuffer.maxsize b' = AudioBuffer.maxsize b /\
      AudioBuffer.current_size b' <= AudioBuffer.current_size b.
Proof.
  induction l as [|a l IH]; intros s b Hb Hwf.
  - exists b. repeat split; auto. lia.
  - simpl. fold (apply_actions l (apply_action a s)).
    destruct (apply_action_media a s b Hb Hwf) as (b1 & Hb1 & Hwf1 & Hm1 & Hs1).
    destruct (IH _ b1 Hb1 Hwf1) as (b' & Hb' & Hwf' & Hm' & Hs').
    exists b'. repeat split; auto; lia.
Qed.

Lemma media_within_actions (limit : Z) (l : list action) (w : world) :
  media_within limit w -> media_within limit (with_st (apply_actions l) w).
Proof.
  intros (b & Hb & Hwf & Hms & Hav).
  destruct (apply_actions_media l (st w) b Hb Hwf) as (b' & Hb' & Hwf' & Hm' & Hs').
  exists b'. destruct w. unfold AudioBuffer.available_frames in *. simpl in *.
  repeat split; auto; lia.
Qed.

(** A change of the world that leaves the media buffer as it is. *)
Lemma media_within_same (limit : Z) (w w' : world) :
  State.music_buffer (st w') = State.music_buffer (st w) ->
  media_within limit w -> media_within limit w'.
Proof. intros E (b & Hb & H). exists b. rewrite E. auto. Qed.

Lemma media_within_le (l1 l2 : Z) (w : world) :
  l1 <= l2 -> media_within l1 w -> media_within l2 w.
Proof.
  intros Hle (b & Hb & Hwf & Hms & Hav). exists b. repeat split; auto. lia.
Qed.

Lemma backpressure_check_media (w : world) :
  media_within FEED_LIMIT w ->
  media_within FEED_LIMIT (snd (backpressure_check w)) /\
  (fst (backpressure_check w) = AwaitRead ->
   media_within (SAMPLE_RATE * 2) (snd (backpressure_check w))).
Proof.
  intros (b & Hb & Hwf & Hms & Hav). unfold backpressure_check. rewrite Hb.
  destruct (Z.gtb_spec (AudioBuffer.available_frames b) (SAMPLE_RATE * 2))
    as [Hgt|Hle]; cbn [fst snd].
  - split; [exists b; auto | discriminate].
  - split; [exists b; auto|]. intros _. exists b. auto.
Qed.

Lemma pause_check_media (w : world) :
  media_within FEED_LIMIT w ->
  media_within FEED_LIMIT (snd (pause_check w)) /\
  (fst (pause_check w) = AwaitRead ->
   media_within (SAMPLE_RATE * 2) (snd (pause_check w))).
Proof.
  intros H. unfold pause_check. destruct (_ && _); simpl.
  - split; [exact H | discriminate].
  - now apply backpressure_check_media.
Qed.

Lemma loop_top_media (w : world) :
  media_within FEED_LIMIT w ->
  media_within FEED_LIMIT (snd (loop_top w)) /\
  (fst (loop_top w) = AwaitRead ->
   media_within (SAMPLE_RATE * 2) (snd (loop_top w))).
Proof.
  intros H. unfold loop_top. destruct (State.skip (st w)); simpl.
  - split; [|discriminate].
    eapply media_within_same; [|exact H]. now destruct w.
  - now apply pause_check_media.
Qed.

Lemma terminate_both_buffer (w : world) :
  State.music_buffer (st (terminate_both w)) = State.music_buffer (st w).
Proof. now destruct (terminate_both_spec w) as (-> & _). Qed.

Lemma wait_or_kill_buffer (p : proc) (r : bool) (w : world) :
  State.music_buffer (st (wait_or_kill p r w)) = State.music_buffer (st w).
Proof.
  unfold wait_or_kill. destruct (stopped _); [reflexivity|].
  destruct r, p, w; reflexivity.
Qed.

Lemma loop_top_buffer (w : world) :
  State.music_buffer (st (snd (loop_top w))) = State.music_buffer (st w).
Proof.
  unfold loop_top, pause_check, backpressure_check.
  destruct (State.skip (st w)); [now destruct w|].
  destruct (_ && _); [reflexivity|].
  destruct (State.music_buffer (st w)) eqn:E; [|exact E].
  destruct (_ >? _); exact E.
Qed.

(** One resumption of the coroutine keeps the media buffer within the feed
    limit, and hands it to a read only when it holds at most two seconds. *)
Lemma step_media (p : pc) (i : await_in) (w : world) :
  match chunk i with Data block => len block <= BLOCKSIZE | _ => True end ->
  media_within FEED_LIMIT w ->
  (p = AwaitRead -> media_within (SAMPLE_RATE * 2) w) ->
  media_within FEED_LIMIT (snd (step p i w)) /\
  (fst (step p i w) = AwaitRead ->
   media_within (SAMPLE_RATE * 2) (snd (step p i w))).
Proof.
  intros Hblk Hin Hread.
  pose proof (media_within_actions FEED_LIMIT (during i) w Hin) as H1.
  assert (H2 : p = AwaitRead ->
               media_within (SAMPLE_RATE * 2)
                 (with_st (apply_actions (during i)) w))
    by (intros E; apply media_within_actions; auto).
  unfold step. set (w1 := with_st (apply_actions (during i)) w) in *.
  clearbody w1.
  destruct p; cbv beta iota.
  - destruct (spawn_ok i); simpl; (split; [|discriminate]);
      (eapply media_within_same; [|exact H1]); now destruct w1.
  - destruct (spawn_ok i).
    + apply loop_top_media.
      eapply media_within_same; [|exact H1]. now destruct w1.
    + simpl. split; [|discriminate].
      eapply media_within_same; [|exact H1]. now destruct w1.
  - now apply pause_check_media.
  - now apply backpressure_check_media.
  - specialize (H2 eq_refl).
    destruct (chunk i) as [block| |].
    + destruct H2 as (b & Hb & Hwf & Hms & Hav). rewrite Hb.
      apply loop_top_media.
      unfold AudioBuffer.available_frames in Hav.
      assert (Hfit : AudioBuffer.current_size b + len block
                     <= AudioBuffer.maxsize b)
        by (rewrite Hms; unfold SAMPLE_RATE, BLOCKSIZE in *; lia).
      destruct (write_fits_frames block b Hfit) as [_ Hcs].
      exists (AudioBuffer.write block b). destruct w1. simpl.
      unfold AudioBuffer.available_frames, FEED_LIMIT.
      rewrite write_maxsize, Hcs.
      repeat split; auto; [now apply write_wf | lia].
    + simpl. split; [exact H1 | discriminate].
    + simpl. split; [|discriminate].
      eapply media_within_same; [|exact H1]. now destruct w1.
  - unfold skip_teardown. simpl. split; [|discriminate].
    destruct H1 as (b & Hb & Hwf & Hms & Hav).
    unfold clear_music_buffer. rewrite terminate_both_buffer, Hb.
    exists (AudioBuffer.clear b). destruct (terminate_both w1). simpl.
    unfold FEED_LIMIT, SAMPLE_RATE, BLOCKSIZE.
    repeat split; auto. lia.
  - simpl. split; [exact H1 | discriminate].
  - simpl. split; [|discriminate].
    eapply media_within_same; [|exact H1]. apply wait_or_kill_buffer.
  - simpl. split; [|discriminate].
    eapply media_within_same; [|exact H1].
    destruct (wait_or_kill YtDlp (in_time i) w1) eqn:E.
    pose proof (wait_or_kill_buffer YtDlp (in_time i) w1) as Hk.
    rewrite E in Hk. exact Hk.
  - simpl. split; [exact Hin | discriminate].
Qed.

(** The backpressure of [play_youtube].  However the environment behaves,
    as long as a read returns at most [BLOCKSIZE] frames, the media buffer
    never holds more than two seconds of audio and one block while a track
    is fed, and a read is only started when it holds at most two seconds.
    This is far below the capacity of ten seconds, so the block that a read
    returns is stored whole behind the frames that are there: the feed
    never makes [write] drop audio. *)
Theorem backpressure_bounds_media_buffer :
  (forall (script : list await_in) (p : pc) (w : world),
      blocks_within BLOCKSIZE script ->
      media_within FEED_LIMIT w ->
      (p = AwaitRead -> media_within (SAMPLE_RATE * 2) w) ->
      media_within FEED_LIMIT (snd (run script p w)) /\
      (fst (run script p w) = AwaitRead ->
       media_within (SAMPLE_RATE * 2) (snd (run script p w)))) /\
  (forall (i : await_in) (w : world) (block : Chunk),
      chunk i = Data block -> len block <= BLOCKSIZE ->
      media_within (SAMPLE_RATE * 2) w ->
      exists b,
        State.music_buffer (apply_actions (during i) (st w)) = Some b /\
        State.music_buffer (st (snd (step AwaitRead i w)))
          = Some (AudioBuffer.write block b) /\
        AudioBuffer.frames_of (AudioBuffer.write block b)
          = AudioBuffer.frames_of b ++ block) /\
  FEED_LIMIT = 100096 /\ FEED_LIMIT < AudioBuffer.maxsize AudioBuffer.default.
Proof.
  split; [|split; [|split; reflexivity]].
  - induction script as [|i script IH]; intros p w Hblk Hin Hread.
    + destruct p; simpl; auto.
    + inversion Hblk as [|i' s' Hi Hrest]; subst.
      destruct p; try (rewrite run_return; simpl; split; [exact Hin | discriminate]);
        (rewrite run_cons by discriminate;
         lazymatch goal with
         | |- context [step ?P i w] =>
             destruct (step_media P i w Hi Hin Hread) as [H1 H2]
         end;
         now apply IH).
  - intros i w block Hc Hlen Hin.
    pose proof (media_within_actions _ (during i) w Hin) as (b & Hb & Hwf & Hms & Hav).
    exists b.
    assert (Hb' : State.music_buffer (apply_actions (during i) (st w)) = Some b)
      by (destruct w; exact Hb).
    split; [exact Hb'|].
    unfold AudioBuffer.available_frames in Hav.
    assert (Hfit : AudioBuffer.current_size b + len block
                   <= AudioBuffer.maxsize b)
      by (rewrite Hms; unfold SAMPLE_RATE, BLOCKSIZE in *; lia).
    split; [|apply (write_fits_frames block b Hfit)].
    unfold step. rewrite Hc. rewrite Hb.
    set (w2 := with_st (State.set_music_buffer _) _).
    assert (E : State.music_buffer (st w2) = Some (AudioBuffer.write block b))
      by (subst w2; destruct w; reflexivity).
    rewrite <- E. apply loop_top_buffer.
Qed.

Lemma backpressure_bounds_media_buffer_witness :
  media_within FEED_LIMIT
    (snd (run [quiet; quiet; reads [tone 1]] AwaitSpawnYt demo_world)).
Proof.
  destruct backpressure_bounds_media_buffer as (H & _).
  apply H.
  - repeat constructor; vm_compute; congruence.
  - eexists. split; [reflexivity|].
    split; [reflexivity|]. split; [reflexivity|]. vm_compute. congruence.
  - discriminate.
Defined.

(** ** A track that plays to its end *)

Lemma with_st_same_buffer (w : world) (b : AudioBuffer.t) :
  State.music_buffer (st w) = Some b ->
  with_st (State.set_music_buffer (Some b)) w = w.
Proof.
  destruct w as [s y f t]. simpl. intros <-. now destruct s.
Qed.

Lemma with_st_no_actions (w : world) : with_st (apply_actions []) w = w.
Proof. now destruct w. Qed.

(** The reads of the loop, one block after the other, while nothing else
    runs, the flags are down and the blocks stay below the backpressure
    mark: each block is written and the loop comes back to its read. *)
Lemma feed_blocks (rest : list await_in) (blocks : list Chunk) :
  forall (w : world) (b : AudioBuffer.t),
    State.music_buffer (st w) = Some b ->
    State.paused (st w) = false -> State.skip (st w) = false ->
    AudioBuffer.current_size b + total blocks <= SAMPLE_RATE * 2 ->
    SAMPLE_RATE * 2 <= AudioBuffer.maxsize b ->
    run (map reads blocks ++ rest) AwaitRead w
    = run rest AwaitRead
        (with_st (State.set_music_buffer
                    (Some (AudioBuffer.writes blocks b))) w) /\
    AudioBuffer.frames_of (AudioBuffer.writes blocks b)
      = AudioBuffer.frames_of b ++ concat blocks /\
    AudioBuffer.current_size (AudioBuffer.writes blocks b)
      = AudioBuffer.current_size b + total blocks.
Proof.
  induction blocks as [|blk blocks IH]; intros w b Hb Hp Hk Hroom Hcap.
  - simpl. rewrite with_st_same_buffer by exact Hb.
    rewrite app_nil_r, total_nil. repeat split. lia.
  - rewrite total_cons in Hroom.
    pose proof (total_nonneg blocks) as Ht. pose proof (len_nonneg blk) as Hl.
    assert (Hfit : AudioBuffer.current_size b + len blk
                   <= AudioBuffer.maxsize b) by lia.
    destruct (write_fits_frames blk b Hfit) as [Hfr Hcs].
    set (b1 := AudioBuffer.write blk b) in *.
    set (w1 := with_st (State.set_music_buffer (Some b1)) w).
    assert (Hstep : step AwaitRead (reads blk) w = (AwaitRead, w1)).
    { unfold step. simpl during. rewrite with_st_no_actions. simpl chunk.
      cbv beta iota. rewrite Hb. fold b1. fold w1.
      unfold loop_top, pause_check, backpressure_check.
      replace (State.skip (st w1)) with false by (now destruct w).
      replace (State.paused (st w1)) with false by (now destruct w).
      replace (State.music_buffer (st w1)) with (Some b1) by (now destruct w).
      cbn [andb negb]. cbv beta iota. unfold AudioBuffer.available_frames.
      destruct (Z.gtb_spec (AudioBuffer.current_size b1) (SAMPLE_RATE * 2));
        [lia | reflexivity]. }
    simpl map. simpl app. rewrite run_cons by discriminate. rewrite Hstep.
    cbn [fst snd].
    destruct (IH w1 b1) as (Hrun & Hfr' & Hcs');
      [now destruct w | now destruct w | now destruct w | lia
      | unfold b1; rewrite write_maxsize; lia |].
    simpl AudioBuffer.writes.
    fold (AudioBuffer.writes blocks (AudioBuffer.write blk b)). fold b1.
    rewrite Hrun, Hfr', Hcs', Hfr, Hcs.
    split; [now destruct w|]. split.
    + simpl. now rewrite app_assoc.
    + rewrite total_cons. lia.
Qed.

(** A track whose stream ends on its own.  Both processes are spawned, the
    blocks that the decode process delivers are written to the media buffer
    in the order read, behind what the buffer held, and when the stream is
    at its end the coroutine waits for the pipe task and for both
    processes, kills the ones that do not exit in time, clears
    [music_task] and [yt_task] and returns [True].  Stated for a feed that
    stays below the backpressure mark while nothing else runs. *)
Theorem track_plays_to_the_end
    (url : string) (w : world) (b : AudioBuffer.t) (blocks : list Chunk)
    (t1 t2 : bool) :
  State.music_buffer (st w) = Some b ->
  State.paused (st w) = false -> State.skip (st w) = false ->
  AudioBuffer.current_size b + total blocks <= SAMPLE_RATE * 2 ->
  SAMPLE_RATE * 2 <= AudioBuffer.maxsize b ->
  let script := [quiet; quiet] ++ map reads blocks
                ++ [quiet; quiet; waits t1; waits t2] in
  exists w' kills,
    play_youtube url script w = (Return true, w') /\
    State.music_buffer (st w') = Some (AudioBuffer.writes blocks b) /\
    AudioBuffer.frames_of (AudioBuffer.writes blocks b)
      = AudioBuffer.frames_of b ++ concat blocks /\
    State.music_task (st w') = None /\ State.yt_task (st w') = None /\
    stopped (yt_status w') = true /\ stopped (ffmpeg_status w') = true /\
    trace w' = trace w ++ [Spawn YtDlp; Spawn Ffmpeg; PipeStart] ++ kills /\
    kills = (if t1 then [] else [Kill Ffmpeg])
            ++ (if t2 then [] else [Kill YtDlp]).
Proof.
  intros Hb Hp Hk Hroom Hcap script.
  unfold play_youtube, play_youtube_start. rewrite Hb.
  set (w0 := set_status YtDlp NotStarted (set_status Ffmpeg NotStarted w)).
  subst script. cbn [app].
  rewrite run_cons by discriminate.
  change (step AwaitSpawnYt quiet w0)
    with (AwaitSpawnFfmpeg,
          emit (Spawn YtDlp)
            (set_status YtDlp Running (with_st (apply_actions []) w0))).
  cbn [fst snd]. rewrite with_st_no_actions.
  set (w1 := emit (Spawn YtDlp) (set_status YtDlp Running w0)).
  rewrite run_cons by discriminate.
  set (w2 := emit PipeStart
               (with_st (State.set_tasks (Some Ffmpeg) (Some YtDlp))
                  (emit (Spawn Ffmpeg) (set_status Ffmpeg Running w1)))).
  assert (Hw2 : State.music_buffer (st w2) = Some b
                /\ State.paused (st w2) = false
                /\ State.skip (st w2) = false
                /\ yt_status w2 = Running /\ ffmpeg_status w2 = Running
                /\ trace w2 = trace w ++ [Spawn YtDlp; Spawn Ffmpeg; PipeStart])
    by (subst w2 w1 w0; destruct w as [s y f t]; simpl in *;
        repeat rewrite <- app_assoc; repeat split; auto).
  destruct Hw2 as (Hb2 & Hp2 & Hk2 & Hy2 & Hf2 & Ht2).
  assert (Hstep : step AwaitSpawnFfmpeg quiet w1 = (AwaitRead, w2)).
  { unfold step. simpl during. rewrite with_st_no_actions. simpl spawn_ok.
    cbv beta iota. fold w2.
    unfold loop_top, pause_check, backpressure_check.
    rewrite Hk2, Hp2, Hb2. cbn [andb negb]. cbv beta iota.
    unfold AudioBuffer.available_frames.
    pose proof (total_nonneg blocks).
    destruct (Z.gtb_spec (AudioBuffer.current_size b) (SAMPLE_RATE * 2));
      [lia | reflexivity]. }
  rewrite Hstep. cbn [fst snd].
  destruct (feed_blocks [quiet; quiet; waits t1; waits t2] blocks w2 b
              Hb2 Hp2 Hk2 Hroom Hcap) as (Hrun & Hfr & _).
  rewrite Hrun.
  set (w3 := with_st (State.set_music_buffer
                        (Some (AudioBuffer.writes blocks b))) w2).
  assert (Hw3 : State.music_buffer (st w3)
                = Some (AudioBuffer.writes blocks b)
                /\ yt_status w3 = Running /\ ffmpeg_status w3 = Running
                /\ trace w3 = trace w ++ [Spawn YtDlp; Spawn Ffmpeg; PipeStart])
    by (subst w3; destruct w2; simpl in *; repeat split; auto).
  destruct Hw3 as (Hb3 & Hy3 & Hf3 & Ht3). clearbody w3.
  destruct w3 as [s3 y3 f3 tr3]. simpl in *. subst y3 f3 tr3.
  destruct t1, t2; eexists _, _;
    (split; [reflexivity|]); simpl;
    repeat split; auto;
    repeat rewrite <- app_assoc; reflexivity.
Qed.

Lemma track_plays_to_the_end_witness :
  exists w',
    play_youtube "first"
      ([quiet; quiet] ++ map reads [[tone 4]; [tone 5]]
       ++ [quiet; quiet; waits true; waits false])
      (start_track "first" ["second"%string] idle_world) = (Return true, w') /\
    option_map AudioBuffer.frames_of (State.music_buffer (st w'))
      = Some [tone 1; tone 2; tone 3; tone 4; tone 5].
Proof.
  destruct (track_plays_to_the_end "first"
              (start_track "first" ["second"%string] idle_world)
              (AudioBuffer.write [tone 1; tone 2; tone 3] AudioBuffer.default)
              [[tone 4]; [tone 5]] true false
              ltac:(reflexivity) ltac:(reflexivity) ltac:(reflexivity)
              ltac:(vm_compute; congruence) ltac:(vm_compute; congruence))
    as (w' & kills & Hplay & Hbuf & Hfr & _).
  exists w'. split; [exact Hplay|]. rewrite Hbuf.
  exact (f_equal Some Hfr).
Defined.

(** ** The pause loop *)

Lemma keeps_pause_action (a : action) (s : State.t) :
  keeps_pause a = true ->
  State.paused s = true -> State.skip s = false ->
  State.paused (apply_action a s) = true /\
  State.skip (apply_action a s) = false.
Proof.
  intros Ha Hp Hk. destruct a; try discriminate; simpl.
  - unfold pause. destruct (truthy _); simpl; auto.
  - unfold volume. destruct (_ || _); simpl; auto.
  - destruct (audio_callback frames s) as [[out s']|] eqn:E; [|auto].
    destruct (audio_callback_inv _ _ _ _ E) as (? & ? & ? & ? & _ & _ & _ & ->).
    simpl. auto.
Qed.

Lemma keeps_pause_actions (l : list action) :
  forall s : State.t,
    forallb keeps_pause l = true ->
    State.paused s = true -> State.skip s = false ->
    State.paused (apply_actions l s) = true /\
    State.skip (apply_actions l s) = false.
Proof.
  induction l as [|a l IH]; intros s Hl Hp Hk; [auto|].
  simpl in Hl. apply andb_true_iff in Hl. destruct Hl as [Ha Hl].
  destruct (keeps_pause_action a s Ha Hp Hk) as [Hp1 Hk1].
  simpl. now apply IH.
Qed.

Lemma with_st_actions_app (l1 l2 : list action) (w : world) :
  with_st (apply_actions l2) (with_st (apply_actions l1) w)
  = with_st (apply_actions (l1 ++ l2)) w.
Proof.
  destruct w. unfold with_st, apply_actions. simpl. now rewrite fold_left_app.
Qed.

(** While the pause flag is set and no [resume] or [skip] runs, a track that
    waits in the pause loop stays there, however long: nothing is read from
    the decode process and nothing is written to the media buffer, no
    process is touched and nothing is logged; the state changes only by what
    the other commands and the callbacks do.  A track that is started while
    the flag is set spawns its processes and goes to the pause loop before
    its first read. *)
Theorem pause_holds_the_feed :
  (forall (script : list await_in) (w : world),
      forallb keeps_pause (all_during script) = true ->
      State.paused (st w) = true -> State.skip (st w) = false ->
      run script AwaitPauseSleep w
      = (AwaitPauseSleep, with_st (apply_actions (all_during script)) w) /\
      trace (snd (run script AwaitPauseSleep w)) = trace w /\
      State.paused (st (snd (run script AwaitPauseSleep w))) = true) /\
  (forall (w : world) (b : AudioBuffer.t),
      State.music_buffer (st w) = Some b ->
      State.paused (st w) = true -> State.skip (st w) = false ->
      exists w',
        run [quiet; quiet] AwaitSpawnYt w = (AwaitPauseSleep, w') /\
        State.music_buffer (st w') = Some b /\
        trace w' = trace w ++ [Spawn YtDlp; Spawn Ffmpeg; PipeStart]).
Proof.
  split.
  - assert (Hrun : forall script w,
               forallb keeps_pause (all_during script) = true ->
               State.paused (st w) = true -> State.skip (st w) = false ->
               run script AwaitPauseSleep w
               = (AwaitPauseSleep,
                  with_st (apply_actions (all_during script)) w)).
    { induction script as [|i script IH]; intros w Hall Hp Hk.
      - simpl. now destruct w.
      - unfold all_during in Hall. simpl in Hall.
        rewrite forallb_app in Hall. apply andb_true_iff in Hall.
        destruct Hall as [Hi Hrest].
        destruct (keeps_pause_actions (during i) (st w) Hi Hp Hk) as [Hp1 Hk1].
        set (w1 := with_st (apply_actions (during i)) w).
        assert (Hw1 : State.paused (st w1) = true /\ State.skip (st w1) = false)
          by (subst w1; destruct w; auto).
        destruct Hw1 as [Hp1' Hk1'].
        rewrite run_cons by discriminate.
        assert (Hstep : step AwaitPauseSleep i w = (AwaitPauseSleep, w1)).
        { unfold step. fold w1. unfold pause_check. now rewrite Hp1', Hk1'. }
        rewrite Hstep. cbn [fst snd].
        rewrite (IH w1 Hrest Hp1' Hk1'). subst w1.
        rewrite with_st_actions_app. reflexivity. }
    intros script w Hall Hp Hk. rewrite (Hrun script w Hall Hp Hk).
    split; [reflexivity|]. cbn [snd].
    destruct (keeps_pause_actions _ (st w) Hall Hp Hk) as [Hp' _].
    destruct w. auto.
  - intros w b Hb Hp Hk. destruct w as [s y f t]. simpl in *.
    eexists. unfold run, step. simpl.
    unfold loop_top, pause_check. simpl. rewrite Hk, Hp. simpl.
    split; [reflexivity|]. simpl. split; [exact Hb|].
    repeat rewrite <- app_assoc. reflexivity.
Qed.

Lemma pause_holds_the_feed_witness :
  let w := with_st (State.set_paused true) demo_world in
  run [mk_await [RunCallback 2; RunVolume 50] true true (Data [tone 4]);
       mk_await [RunPause] true true EndOfStream] AwaitPauseSleep w
  = (AwaitPauseSleep,
     with_st (apply_actions [RunCallback 2; RunVolume 50; RunPause]) w).
Proof.
  intros w. destruct pause_holds_the_feed as (H & _).
  destruct (H [mk_await [RunCallback 2; RunVolume 50] true true (Data [tone 4]);
               mk_await [RunPause] true true EndOfStream] w
              ltac:(reflexivity) ltac:(reflexivity) ltac:(reflexivity))
    as (Hrun & _).
  exact Hrun.
Defined.

(** ** The order of play *)











(** ** From bytes to frames *)

Lemma list_ind4 {A : Type} (P : list A -> Prop) :
  P [] -> (forall a, P [a]) -> (forall a b, P [a; b]) ->
  (forall a b c, P [a; b; c]) ->
  (forall a b c d l, P l -> P (a :: b :: c :: d :: l)) ->
  forall l, P l.
Proof.
  intros H0 H1 H2 H3 H4. fix F 1. intros l.
  destruct l as [|a [|b [|c [|d l]]]];
    [exact H0 | apply H1 | apply H2 | apply H3 | apply H4, F].
Qed.

Lemma list_ind2 {A : Type} (P : list A -> Prop) :
  P [] -> (forall a, P [a]) -> (forall a b l, P l -> P (a :: b :: l)) ->
  forall l, P l.
Proof.
  intros H0 H1 H2. fix F 1. intros l.
  destruct l as [|a [|b l]]; [exact H0 | apply H1 | apply H2, F].
Qed.

Lemma frombuffer_spec (chunk : list Byte.byte) :
  match frombuffer chunk with
  | Some a => length chunk = (4 * length a)%nat
  | None => forall k : nat, length chunk <> (4 * k)%nat
  end.
Proof.
  induction chunk as [|a|a b|a b c|a b c d l IH] using list_ind4;
    try (cbn; intros k; lia).
  - reflexivity.
  - cbn [frombuffer]. destruct (frombuffer l) as [xs|].
    + cbn [length] in *. lia.
    + intros k. cbn [length]. specialize (IH (k - 1)%nat). lia.
Qed.

Lemma reshape_spec (a : list float32) :
  match reshape a with
  | Some block => length a = (2 * length block)%nat /\ samples block = a
  | None => forall k : nat, length a <> (2 * k)%nat
  end.
Proof.
  induction a as [|x|x y l IH] using list_ind2.
  - split; reflexivity.
  - cbn. intros k. lia.
  - cbn [reshape]. destruct (reshape l) as [block|].
    + destruct IH as [Hl Hs]. cbn [length]. split; [lia|].
      simpl. now rewrite Hs.
    + intros k. cbn [length]. specialize (IH (k - 1)%nat). lia.
Qed.

Lemma to_frames_spec (chunk : list Byte.byte) :
  match to_frames chunk with
  | Some block => length chunk = (8 * length block)%nat
  | None => forall k : nat, length chunk <> (8 * k)%nat
  end.
Proof.
  unfold to_frames. pose proof (frombuffer_spec chunk) as Hf.
  destruct (frombuffer chunk) as [a|].
  - pose proof (reshape_spec a) as Hr. destruct (reshape a) as [block|].
    + lia.
    + intros k E. apply (Hr k). lia.
  - intros k E. apply (Hf (2 * k)%nat). lia.
Qed.

(** A read of [play_youtube] or [speak_text] becomes a block of frames
    exactly when its byte count is a multiple of eight, four bytes for each
    of the two samples of a frame, and the block has one frame per eight
    bytes, at most [BLOCKSIZE] for a read of at most the size asked for.  A
    read that ends inside a frame makes the conversion raise: [play_youtube]
    logs a playback error and returns [False] although the stream is
    intact, and [speak_text] returns [False]. *)
Theorem partial_frame_aborts (raw : list Byte.byte) :
  let n := Z.of_nat (length raw) in
  (n mod (CHANNELS * 4) = 0 ->
   exists block,
     to_frames raw = Some block /\ len block = n / (CHANNELS * 4) /\
     (n <= READ_SIZE -> len block <= BLOCKSIZE)) /\
  (n mod (CHANNELS * 4) <> 0 ->
   to_frames raw = None /\
   read_outcome (Some raw) = ReadError /\
   (forall (w : world) (i : await_in) (rest : list await_in),
       chunk i = read_outcome (Some raw) ->
       exists w',
         run (i :: rest) AwaitRead w = (Return false, w') /\
         trace w' = trace w ++ [Log PlaybackError]) /\
   (forall (s : State.t) (l : list action) (total_bytes : Z),
       fst (tts_step (TtsAwaitRead total_bytes)
              (mk_tts_await l (Some raw)) s) = TtsReturn false)).
Proof.
  intros n. pose proof (to_frames_spec raw) as H.
  change (CHANNELS * 4) with 8. split.
  - intros Hn. destruct (to_frames raw) as [block|].
    + exists block. split; [reflexivity|]. unfold len. subst n.
      rewrite H. split.
      * rewrite Nat2Z.inj_mul, Z.mul_comm, Z.div_mul by lia. reflexivity.
      * unfold READ_SIZE, BLOCKSIZE, CHANNELS. lia.
    + exfalso. subst n.
      pose proof (Z_div_mod_eq_full (Z.of_nat (length raw)) 8) as Hd.
      assert (0 <= Z.of_nat (length raw) / 8) by (apply Z.div_pos; lia).
      apply (H (Z.to_nat (Z.of_nat (length raw) / 8))). lia.
  - intros Hn.
    assert (Hnone : to_frames raw = None).
    { destruct (to_frames raw) as [block|]; [|reflexivity].
      exfalso. apply Hn. subst n. rewrite H, Nat2Z.inj_mul, Z.mul_comm.
      apply Z.mod_mul. lia. }
    assert (Hne : raw <> []) by (intros ->; apply Hn; reflexivity).
    assert (Herr : read_outcome (Some raw) = ReadError).
    { unfold read_outcome. destruct raw; [congruence|]. now rewrite Hnone. }
    split; [exact Hnone|]. split; [exact Herr|]. split.
    + intros w i rest Hi. apply read_error_returns_false. congruence.
    + intros s l total_bytes. unfold tts_step. simpl.
      destruct raw; [congruence|]. now rewrite Hnone.
Qed.

Lemma partial_frame_aborts_witness :
  to_frames [Byte.x00; Byte.x00; Byte.x80; Byte.x3f;
             Byte.x00; Byte.x00; Byte.x00; Byte.x3f; Byte.x01] = None /\
  exists block,
    to_frames [Byte.x00; Byte.x00; Byte.x80; Byte.x3f;
               Byte.x00; Byte.x00; Byte.x00; Byte.x3f] = Some block /\
    len block = 1.
Proof.
  split.
  - destruct (partial_frame_aborts
                [Byte.x00; Byte.x00; Byte.x80; Byte.x3f;
                 Byte.x00; Byte.x00; Byte.x00; Byte.x3f; Byte.x01])
      as (_ & H).
    destruct (H ltac:(vm_compute; congruence)) as (Hn & _). exact Hn.
  - destruct (partial_frame_aborts
                [Byte.x00; Byte.x00; Byte.x80; Byte.x3f;
                 Byte.x00; Byte.x00; Byte.x00; Byte.x3f])
      as (H & _).
    destruct (H ltac:(reflexivity)) as (block & Hb & Hl & _).
    exists block. split; [exact Hb | exact Hl].
Defined.

(** ** What the buffers can hold *)

Lemma Zdigits2_lt (m k : Z) : 0 < m -> 0 <= k -> m < 2 ^ k -> Zdigits2 m <= k.
Proof.
  intros Hm Hk Hlt. rewrite Zdigits2_log2 by exact Hm.
  apply Z.log2_lt_pow2 in Hlt; lia.
Qed.

Lemma Zdigits2_ge (m k : Z) : 0 < m -> 0 <= k -> 2 ^ k <= m -> k < Zdigits2 m.
Proof.
  intros Hm Hk Hle. rewrite Zdigits2_log2 by exact Hm.
  apply Z.log2_le_pow2 in Hle; lia.
Qed.

(** Every 32-bit word encodes a value of the format. *)
Lemma float32_of_bits_valid (x : Z) : valid32 (float32_of_bits x).
Proof.
  unfold float32_of_bits.
  assert (He' : Z.land (Z.shiftr x 23) 255 = Z.shiftr x 23 mod 2 ^ 8)
    by (change 255 with (Z.ones 8); apply Z.land_ones; lia).
  assert (Hm' : Z.land x 8388607 = x mod 2 ^ 23)
    by (change 8388607 with (Z.ones 23); apply Z.land_ones; lia).
  rewrite He', Hm'. clear He' Hm'.
  pose proof (Z.mod_pos_bound (Z.shiftr x 23) (2 ^ 8) ltac:(lia)) as He.
  pose proof (Z.mod_pos_bound x (2 ^ 23) ltac:(lia)) as Hm.
  set (e := Z.shiftr x 23 mod 2 ^ 8) in *. set (m := x mod 2 ^ 23) in *.
  destruct (Z.eqb_spec e 0) as [E0|E0].
  - destruct m as [|p|p] eqn:Em; try reflexivity.
    apply valid32_finite.
    pose proof (Zdigits2_lt (Zpos p) 23 ltac:(lia) ltac:(lia) ltac:(lia)).
    pose proof (Zdigits2_pos (Zpos p) ltac:(lia)).
    unfold fexp32. lia.
  - destruct (Z.eqb_spec e 255) as [E1|E1].
    + destruct (m =? 0); reflexivity.
    + destruct (m + 8388608) as [|p|p] eqn:Em; try reflexivity.
      apply valid32_finite.
      change (2 ^ 23) with 8388608 in Hm. change (2 ^ 8) with 256 in He.
      pose proof (Zdigits2_lt (Zpos p) 24 ltac:(lia) ltac:(lia)
                    ltac:(change (2 ^ 24) with 16777216; lia)).
      pose proof (Zdigits2_ge (Zpos p) 23 ltac:(lia) ltac:(lia)
                    ltac:(change (2 ^ 23) with 8388608; lia)).
      unfold fexp32. lia.
Qed.

Lemma frombuffer_valid (raw : list Byte.byte) :
  forall a, frombuffer raw = Some a -> Forall valid32 a.
Proof.
  induction raw as [|b0|b0 b1|b0 b1 b2|b0 b1 b2 b3 l IH] using list_ind4;
    intros a H; try discriminate.
  - injection H as <-. constructor.
  - cbn [frombuffer] in H. destruct (frombuffer l) as [xs|]; [|discriminate].
    injection H as <-. constructor; [apply float32_of_bits_valid | now apply IH].
Qed.

Lemma samples_app (c d : Chunk) : samples (c ++ d) = samples c ++ samples d.
Proof. unfold samples. apply flat_map_app. Qed.

Lemma samples_concat_suffix (P : float32 -> Prop) (old kept : list Chunk) :
  Forall P (samples (concat (old ++ kept))) -> Forall P (samples (concat kept)).
Proof.
  rewrite concat_app, samples_app. intros H. now apply Forall_app in H.
Qed.

Lemma drop_oldest_suffix (data_len maxsz : Z) (buf : list Chunk) :
  forall cur, exists old,
    buf = old ++ fst (AudioBuffer.drop_oldest buf cur data_len maxsz).
Proof.
  induction buf as [|c rest IH]; intros cur.
  - exists []. reflexivity.
  - simpl. destruct (cur + data_len >? maxsz).
    + destruct (IH (cur - len c)) as (old & E). exists (c :: old).
      simpl. now rewrite <- E.
    + exists []. reflexivity.
Qed.

Lemma write_keeps_samples (P : float32 -> Prop) (data : Chunk) (b : AudioBuffer.t) :
  Forall P (samples data) ->
  Forall P (samples (AudioBuffer.frames_of b)) ->
  Forall P (samples (AudioBuffer.frames_of (AudioBuffer.write data b))).
Proof.
  intros Hd Hb. unfold AudioBuffer.write.
  destruct (len data =? 0); [exact Hb|].
  assert (Hnew : forall kept cur,
             Forall P (samples (concat kept)) ->
             Forall P (samples (AudioBuffer.frames_of
                        (AudioBuffer.mk (kept ++ [data])
                           (AudioBuffer.maxsize b) cur)))).
  { intros kept cur Hk. unfold AudioBuffer.frames_of. simpl.
    rewrite concat_app, samples_app. simpl. rewrite app_nil_r.
    apply Forall_app. auto. }
  destruct (_ >? _).
  - destruct (drop_oldest_suffix (len data) (AudioBuffer.maxsize b)
                (AudioBuffer.buffer b) (AudioBuffer.current_size b))
      as (old & E).
    destruct (AudioBuffer.drop_oldest _ _ _ _) as [kept cur]. simpl in E.
    apply Hnew. unfold AudioBuffer.frames_of in Hb. rewrite E in Hb.
    now apply samples_concat_suffix in Hb.
  - now apply Hnew.
Qed.

(** The buffers hold [float32] values only.  Every sample that the
    conversion of a byte string yields is a value of the format (a number,
    an infinity or a NaN, all of which occur), and a buffer whose samples
    are such values keeps that property when a converted block is written,
    when a block is read, and when it is cleared; the block that a read
    returns holds such values too. *)
Theorem buffers_hold_float32_values :
  (forall (raw : list Byte.byte) (block : Chunk),
      to_frames raw = Some block -> Forall valid32 (samples block)) /\
  (forall (block : Chunk) (b : AudioBuffer.t),
      Forall valid32 (samples block) ->
      float32_buffer (Some b) ->
      float32_buffer (Some (AudioBuffer.write block b))) /\
  (forall (n : Z) (b b' : AudioBuffer.t) (block : Chunk),
      AudioBuffer.wf b -> float32_buffer (Some b) ->
      AudioBuffer.read n b = Some (block, b') ->
      float32_buffer (Some b') /\ Forall valid32 (samples block)) /\
  (forall b : AudioBuffer.t, float32_buffer (Some (AudioBuffer.clear b))) /\
  float32_of_bits 2139095040 = S754_infinity false /\
  float32_of_bits 2143289344 = S754_nan /\
  float32_of_bits 1065353216 = pow2 0.
Proof.
  split; [|split; [|split; [|split; [|repeat split]]]].
  - intros raw block H. unfold to_frames in H.
    destruct (frombuffer raw) as [a|] eqn:E; [|discriminate].
    pose proof (reshape_spec a) as Hr. rewrite H in Hr.
    destruct Hr as [_ ->]. now apply (frombuffer_valid raw).
  - intros block b Hblk Hb. now apply write_keeps_samples.
  - intros n b b' block Hwf Hb Hread.
    destruct (Z.ltb_spec n 0) as [Hneg|Hn].
    { unfold AudioBuffer.read in Hread. apply Z.ltb_lt in Hneg.
      rewrite Hneg in Hread. discriminate. }
    destruct (read_spec n b Hn Hwf) as (b1 & Hr & Hf & _).
    rewrite Hr in Hread. injection Hread as <- <-.
    simpl in *. split.
    + rewrite Hf.
      rewrite <- (firstn_skipn (Z.to_nat n) (AudioBuffer.frames_of b)) in Hb.
      rewrite samples_app in Hb. now apply Forall_app in Hb.
    + rewrite samples_app. apply Forall_app. split.
      * rewrite <- (firstn_skipn (Z.to_nat n) (AudioBuffer.frames_of b)) in Hb.
        rewrite samples_app in Hb. now apply Forall_app in Hb.
      * apply Forall_forall. intros x Hx. unfold samples in Hx.
        apply in_flat_map in Hx. destruct Hx as (fr & Hfr & Hx).
        apply repeat_spec in Hfr. subst fr.
        destruct Hx as [<-|[<-|[]]]; reflexivity.
  - intros b. constructor.
Qed.

Lemma buffers_hold_float32_values_witness :
  exists block,
    to_frames [Byte.x00; Byte.x00; Byte.x80; Byte.x3f;
               Byte.x00; Byte.x00; Byte.xc0; Byte.x7f] = Some block /\
    Forall valid32 (samples block) /\
    float32_buffer (Some (AudioBuffer.write block AudioBuffer.default)).
Proof.
  destruct buffers_hold_float32_values as (Hdec & Hwr & _).
  eexists. split; [reflexivity|].
  assert (H : Forall valid32 (samples [(pow2 0, S754_nan)]))
    by (apply (Hdec [Byte.x00; Byte.x00; Byte.x80; Byte.x3f;
                     Byte.x00; Byte.x00; Byte.xc0; Byte.x7f]); reflexivity).
  split; [exact H|]. apply Hwr; [exact H | constructor].
Defined.

(** ** [speak_text] *)

Lemma tts_run_cons (i : tts_await) (script : list tts_await) (p : tts_pc)
    (s : State.t) :
  (forall ok, p <> TtsReturn ok) ->
  tts_run (i :: script) p s
  = tts_run script (fst (tts_step p i s)) (snd (tts_step p i s)).
Proof.
  intros H.
  destruct p; try (exfalso; eapply H; reflexivity);
    lazymatch goal with
    | |- tts_run _ ?P _ = _ =>
        change (tts_run (i :: script) P s)
          with (let '(p', s') := tts_step P i s in tts_run script p' s')
    end;
    destruct (tts_step _ i s); reflexivity.
Qed.

Lemma tts_run_return (script : list tts_await) (ok : bool) (s : State.t) :
  tts_run script (TtsReturn ok) s = (TtsReturn ok, s).
Proof. destruct script; reflexivity. Qed.

Lemma set_tts_buffer_same (s : State.t) (b : AudioBuffer.t) :
  State.tts_buffer s = Some b -> State.set_tts_buffer (Some b) s = s.
Proof. destruct s. simpl. now intros ->. Qed.

(** The read loop of [speak_text] while nothing else runs: every block is
    written, and the bytes are counted. *)
Lemma tts_feed (rest : list tts_await) (raws : list (list Byte.byte))
    (blocks : list Chunk) :
  Forall2 converts raws blocks ->
  forall (s : State.t) (b : AudioBuffer.t) (total_bytes : Z),
    State.tts_buffer s = Some b ->
    tts_run (map returns raws ++ rest) (TtsAwaitRead total_bytes) s
    = tts_run rest (TtsAwaitRead (total_bytes + byte_count raws))
        (State.set_tts_buffer (Some (AudioBuffer.writes blocks b)) s).
Proof.
  induction 1 as [|raw blk raws blocks [Hne Hconv] _ IH];
    intros s b total_bytes Hb.
  - simpl. unfold byte_count. simpl.
    rewrite Z.add_0_r, set_tts_buffer_same by exact Hb. reflexivity.
  - simpl map. simpl app. rewrite tts_run_cons by discriminate.
    assert (Hstep : tts_step (TtsAwaitRead total_bytes) (returns raw) s
                    = (TtsAwaitRead (total_bytes + Z.of_nat (length raw)),
                       State.set_tts_buffer
                         (Some (AudioBuffer.write blk b)) s)).
    { unfold tts_step. simpl. destruct raw as [|x raw]; [congruence|].
      now rewrite Hconv, Hb. }
    rewrite Hstep. cbn [fst snd].
    rewrite (IH _ (AudioBuffer.write blk b)) by (now destruct s).
    replace (total_bytes + Z.of_nat (length raw) + byte_count raws)
      with (total_bytes + byte_count (raw :: raws))
      by (unfold byte_count; simpl; rewrite length_app; lia).
    reflexivity.
Qed.

(** With a key and a buffer, the request accepted and the process spawned,
    [speak_text] is at its read loop; after the reads it has written the
    blocks. *)
Lemma speak_text_run
    (api_key : option string) (s : State.t) (b : AudioBuffer.t)
    (raws : list (list Byte.byte)) (blocks : list Chunk)
    (tail : list tts_await) :
  truthy api_key = true -> State.tts_buffer s = Some b ->
  Forall2 converts raws blocks ->
  speak_text api_key
    ([returns []; returns []] ++ map returns raws ++ tail) s
  = tts_run tail (TtsAwaitRead (byte_count raws))
      (State.set_tts_buffer (Some (AudioBuffer.writes blocks b)) s).
Proof.
  intros Hk Hb Hall.
  unfold speak_text, speak_text_start. rewrite Hk, Hb. cbn [negb is_some].
  cbn [app]. rewrite tts_run_cons by discriminate.
  change (tts_step TtsAwaitRequest (returns []) s) with (TtsAwaitSpawn, s).
  cbn [fst snd]. rewrite tts_run_cons by discriminate.
  change (tts_step TtsAwaitSpawn (returns []) s) with (TtsAwaitRead 0, s).
  cbn [fst snd].
  now rewrite (tts_feed tail raws blocks Hall s b 0 Hb), Z.add_0_l.
Qed.

(** [speak_text] from its guards to its return.  Without an API key (none,
    or the empty string) or without an announcement buffer it returns
    [False] at once and changes nothing; when the request fails or the
    decode process cannot be spawned it returns [False] and nothing is
    written.  Otherwise, while nothing else runs, the blocks that the decode
    process delivers are written to the announcement buffer in the order
    read, each as soon as it is read, the bytes read are counted, eight for
    each frame, and after the end of the stream and the exit of the process
    it returns [True]; nothing but the announcement buffer has changed. *)
Theorem speak_text_writes_what_it_reads
    (api_key : option string) (s : State.t) :
  (truthy api_key = false \/ State.tts_buffer s = None ->
   forall script, speak_text api_key script s = (TtsReturn false, s)) /\
  (truthy api_key = true -> is_some (State.tts_buffer s) = true ->
   forall rest,
     speak_text api_key (mk_tts_await [] None :: rest) s
       = (TtsReturn false, s) /\
     speak_text api_key (returns [] :: mk_tts_await [] None :: rest) s
       = (TtsReturn false, s)) /\
  (forall (b : AudioBuffer.t) (raws : list (list Byte.byte))
          (blocks : list Chunk),
      truthy api_key = true -> State.tts_buffer s = Some b ->
      Forall2 converts raws blocks ->
      let s' := State.set_tts_buffer
                  (Some (AudioBuffer.writes blocks b)) s in
      speak_text api_key
        ([returns []; returns []] ++ map returns raws ++ [returns []]) s
        = (TtsAwaitExit (byte_count raws), s') /\
      speak_text api_key
        ([returns []; returns []] ++ map returns raws
         ++ [returns []; returns []]) s
        = (TtsReturn true, s') /\
      byte_count raws = total blocks * (CHANNELS * 4)).
Proof.
  split; [|split].
  - intros H script. unfold speak_text, speak_text_start.
    destruct H as [H|H].
    + rewrite H. simpl. apply tts_run_return.
    + rewrite H. destruct (negb (truthy api_key)); apply tts_run_return.
  - intros Hk Hb rest. unfold speak_text, speak_text_start.
    rewrite Hk, Hb. simpl. split; apply tts_run_return.
  - intros b raws blocks Hk Hb Hall s'.
    rewrite !(speak_text_run api_key s b raws blocks _ Hk Hb Hall). fold s'.
    split; [reflexivity|]. split; [reflexivity|].
    clear - Hall. change (CHANNELS * 4) with 8.
    induction Hall as [|raw blk raws blocks [_ Hc] _ IH].
    + reflexivity.
    + unfold byte_count in *. simpl. rewrite length_app, total_cons.
      pose proof (to_frames_spec raw) as Hs. rewrite Hc in Hs.
      unfold len. lia.
Qed.

Lemma speak_text_writes_what_it_reads_witness :
  let raw := [Byte.x00; Byte.x00; Byte.x80; Byte.x3f;
              Byte.x00; Byte.x00; Byte.x80; Byte.x3f] in
  speak_text (Some "key"%string)
    ([returns []; returns []] ++ map returns [raw] ++ [returns []; returns []])
    demo_state
  = (TtsReturn true,
     State.set_tts_buffer
       (Some (AudioBuffer.writes [[tone 0]]
                (AudioBuffer.write [tone 1] AudioBuffer.default)))
       demo_state) /\
  speak_text None [] demo_state = (TtsReturn false, demo_state).
Proof.
  intros raw.
  destruct (speak_text_writes_what_it_reads (Some "key"%string) demo_state)
    as (_ & _ & H).
  destruct (H (AudioBuffer.write [tone 1] AudioBuffer.default) [raw]
              [[tone 0]] ltac:(reflexivity) ltac:(reflexivity)
              ltac:(repeat constructor; discriminate))
    as (_ & Hrun & _).
  split; [exact Hrun|].
  destruct (speak_text_writes_what_it_reads None demo_state) as (Hg & _).
  apply Hg. left. reflexivity.
Defined.



(** ** The queue commands *)

Lemma enumerate_spec {A : Type} (items : list A) :
  forall (start i : Z) (x : A),
    In (i, x) (enumerate start items) <->
    exists k : nat, nth_error items k = Some x /\ i = start + Z.of_nat k.
Proof.
  induction items as [|y items IH]; intros start i x; simpl.
  - split; [contradiction|]. intros (k & H & _). destruct k; discriminate.
  - rewrite IH. split.
    + intros [E|(k & H & ->)].
      * injection E as <- <-. exists 0%nat. split; [reflexivity | lia].
      * exists (S k). split; [exact H | lia].
    + intros ([|k] & H & ->).
      * left. simpl in H. injection H as ->. f_equal. lia.
      * right. exists k. split; [exact H | lia].
Qed.

Lemma nth_error_pop {A : Type} (items : list A) (k : nat) (x : A) :
  nth_error items k = Some x ->
  items = firstn k items ++ x :: skipn (S k) items /\
  length (firstn k items) = k.
Proof.
  revert k. induction items as [|y items IH]; intros [|k] H; try discriminate.
  - injection H as ->. auto.
  - simpl in H. destruct (IH k H) as [E L]. split.
    + change (y :: items
              = y :: (firstn k items ++ x :: skipn (S k) items)).
      now rewrite <- E.
    + simpl. now rewrite L.
Qed.

Lemma remove_valid (index : Z) (w : world) (url : string) :
  nth_error (State.queue (st w)) (Z.to_nat (index - 1)) = Some url ->
  1 <= index ->
  let k := Z.to_nat (index - 1) in
  let items := State.queue (st w) in
  remove index w
  = (save_queue
       (with_st (State.set_queue (firstn k items ++ skipn (S k) items)) w),
     Removed url).
Proof.
  intros Hn H1 k items. unfold remove.
  assert (Hlt : (k < length items)%nat)
    by (apply nth_error_Some; subst k items; congruence).
  destruct (Z.ltb_spec index 1) as [|_]; [lia|].
  destruct (Z.gtb_spec index (qsize (State.queue (st w)))) as [Hgt|_].
  { unfold qsize in Hgt. subst k items. lia. }
  cbn [orb]. unfold pop. change (Z.to_nat (index - 1)) with k.
  change (nth_error (State.queue (st w)) k = Some url) in Hn.
  rewrite Hn. reflexivity.
Qed.

(** [remove] and the listing of [queue] agree.  The command [queue] lists
    the requests numbered from 1, behind the current track when there is
    one.  [remove] with a listed number takes out the request listed under
    it and nothing else, keeps the order of the others, saves the new queue
    and names the request removed; with any other number it changes
    nothing and reports the size of the queue. *)
Theorem remove_takes_the_listed_entry (index : Z) (w : world) :
  let items := State.queue (st w) in
  (forall url, In (index, url) (enumerate 1 items) ->
     exists before after,
       items = before ++ url :: after /\
       qsize before = index - 1 /\
       remove index w
       = (save_queue (with_st (State.set_queue (before ++ after)) w),
          Removed url) /\
       trace (fst (remove index w))
       = trace w ++ [SaveQueue (before ++ after)]) /\
  ((forall url, ~ In (index, url) (enumerate 1 items)) ->
   remove index w = (w, InvalidIndex (qsize items))) /\
  (show_queue (st w) = QueueIsEmpty /\ items = [] \/
   exists now_playing,
     show_queue (st w) = CurrentQueue now_playing (enumerate 1 items)).
Proof.
  intros items. split; [|split].
  - intros url Hin. apply enumerate_spec in Hin.
    destruct Hin as (k & Hn & ->).
    replace (Z.to_nat (1 + Z.of_nat k - 1)) with k in * by lia.
    destruct (nth_error_pop items k url Hn) as [E L].
    exists (firstn k items), (skipn (S k) items).
    split; [exact E|]. split; [unfold qsize; lia|].
    pose proof (remove_valid (1 + Z.of_nat k) w url) as Hr.
    replace (Z.to_nat (1 + Z.of_nat k - 1)) with k in Hr by lia.
    specialize (Hr Hn ltac:(lia)). cbv zeta in Hr. fold items in Hr.
    rewrite Hr. split; [reflexivity|]. now destruct w.
  - intros Hnone. unfold remove. fold items.
    destruct (Z.ltb_spec index 1) as [|H1]; [reflexivity|].
    destruct (Z.gtb_spec index (qsize items)) as [|H2]; [reflexivity|].
    exfalso. unfold qsize in H2.
    destruct (nth_error items (Z.to_nat (index - 1))) as [url|] eqn:E.
    + apply (Hnone url). apply enumerate_spec.
      exists (Z.to_nat (index - 1)). split; [exact E | lia].
    + apply nth_error_None in E. lia.
  - unfold show_queue. fold items.
    destruct (is_empty items && negb (truthy (State.current_track (st w))))
      eqn:E.
    + left. split; [reflexivity|]. apply andb_true_iff in E.
      destruct items; [reflexivity | destruct E; discriminate].
    + right. eauto.
Qed.

Lemma remove_takes_the_listed_entry_witness :
  remove 2 idle_world
  = (save_queue (with_st (State.set_queue (["first"] ++ []))%string idle_world),
     Removed "second") /\
  remove 3 idle_world = (idle_world, InvalidIndex 2).
Proof.
  destruct (remove_takes_the_listed_entry 2 idle_world) as (Hin & _).
  destruct (remove_takes_the_listed_entry 3 idle_world) as (_ & Hout & _).
  split.
  - destruct (Hin "second"%string ltac:(right; left; reflexivity))
      as (before & after & E & Hk & Hr & _).
    rewrite Hr.
    destruct before as [|x [|y before]]; simpl in E; try discriminate;
      try (unfold qsize in Hk; simpl in Hk; lia).
    injection E as <- <-. reflexivity.
  - apply Hout. intros url [H|[H|[]]]; discriminate.
Defined.

(** [play] puts the request found at the end of the queue, behind every
    request made before, and saves the queue; the position it reports is
    the number under which [queue] lists the request, so that [remove] with
    that position takes the request out again and restores the queue; the
    duration is shown as minutes and seconds with
    [60 * minutes + seconds = duration] and [0 <= seconds < 60].  When the
    search finds nothing the queue is left alone and nothing is saved.
    When the duration is not an [int] the command answers with an error,
    after the request was queued and saved. *)
Theorem play_appends_to_the_queue (info : VideoInfo.t) (w : world) :
  let w' := fst (play (Some info) w) in
  let position := qsize (State.queue (st w')) in
  State.queue (st w') = State.queue (st w) ++ [VideoInfo.url info] /\
  trace w' = trace w ++ [SaveQueue (State.queue (st w'))] /\
  In (position, VideoInfo.url info) (enumerate 1 (State.queue (st w'))) /\
  snd (remove position w') = Removed (VideoInfo.url info) /\
  State.queue (st (fst (remove position w'))) = State.queue (st w) /\
  (forall d, VideoInfo.duration info = Some d ->
     snd (play (Some info) w) = AddedToQueue position info (d / 60) (d mod 60)
     /\ 60 * (d / 60) + d mod 60 = d /\ 0 <= d mod 60 < 60) /\
  (VideoInfo.duration info = None ->
   snd (play (Some info) w) = CommandError) /\
  play None w = (w, CouldNotFind).
Proof.
  intros w' position.
  set (q := State.queue (st w)). set (url := VideoInfo.url info).
  assert (Hw' : w' = save_queue (with_st (fun s => State.set_queue
                                            (State.queue s ++ [url]) s) w)).
  { subst w'. unfold play. now destruct (VideoInfo.duration info). }
  assert (Hq : State.queue (st w') = q ++ [url])
    by (rewrite Hw'; now destruct w).
  assert (Hpos : position = Z.of_nat (length q) + 1).
  { subst position. rewrite Hq. unfold qsize. rewrite length_app. simpl. lia. }
  assert (Hn : nth_error (State.queue (st w')) (Z.to_nat (position - 1))
               = Some url).
  { rewrite Hq, Hpos.
    replace (Z.to_nat (Z.of_nat (length q) + 1 - 1)) with (length q) by lia.
    rewrite nth_error_app2, Nat.sub_diag by lia. reflexivity. }
  pose proof (remove_valid position w' url Hn ltac:(lia)) as Hr.
  cbv zeta in Hr.
  split; [exact Hq|].
  split; [rewrite Hq, Hw'; destruct w; simpl; reflexivity|].
  split; [apply enumerate_spec; exists (Z.to_nat (position - 1));
          split; [exact Hn | lia]|].
  split; [now rewrite Hr|].
  split.
  { rewrite Hr. rewrite Hq, Hpos.
    replace (Z.to_nat (Z.of_nat (length q) + 1 - 1)) with (length q) by lia.
    assert (Hl : firstn (length q) (q ++ [url])
                 ++ skipn (S (length q)) (q ++ [url]) = q).
    { rewrite firstn_app, Nat.sub_diag, firstn_all.
      rewrite skipn_all2 by (rewrite length_app; simpl; lia).
      simpl. now rewrite !app_nil_r. }
    rewrite Hl. reflexivity. }
  split; [|split].
  - intros d Hd. split.
    { subst position. rewrite Hq. unfold play. rewrite Hd. reflexivity. }
    pose proof (Z.div_mod d 60 ltac:(lia)).
    pose proof (Z.mod_pos_bound d 60 ltac:(lia)). lia.
  - intros Hd. unfold play. now rewrite Hd.
  - reflexivity.
Qed.

Lemma play_appends_to_the_queue_witness :
  let info := VideoInfo.mk "Song" "https://youtu.be/x" (Some 215) "Band" in
  snd (play (Some info) idle_world) = AddedToQueue 3 info 3 35.
Proof.
  intros info.
  destruct (play_appends_to_the_queue info idle_world)
    as (_ & _ & _ & _ & _ & H & _).
  destruct (H 215 eq_refl) as (Hr & _). exact Hr.
Defined.

(** ** The playlist file *)

Lemma play_trace (info : VideoInfo.t) (w : world) :
  trace (fst (play (Some info) w))
  = trace w ++ [SaveQueue (State.queue (st w) ++ [VideoInfo.url info])].
Proof.
  unfold play. destruct (VideoInfo.duration info); destruct w; reflexivity.
Qed.

Lemma playlist_file_app (f0 : file) (t1 t2 : list event) :
  playlist_file f0 (t1 ++ t2) = playlist_file (playlist_file f0 t1) t2.
Proof. unfold playlist_file. apply fold_left_app. Qed.

(** The queue on disk.  What a successful [save_queue] writes, [load_queue]
    reads back: the queued requests, in order.  [play], a [remove] that
    removes and the end of a track leave the file equal to the queue;
    taking a request off the queue for playing does not touch the file,
    which then still lists it.  [load_queue] gives the empty list when the file is
    absent, when it cannot be read or parsed, when the document is not an
    object, and when the object has no key ["queue"]. *)
Theorem saved_queue_loads_back (f0 : file) (w : world) :
  load_queue (playlist_file f0 (trace (save_queue w)))
    = JArray (map JString (State.queue (st w))) /\
  (forall info,
     load_queue (playlist_file f0 (trace (fst (play (Some info) w))))
     = JArray (map JString (State.queue (st w) ++ [VideoInfo.url info]))) /\
  (forall index,
     trace (fst (remove index w)) = trace w \/
     load_queue (playlist_file f0 (trace (fst (remove index w))))
     = JArray (map JString (State.queue (st (fst (remove index w)))))) /\
  (forall ok url,
     load_queue (playlist_file f0 (trace (finish_track ok url w)))
     = JArray (map JString (State.queue (st w)))) /\
  (forall url rest,
     playlist_file f0 (trace (start_track url rest w))
     = playlist_file f0 (trace w)) /\
  load_queue NoFile = JArray [] /\
  load_queue Unreadable = JArray [] /\
  (forall v, (forall members, v <> JObject members) ->
             load_queue (Document v) = JArray []) /\
  (forall members, get "queue" members = None ->
                   load_queue (Document (JObject members)) = JArray []).
Proof.
  assert (Hsave : forall w0 : world,
             load_queue (playlist_file f0 (trace (save_queue w0)))
             = JArray (map JString (State.queue (st w0)))).
  { intros w0. destruct w0 as [s0 y0 c0 t0].
    change (trace (save_queue (mk_world s0 y0 c0 t0)))
      with (t0 ++ [SaveQueue (State.queue s0)]).
    rewrite playlist_file_app. reflexivity. }
  split; [apply Hsave|]. split; [|split; [|split; [|split]]].
  - intros info. rewrite play_trace, playlist_file_app. reflexivity.
  - intros index. unfold remove.
    destruct (_ || _); [now left|].
    destruct (pop _ _) as [[removed items']|]; [|now left].
    right. cbn [fst]. rewrite Hsave. reflexivity.
  - intros ok url. unfold finish_track. rewrite Hsave.
    destruct ok, w; reflexivity.
  - intros url rest. destruct w as [s0 y0 c0 t0].
    change (trace (start_track url rest (mk_world s0 y0 c0 t0)))
      with (t0 ++ [Log (NowPlaying url)]).
    rewrite playlist_file_app. reflexivity.
  - repeat split.
    + intros v Hv. destruct v; try reflexivity. now destruct (Hv members).
    + intros members Hn. simpl. now rewrite Hn.
Qed.

Lemma saved_queue_loads_back_witness :
  load_queue (Document (JArray [JString "a"])) = JArray [] /\
  load_queue (Document (JObject [("other"%string, JNull)])) = JArray [].
Proof.
  destruct (saved_queue_loads_back NoFile idle_world)
    as (_ & _ & _ & _ & _ & _ & _ & Hv & Hm).
  split; [apply Hv; discriminate | apply Hm; reflexivity].
Defined.

(** ** The audio device *)

Lemma output_lines_spec
    (devices : list Device.t) (default_output : Z) (b : Bot.t)
    (i : Z) (name : string) (channels : Z) (cur def : bool) :
  In (i, name, channels, cur, def) (output_lines devices default_output b) <->
  exists d,
    nth_error devices (Z.to_nat i) = Some d /\ 0 <= i /\
    0 < Device.output_channels d /\
    name = Device.name_of d /\ channels = Device.output_channels d /\
    cur = is_current i b /\ def = (i =? default_output).
Proof.
  unfold output_lines. rewrite in_flat_map. split.
  - intros ([j d] & Hin & H). apply enumerate_spec in Hin.
    destruct Hin as (k & Hk & ->).
    destruct (Z.gtb_spec (Device.output_channels d) 0) as [Hpos|];
      [|contradiction].
    destruct H as [H|[]]. injection H as <- <- <- <- <-.
    exists d. cbn [Z.add]. rewrite Nat2Z.id.
    repeat split; auto; lia.
  - intros (d & Hn & Hi & Hpos & -> & -> & -> & ->).
    exists (i, d). split.
    + apply enumerate_spec. exists (Z.to_nat i). split; [exact Hn | lia].
    + destruct (Z.gtb_spec (Device.output_channels d) 0); [|lia].
      left. reflexivity.
Qed.

(** The validation of [set_device] past the check of the user. *)
Lemma set_device_valid
    (user : string) (device_id : Z) (devices : list Device.t)
    (stop : stop_result) (write_ok : bool) (start : start_result)
    (b : Bot.t) (info : Device.t) :
  authorized user = true ->
  nth_error devices (Z.to_nat device_id) = Some info -> 0 <= device_id ->
  0 < Device.output_channels info ->
  set_device user device_id devices stop write_ok start b
  = let b2 := Bot.set_audio_device_id (Some device_id)
                (stop_audio_system stop b) in
    if write_ok then
      let b3 := Bot.set_selected_device
                  (Document (device_document device_id (Device.name_of info)))
                  b2 in
      (fst (start_audio_system start b3),
       if snd (start_audio_system start b3)
       then DeviceChanged (Device.name_of info) device_id
       else StartFailed device_id)
    else (b2, DeviceError).
Proof.
  intros Hu Hn H0 Hpos. unfold set_device. rewrite Hu. cbn [negb].
  assert (Hlt : (Z.to_nat device_id < length devices)%nat)
    by (apply nth_error_Some; congruence).
  destruct (Z.ltb_spec device_id 0); [lia|].
  destruct (Z.geb_spec device_id (Z.of_nat (length devices))); [lia|].
  cbn [orb]. rewrite Hn.
  destruct (Z.leb_spec (Device.output_channels info) 0); [lia|].
  cbv zeta. destruct write_ok; [|reflexivity].
  destruct (start_audio_system start _) as [b4 []]; reflexivity.
Qed.

(** [devices] and [setdevice] agree: for the authorized user, [set_device]
    gets past its validation and sets the device exactly for the indices
    that [list_devices] shows, the devices with output channels; when
    [list_devices] finds no output device, [set_device] accepts none. *)
Theorem listed_devices_are_the_accepted_ones
    (user : string) (device_id : Z) (devices : list Device.t)
    (default_output : Z) (stop : stop_result) (start : start_result)
    (b : Bot.t) :
  authorized user = true ->
  ((exists name channels cur def,
       In (device_id, name, channels, cur, def)
          (output_lines devices default_output b)) <->
   device_was_set
     (snd (set_device user device_id devices stop true start b)) = true) /\
  (list_devices user devices default_output b = NoOutputDevices ->
   device_was_set
     (snd (set_device user device_id devices stop true start b)) = false) /\
  (list_devices user devices default_output b = NoOutputDevices \/
   list_devices user devices default_output b
   = OutputDevices (output_lines devices default_output b)).
Proof.
  intros Hu.
  assert (Hiff : (exists name channels cur def,
                     In (device_id, name, channels, cur, def)
                        (output_lines devices default_output b)) <->
                 device_was_set
                   (snd (set_device user device_id devices stop true start b))
                 = true).
  { split.
    - intros (name & channels & cur & def & Hin).
      apply output_lines_spec in Hin.
      destruct Hin as (d & Hn & H0 & Hpos & _).
      rewrite (set_device_valid user device_id devices stop true start b d
                 Hu Hn H0 Hpos).
      cbv zeta. cbn [snd]. now destruct (snd (start_audio_system _ _)).
    - intros Hset. unfold set_device in Hset. rewrite Hu in Hset.
      cbn [negb] in Hset.
      destruct (Z.ltb_spec device_id 0) as [|H0]; [discriminate|].
      destruct (Z.geb_spec device_id (Z.of_nat (length devices))) as [|Hlt];
        [discriminate|].
      cbn [orb] in Hset.
      destruct (nth_error devices (Z.to_nat device_id)) as [d|] eqn:Hn;
        [|discriminate].
      destruct (Z.leb_spec (Device.output_channels d) 0) as [|Hpos];
        [discriminate|].
      exists (Device.name_of d), (Device.output_channels d),
             (is_current device_id b), (device_id =? default_output).
      apply output_lines_spec. exists d. repeat split; auto. }
  split; [exact Hiff|]. split.
  - unfold list_devices. rewrite Hu. cbn [negb]. cbv zeta.
    destruct (output_lines devices default_output b) as [|l ls] eqn:E;
      [|discriminate].
    intros _.
    destruct (device_was_set _) eqn:Hset; [|reflexivity].
    destruct (proj2 Hiff eq_refl) as (? & ? & ? & ? & []).
  - unfold list_devices. rewrite Hu. cbn [negb]. cbv zeta.
    destruct (is_empty _); auto.
Qed.

Lemma listed_devices_are_the_accepted_ones_witness :
  let devices := [Device.mk (Some "mic"%string) (Some 0);
                  Device.mk (Some "speaker"%string) (Some 2)] in
  let b := Bot.mk demo_state None None NoFile in
  device_was_set (snd (set_device "kael558" 1 devices Stopped true Started b))
  = true /\
  device_was_set (snd (set_device "kael558" 0 devices Stopped true Started b))
  = false.
Proof.
  intros devices b.
  destruct (listed_devices_are_the_accepted_ones "kael558" 1 devices 1
              Stopped Started b eq_refl) as (H1 & _).
  split.
  - apply H1. exists "speaker"%string, 2, false, true. left. reflexivity.
  - reflexivity.
Defined.

(** A change of the device starts from empty buffers.  When [set_device]
    accepts a device, it stops the stream, stores the device in [state] and
    in [selected_device.json], and [start_audio_system] creates both
    buffers anew: whatever media and announcement audio was buffered is
    discarded.  This holds also when the stream cannot be opened or
    started: the command then reports the failure, and the device stays
    stored and saved.  The commands' flags, the volume, the queue and the
    current track are untouched. *)
Theorem set_device_discards_buffered_audio
    (user : string) (device_id : Z) (devices : list Device.t)
    (stop : stop_result) (start : start_result) (b : Bot.t)
    (info : Device.t) :
  authorized user = true ->
  nth_error devices (Z.to_nat device_id) = Some info -> 0 <= device_id ->
  0 < Device.output_channels info ->
  let b' := fst (set_device user device_id devices stop true start b) in
  let reply := snd (set_device user device_id devices stop true start b) in
  State.music_buffer (Bot.state b') = Some AudioBuffer.default /\
  State.tts_buffer (Bot.state b') = Some AudioBuffer.default /\
  AudioBuffer.frames_of AudioBuffer.default = [] /\
  Bot.audio_device_id b' = Some device_id /\
  Bot.selected_device b'
    = Document (device_document device_id (Device.name_of info)) /\
  (start = Started ->
   reply = DeviceChanged (Device.name_of info) device_id /\
   Bot.audio_stream b' = Some (mk_stream (Some device_id) true)) /\
  (start <> Started -> reply = StartFailed device_id) /\
  (start = FailedBeforeOpen ->
   Bot.audio_stream b' = Bot.audio_stream (stop_audio_system stop b)) /\
  State.paused (Bot.state b') = State.paused (Bot.state b) /\
  State.volume (Bot.state b') = State.volume (Bot.state b) /\
  State.skip (Bot.state b') = State.skip (Bot.state b) /\
  State.queue (Bot.state b') = State.queue (Bot.state b) /\
  State.current_track (Bot.state b') = State.current_track (Bot.state b).
Proof.
  intros Hu Hn H0 Hpos b' reply. subst b' reply.
  rewrite (set_device_valid user device_id devices stop true start b info
             Hu Hn H0 Hpos).
  cbv zeta. cbn [fst snd].
  assert (Hst : Bot.state (stop_audio_system stop b) = Bot.state b).
  { unfold stop_audio_system. destruct (Bot.audio_stream b); [|reflexivity].
    destruct stop; reflexivity. }
  destruct start; simpl; rewrite ?Hst;
    repeat split; auto; try congruence; try discriminate.
Qed.

Lemma set_device_discards_buffered_audio_witness :
  let devices := [Device.mk (Some "mic"%string) (Some 0);
                  Device.mk (Some "speaker"%string) (Some 2)] in
  let b := Bot.mk demo_state (Some (mk_stream None true)) None NoFile in
  let b' := fst (set_device "kael558" 1 devices Stopped true FailedToStart b) in
  State.music_buffer (Bot.state b') = Some AudioBuffer.default /\
  Bot.audio_device_id b' = Some 1 /\
  Bot.selected_device b' = Document (device_document 1 "speaker").
Proof.
  intros devices b b'.
  destruct (set_device_discards_buffered_audio "kael558" 1 devices Stopped
              FailedToStart b (Device.mk (Some "speaker"%string) (Some 2))
              eq_refl eq_refl ltac:(lia) ltac:(reflexivity))
    as (Hm & _ & _ & Hd & Hf & _).
  split; [exact Hm|]. split; [exact Hd | exact Hf].
Defined.
